(** * Naive t-SNE (src/naive_tsne.cu): a shallow embedding and its properties

    The CUDA source works on [thrust::device_vector<float>] buffers that hold
    matrices in column-major order (entry (i,j) of an N-row matrix lives at
    index [i + j*N]), and on raw [float*] arrays inside the two kernels.
    Buffers are modelled as lists of scalars, the functions that mutate
    buffers in place by explicit state passing, kernel threads by an error
    monad that faults on an out-of-range access.

    The scalar type is an interface ([Scalar]) with two instances:
    - [Binary32]: IEEE-754 single precision, through the Standard Library's
      [SpecFloat] with a 24-bit significand and [emax = 128]; signed zeros,
      infinities and NaN are as in the hardware, and the libm functions the
      source calls (exp, log, log2, pow) are parameters ([B32.fixed] has an
      [expf] computed in fixed point, for the runs in which an exponential
      underflows);
    - [Exact]: the real numbers, the arithmetic the algebraic identities of
      the algorithm are stated in. *)

From Stdlib Require Import ZArith List Lia Bool Arith PeanoNat.
From Stdlib Require Import Reals Lra.
From Stdlib Require Import Floats.SpecFloat.
Import ListNotations.

Set Implicit Arguments.

(** ** Scalars *)

Declare Scope scalar_scope.
Delimit Scope scalar_scope with sc.

(** [lit m e] is the literal [m * 2^e]: every [float] literal of the source
    but [0.8f] is such a dyadic number. *)
Class Scalar (F : Type) : Type := {
  lit   : Z -> Z -> F;
  add   : F -> F -> F;
  sub   : F -> F -> F;
  mul   : F -> F -> F;
  div   : F -> F -> F;
  eqb   : F -> F -> bool;
  ltb   : F -> F -> bool;
  absf  : F -> F;
  expf  : F -> F;
  logf  : F -> F;
  log2f : F -> F;
  pow2f : F -> F
}.

Infix "+." := add (at level 50, left associativity) : scalar_scope.
Infix "-." := sub (at level 50, left associativity) : scalar_scope.
Infix "*." := mul (at level 40, left associativity) : scalar_scope.
Infix "/." := div (at level 40, left associativity) : scalar_scope.
Infix "==." := eqb (at level 70, no associativity) : scalar_scope.
Infix "<." := ltb (at level 70, no associativity) : scalar_scope.

(** [x > y] and [x != y] of C are [y < x] and the negation of [x == y]. *)
Definition gtb {F} {SF : Scalar F} (x y : F) : bool := ltb y x.
Definition neqb {F} {SF : Scalar F} (x y : F) : bool := negb (eqb x y).
Infix ">." := gtb (at level 70, no associativity) : scalar_scope.
Infix "!=." := neqb (at level 70, no associativity) : scalar_scope.

(** *** IEEE-754 binary32 *)

Module B32.
Definition prec : Z := 24.
Definition emax : Z := 128.

Definition of_lit (m e : Z) : spec_float := binary_normalize prec emax m e false.
Definition add := SFadd prec emax.
Definition sub := SFsub prec emax.
Definition mul := SFmul prec emax.
Definition div := SFdiv prec emax.

Definition is_nan (x : spec_float) : bool :=
  match x with S754_nan => true | _ => false end.

Definition is_zero (x : spec_float) : bool :=
  match x with S754_zero _ => true | _ => false end.

(** The libm functions of the CUDA runtime; not part of the repository. *)
Record Libm : Type := {
  m_exp  : spec_float -> spec_float;
  m_log  : spec_float -> spec_float;
  m_log2 : spec_float -> spec_float;
  m_pow2 : spec_float -> spec_float
}.

(** A libm that leaves its argument alone: for runs in which no libm result
    reaches the value looked at. *)
Definition inert : Libm :=
  {| m_exp := fun x => x; m_log := fun x => x;
     m_log2 := fun x => x; m_pow2 := fun x => x |}.

(** An [expf] in fixed point with 64 fractional bits, for runs in which the
    value of an exponential is looked at: the argument is reduced by a
    multiple of ln 2, [exp_series] sums the Taylor series of the remainder,
    and the result is rounded to binary32. Below -104 the result is +0, as
    e^-104 is less than 2^-150, half of the smallest binary32 number; above
    89 it is +infinity. *)
Definition LN2 : Z := 0xB17217F7D1CF79AB.

Fixpoint exp_series (fuel : nat) (n : Z) (r term acc : Z) : Z :=
  match fuel with
  | O => acc
  | S fuel' =>
      let term' := ((term * r) / (n * 2 ^ 64))%Z in
      exp_series fuel' (n + 1)%Z r term' (acc + term')%Z
  end.

Definition exp_fixed (x : spec_float) : spec_float :=
  match x with
  | S754_nan => S754_nan
  | S754_infinity false => S754_infinity false
  | S754_infinity true => S754_zero false
  | S754_zero _ => of_lit 1 0
  | S754_finite s m e =>
      let a := Z.shiftl (Zpos m) (e + 64) in
      let X := if s then (- a)%Z else a in
      if (X <? -104 * 2 ^ 64)%Z then S754_zero false
      else if (89 * 2 ^ 64 <? X)%Z then S754_infinity false
      else
        let k := ((2 * X + LN2) / (2 * LN2))%Z in
        let r := (X - k * LN2)%Z in
        binary_normalize prec emax
          (exp_series 24 1 r (2 ^ 64) (2 ^ 64)) (k - 64) false
  end.

(** The libm with this [expf]; its other functions are left inert. *)
Definition fixed : Libm :=
  {| m_exp := exp_fixed; m_log := fun x => x;
     m_log2 := fun x => x; m_pow2 := fun x => x |}.
End B32.

Definition Binary32 (L : B32.Libm) : Scalar spec_float := {|
  lit := B32.of_lit;
  add := B32.add;
  sub := B32.sub;
  mul := B32.mul;
  div := B32.div;
  eqb := SFeqb;
  ltb := SFltb;
  absf := SFabs;
  expf := B32.m_exp L;
  logf := B32.m_log L;
  log2f := B32.m_log2 L;
  pow2f := B32.m_pow2 L
|}.

(** Binary32 with the inert libm. *)
Definition inert32 : Scalar spec_float := Binary32 B32.inert.

(** *** Exact arithmetic *)

Definition Exact : Scalar R := {|
  lit := fun m e => (IZR m * powerRZ 2 e)%R;
  add := Rplus;
  sub := Rminus;
  mul := Rmult;
  div := Rdiv;
  eqb := fun x y => if Req_dec_T x y then true else false;
  ltb := fun x y => if Rlt_dec x y then true else false;
  absf := Rabs;
  expf := exp;
  logf := ln;
  log2f := fun x => (ln x / ln 2)%R;
  pow2f := fun x => Rpower 2 x
|}.

(** ** Buffers *)

Section Buffers.
Context {F : Type} {SF : Scalar F}.
Local Open Scope scalar_scope.

Definition zero : F := lit 0 0.
Definition one : F := lit 1 0.
Definition two : F := lit 2 0.
Definition half : F := lit 1 (-1).
Definition four : F := lit 4 0.

(** A read [v[k]]. A device vector read past its end is undefined in the
    source; the model reads [zero] there, and the theorems that depend on a
    read bound the index. *)
Definition at_ (v : list F) (k : nat) : F := nth k v zero.

Definition tabulate (n : nat) (f : nat -> F) : list F := map f (seq 0 n).

(** [imap f v]: the buffer whose entry [k] is [f k v[k]]. *)
Definition imap (f : nat -> F -> F) (v : list F) : list F :=
  map (fun kx => f (fst kx) (snd kx)) (combine (seq 0 (length v)) v).

(** A write of [src] through an output iterator that starts at
    [dst.begin()]: the first [length src] entries are replaced, the rest of
    [dst] stays. (The source never writes more than [dst] holds.) *)
Definition store_range (src dst : list F) : list F :=
  src ++ skipn (length src) dst.

(** [thrust::transform] over two input ranges. *)
Fixpoint zip_with (f : F -> F -> F) (xs ys : list F) : list F :=
  match xs, ys with
  | x :: xs', y :: ys' => f x y :: zip_with f xs' ys'
  | _, _ => []
  end.

(** [thrust::reduce(first, last, init, thrust::plus<float>())], taken in
    index order. *)
Definition reduce (v : list F) (init : F) : F := fold_left add v init.

(** [sum_upto n f] is [f 0 + f 1 + ... + f (n-1)], accumulated from
    [zero] in index order. *)
Definition sum_upto (n : nat) (f : nat -> F) : F :=
  fold_left (fun acc k => acc +. f k) (seq 0 n) zero.

(** [thrust::maximum<float>]. *)
Definition fmax (a b : F) : F := if a <. b then b else a.
End Buffers.

(** ** The functors of the source (lines 11-31) *)

Section Functors.
Context {F : Type} {SF : Scalar F}.
Local Open Scope scalar_scope.

(** [func_inc_inv]: [1 / (x + 1)]. *)
Definition func_inc_inv (x : F) : F := one /. (x +. one).

(** [func_kl]: [x == 0.0f ? 0.0f : x * (log(x) - log(y))]. *)
Definition func_kl (x y : F) : F :=
  if x ==. zero then zero else x *. (logf x -. logf y).

(** [func_exp]. *)
Definition func_exp (x : F) : F := expf x.

(** [func_entropy_kernel]: [val = x*log2(x); (val != val) ? 0 : val]. *)
Definition func_entropy_kernel (x : F) : F :=
  let val := x *. log2f x in
  if val !=. val then zero else val.

(** [func_pow2]: [pow(2, x)]. *)
Definition func_pow2 (x : F) : F := pow2f x.
End Functors.

(** ** The linear-algebra collaborators

    [Distance], [Broadcast], [Reduce], [Math] and [zero_diagonal] belong to
    the repository but not to src/; cuBLAS is a library. The index set the
    spec calls "column i" of an N x N buffer is the one the source's comment
    writes [matrix[i,:]]: the entries [i + j*N], [j < N]. *)

Section Collaborators.
Context {F : Type} {SF : Scalar F}.
Local Open Scope scalar_scope.

(** The entry of column [i] at position [j]. *)
Definition entry (N : nat) (v : list F) (i j : nat) : F := at_ v (i + j * N).

(** Modelled from the spec: [zero_diagonal] is not under src/; the spec
    says "zero the diagonal". Entry [k] of an N x N buffer is on the
    diagonal when [k mod N = k / N]. *)
Definition is_diag (N k : nat) : bool := (k mod N =? k / N)%nat.

Definition zero_diagonal (v : list F) (N : nat) : list F :=
  imap (fun k x => if is_diag N k then zero else x) v.

(** Modelled from the spec: [Distance::squared_pairwise_dist] is not under
    src/; the spec says "pairwise squared Euclidean distance matrix": entry
    (i,j) is the sum over the coordinates [d] of the squared difference of
    points [i] and [j], with coordinate [d] of point [i] at [i + d*N] (the
    layout of the source's debug dump). *)
Definition squared_pairwise_dist (points : list F) (N NDIMS : nat) : list F :=
  tabulate (N * N) (fun k =>
    let i := (k mod N)%nat in
    let j := (k / N)%nat in
    sum_upto NDIMS (fun d =>
      let t := entry N points i d -. entry N points j d in t *. t)).

(** Modelled from the spec: [Math::square] is not under src/; elementwise
    square. *)
Definition square (v : list F) : list F := map (fun x => x *. x) v.

(** Modelled from the spec: [Broadcast::broadcast_matrix_vector] is not
    under src/; the spec says "divide a matrix by a vector along a chosen
    axis with an optional scale factor". With axis 0, column [i] is
    combined with [alpha * vector[i]]; with another axis, position [j] of
    every column with [alpha * vector[j]]. *)
Definition broadcast_matrix_vector (matrix vector : list F) (N : nat)
    (op : F -> F -> F) (axis : nat) (alpha : F) : list F :=
  imap (fun k x =>
    let idx := match axis with O => (k mod N)%nat | _ => (k / N)%nat end in
    op x (alpha *. at_ vector idx)) matrix.

(** Modelled from the spec: [Reduce::reduce_alpha] and [Reduce::reduce_sum]
    are not under src/; the spec says "sum a matrix's rows or columns (with
    optional scale factor) to a vector". With axis 1, entry [i] of the
    result is the sum of column [i]; with axis 0, entry [j] is the sum of
    the entries at position [j] of every column. *)
Definition reduce_sum (matrix : list F) (N M axis : nat) : list F :=
  match axis with
  | O => tabulate M (fun j => sum_upto N (fun i => entry N matrix i j))
  | _ => tabulate N (fun i => sum_upto M (fun j => entry N matrix i j))
  end.

Definition reduce_alpha (matrix : list F) (N M : nat) (alpha : F) (axis : nat) : list F :=
  map (fun s => alpha *. s) (reduce_sum matrix N M axis).

(** Modelled from the spec: [Math::max_norm] is not under src/; the spec
    says "max-norm rescaling" and "max-value normalization of a matrix":
    every entry is divided by the largest absolute value. The source calls
    it for its effect on the buffer it is given. *)
Definition max_abs (v : list F) : F := fold_left fmax (map absf v) zero.
Definition max_norm (v : list F) : list F :=
  let m := max_abs v in map (fun x => x /. m) v.

(** [cublasSgemm] with both operands not transposed and every leading
    dimension equal to the row count, as in both calls of the source:
    [C <- alpha * A * B + beta * C] for the m x k matrix [A], the k x n
    matrix [B] and the m x n matrix [C]. cuBLAS does not read [C] when
    [beta] is zero. *)
Definition gemm (m n k : nat) (alpha : F) (A B : list F) (beta : F) (C : list F) : list F :=
  store_range
    (tabulate (m * n) (fun idx =>
       let i := (idx mod m)%nat in
       let j := (idx / m)%nat in
       let dot := sum_upto k (fun l => at_ A (i + l * m) *. at_ B (l + j * k)) in
       if beta ==. zero then alpha *. dot
       else alpha *. dot +. beta *. at_ C (i + j * m)))
    C.

(** [cublasSgeam] with [CUBLAS_OP_N] for [A] and [CUBLAS_OP_T] for [B], on
    n x n matrices: [C <- alpha * A + beta * B^T]. *)
Definition geam_nt (n : nat) (alpha : F) (A : list F) (beta : F) (B : list F) : list F :=
  tabulate (n * n) (fun idx =>
    let i := (idx mod n)%nat in
    let j := (idx / n)%nat in
    alpha *. at_ A (i + j * n) +. beta *. at_ B (j + i * n)).
End Collaborators.

(** ** The calibration kernels (lines 33-121) *)

(** The arrays the two kernels get as raw pointers, each of [N] floats. *)
Record SearchArrays (F : Type) : Type := {
  sigmas      : list F;
  lower_bound : list F;
  upper_bound : list F;
  perplexity  : list F
}.

Section Kernels.
Context {F : Type} {SF : Scalar F}.
Local Open Scope scalar_scope.

(** Device memory accesses of a thread: [None] is an access outside the
    array. *)
Definition load (a : list F) (i : nat) : option F := nth_error a i.

Fixpoint set_nth (a : list F) (i : nat) (v : F) : list F :=
  match a, i with
  | [], _ => []
  | _ :: a', O => v :: a'
  | x :: a', S i' => x :: set_nth a' i' v
  end.

Definition store (a : list F) (i : nat) (v : F) : option (list F) :=
  if (i <? length a)%nat then Some (set_nth a i v) else None.

Definition bind {A B : Type} (c : option A) (k : A -> option B) : option B :=
  match c with Some a => k a | None => None end.

Local Notation "x <- c ;; k" := (bind c (fun x => k))
  (at level 61, c at next level, right associativity).

(** The last two statements of both kernels: the chosen bound takes the
    current sigma, then
    [sigmas[TID] = (upper_bound[TID] + lower_bound[TID])/2.0f]. *)
Definition assign_upper (m : SearchArrays F) (TID : nat) : option (SearchArrays F) :=
  s <- load (sigmas m) TID ;;
  ub <- store (upper_bound m) TID s ;;
  Some {| sigmas := sigmas m; lower_bound := lower_bound m;
          upper_bound := ub; perplexity := perplexity m |}.

Definition assign_lower (m : SearchArrays F) (TID : nat) : option (SearchArrays F) :=
  s <- load (sigmas m) TID ;;
  lb <- store (lower_bound m) TID s ;;
  Some {| sigmas := sigmas m; lower_bound := lb;
          upper_bound := upper_bound m; perplexity := perplexity m |}.

Definition bisect (m : SearchArrays F) (TID : nat) : option (SearchArrays F) :=
  u <- load (upper_bound m) TID ;;
  l <- load (lower_bound m) TID ;;
  sg <- store (sigmas m) TID ((u +. l) /. two) ;;
  Some {| sigmas := sg; lower_bound := lower_bound m;
          upper_bound := upper_bound m; perplexity := perplexity m |}.

(** [upper_lower_assign] (lines 62-77), one thread. The guard is
    [if (TID > N) return;]. *)
Definition upper_lower_assign (target_perplexity : F) (N : nat) (TID : nat)
    (m : SearchArrays F) : option (SearchArrays F) :=
  if (N <? TID)%nat then Some m
  else
    p <- load (perplexity m) TID ;;
    m1 <- (if p >. target_perplexity then assign_upper m TID
           else assign_lower m TID) ;;
    bisect m1 TID.

(** [perplexity_search] (lines 33-60), one thread: the entropy loop over
    [i != TID], then the bound update. *)
Fixpoint entropy_loop (pij : list F) (N TID : nat) (idxs : list nat) (entropy : F) : option F :=
  match idxs with
  | [] => Some entropy
  | i :: rest =>
      if (i =? TID)%nat then entropy_loop pij N TID rest entropy
      else
        p <- load pij (i + TID * N) ;;
        entropy_loop pij N TID rest (entropy +. p *. log2f p)
  end.

Definition perplexity_search (pij : list F) (target_perplexity : F) (N : nat) (TID : nat)
    (m : SearchArrays F) : option (SearchArrays F) :=
  if (N <? TID)%nat then Some m
  else
    entropy <- entropy_loop pij N TID (seq 0 N) zero ;;
    pp <- store (perplexity m) TID (pow2f (lit (-1) 0 *. entropy)) ;;
    let m0 := {| sigmas := sigmas m; lower_bound := lower_bound m;
                 upper_bound := upper_bound m; perplexity := pp |} in
    p <- load pp TID ;;
    m1 <- (if p <. target_perplexity then assign_upper m0 TID
           else assign_lower m0 TID) ;;
    bisect m1 TID.

(** A launch [<<<NBLOCKS, BLOCKSIZE>>>] runs the thread body for every
    [TID < NBLOCKS * BLOCKSIZE]. The threads of these kernels touch index
    [TID] only, so any order gives the same arrays; a fault of one thread
    is a fault of the launch. *)
Definition launch (NBLOCKS BLOCKSIZE : nat)
    (thread : nat -> SearchArrays F -> option (SearchArrays F))
    (m : SearchArrays F) : option (SearchArrays F) :=
  fold_left (fun acc TID => bind acc (thread TID))
            (seq 0 (NBLOCKS * BLOCKSIZE)) (Some m).

(** Modelled from the spec: [iDivUp] is not under src/ and the spec does
    not describe it; it is the ceiling division that its use, the number of
    32-thread blocks that cover [N] threads, calls for. *)
Definition iDivUp (a b : nat) : nat :=
  if (a mod b =? 0)%nat then (a / b)%nat else (a / b + 1)%nat.

(** The entropy terms [thrust_search_perplexity] sums (lines 91-93). *)
Definition entropy_terms (pij : list F) (N : nat) : list F :=
  zero_diagonal (map func_entropy_kernel pij) N.

(** [thrust_search_perplexity] (lines 79-121). *)
Definition thrust_search_perplexity (m : SearchArrays F) (pij : list F)
    (target_perplexity : F) (N : nat) : option (SearchArrays F) :=
  let entropy_ := entropy_terms pij N in
  let neg_entropy := reduce_alpha entropy_ N N (lit (-1) 0) 1 in
  let m1 := {| sigmas := sigmas m; lower_bound := lower_bound m;
               upper_bound := upper_bound m;
               perplexity := store_range (map func_pow2 neg_entropy) (perplexity m) |} in
  let BLOCKSIZE := 32%nat in
  let NBLOCKS := iDivUp N BLOCKSIZE in
  launch NBLOCKS BLOCKSIZE (upper_lower_assign target_perplexity N) m1.
End Kernels.

(** ** Affinity construction, gradient and optimisation loop (lines 122-397) *)

(** The buffers [compute_gradients] takes by reference. *)
Record GradBuffers (F : Type) : Type := {
  forces : list F;
  dist   : list F;
  ys     : list F;
  pij    : list F;
  qij    : list F
}.

(** What a run of [tsne] leaves behind: the returned embedding, the caller's
    [points] buffer (taken by non-const reference), and one record
    [(i, loss)] per executed loop body. *)
Record TsneRun (F : Type) : Type := {
  embedding    : list F;
  points_after : list F;
  steps        : list (nat * F)
}.

(** The variables the loop of [tsne] updates. *)
Record LoopState (F : Type) : Type := {
  bufs     : GradBuffers F;
  yt_1     : list F;
  momentum : list F;
  loss     : F;
  executed : list (nat * F)
}.

Section TSNE.
Context {F : Type} {SF : Scalar F}.
Local Open Scope scalar_scope.

(** [compute_pij] up to and including the normalisation (lines 128-167):
    the conditional probabilities, before the symmetrisation. *)
Definition kernel_pij (points sigma : list F) (N NDIMS : nat) : list F :=
  let pij_vals := squared_pairwise_dist points N NDIMS in
  let sigma_squared := square sigma in
  let pij_vals := broadcast_matrix_vector pij_vals sigma_squared N div 0 (lit (-2) 0) in
  let pij_vals := map func_exp pij_vals in
  zero_diagonal pij_vals N.

Definition conditional_pij (points sigma : list F) (N NDIMS : nat) : list F :=
  let pij_vals := kernel_pij points sigma N NDIMS in
  let sums := reduce_sum pij_vals N N 1 in
  broadcast_matrix_vector pij_vals sums N div 0 one.

(** [NaiveTSNE::compute_pij] (lines 122-183). *)
Definition compute_pij (points sigma : list F) (N NDIMS : nat) : list F :=
  let pij_vals := conditional_pij points sigma N NDIMS in
  let alpha := half in
  let beta := half in
  geam_nt N alpha pij_vals beta pij_vals.

(** The state of the buffers after line 219 of [compute_gradients]:
    [dist] holds the kernel and [qij] the normalised affinities. *)
Definition student_kernel (dist_ ys_ : list F) (N PROJDIM : nat) : list F :=
  let dist_ := store_range (squared_pairwise_dist ys_ N PROJDIM) dist_ in
  let dist_ := map func_inc_inv dist_ in
  zero_diagonal dist_ N.

Definition normalised_qij (dist_ qij_ : list F) : list F :=
  let sum := reduce dist_ zero in
  store_range (map (fun d => d /. sum) dist_) qij_.

(** [NaiveTSNE::compute_gradients] (lines 194-275): the returned loss and
    the buffers as the call leaves them. *)
Definition compute_gradients (b : GradBuffers F) (N PROJDIM : nat) (eta : F)
    : F * GradBuffers F :=
  let dist_ := student_kernel (dist b) (ys b) N PROJDIM in
  let qij_ := normalised_qij dist_ (qij b) in
  let loss_ := store_range (zip_with func_kl (pij b) qij_) (repeat zero (N * N)) in
  let loss_ := zero_diagonal loss_ N in
  let loss := reduce loss_ zero in
  let qij_ := store_range (zip_with sub (pij b) qij_) qij_ in
  let qij_ := store_range (zip_with mul qij_ dist_) qij_ in
  let alpha := one in
  let beta := zero in
  let ones := repeat one (PROJDIM * N) in
  let forces_ := gemm N PROJDIM N alpha qij_ ones beta (forces b) in
  let forces_ := store_range (zip_with mul forces_ (ys b)) forces_ in
  let alpha := four *. eta in
  let beta := lit (-4) 0 *. eta in
  let forces_ := gemm N PROJDIM N alpha qij_ (ys b) beta forces_ in
  (loss, {| forces := forces_; dist := dist_; ys := ys b; pij := pij b; qij := qij_ |}).

(** [for (int i = lo; i < lo + n; i++) body]: the body of the source's
    loop has no [break], [return] or assignment to [i]. *)
Fixpoint for_loop {S : Type} (n : nat) (i : nat) (body : nat -> S -> S) (s : S) : S :=
  match n with
  | O => s
  | Datatypes.S n' => for_loop n' (Datatypes.S i) body (body i s)
  end.

(** [0.8f], the nearest binary32 number to 0.8. *)
Definition momentum_weight : F := lit 13421773 (-24).

(** The loop body of [tsne] (lines 366-375). *)
Definition gradient_update (N PROJDIM : nat) (eta : F) (i : nat) (s : LoopState F)
    : LoopState F :=
  let '(loss_, b) := compute_gradients (bufs s) N PROJDIM eta in
  let momentum_ := store_range (zip_with sub (ys b) (yt_1 s)) (momentum s) in
  let momentum_ := store_range (map (fun x => x *. momentum_weight) momentum_) momentum_ in
  let yt_1_ := store_range (ys b) (yt_1 s) in
  let ys_ := store_range (zip_with add (ys b) (forces b)) (ys b) in
  let ys_ := store_range (zip_with add ys_ momentum_) ys_ in
  {| bufs := {| forces := forces b; dist := dist b; ys := ys_; pij := pij b; qij := qij b |};
     yt_1 := yt_1_;
     momentum := momentum_;
     loss := loss_;
     executed := executed s ++ [(i, loss_)] |}.

(** [NaiveTSNE::tsne] (lines 277-397). [Random::rand_in_range(N, 0.2f,
    0.4f)] and [Random::random_vector(N * PROJDIM)] are not under src/:
    their results are the inputs [rand_sigmas] and [rand_ys]. *)
Definition tsne (points : list F) (N NDIMS PROJDIM : nat)
    (rand_sigmas rand_ys : list F) : TsneRun F :=
  let points := max_norm points in
  let sigmas_ := rand_sigmas in
  let pij_ := compute_pij points sigmas_ N NDIMS in
  let forces_ := repeat zero (N * PROJDIM) in
  let ys_ := rand_ys in
  let yt_1_ := repeat zero (N * PROJDIM) in
  let momentum_ := repeat zero (N * PROJDIM) in
  let qij_ := repeat zero (N * N) in
  let dist_ := repeat zero (N * N) in
  let eta := one in
  let loss_ := zero in
  let s0 := {| bufs := {| forces := forces_; dist := dist_; ys := ys_;
                          pij := pij_; qij := qij_ |};
               yt_1 := yt_1_; momentum := momentum_; loss := loss_;
               executed := [] |} in
  let s := for_loop 5000 0 (gradient_update N PROJDIM eta) s0 in
  {| embedding := ys (bufs s); points_after := points; steps := executed s |}.
End TSNE.

(** * The specification's words

    Definitions that follow the spec, to be compared with the source's: the
    matrices of 4.3 entry by entry, the bound update of 4.2, the loss and
    the force of 4.3 in the reals, and the data of the examples. *)

Section SpecWords.
Context {F : Type} {SF : Scalar F}.
Local Open Scope scalar_scope.

(** The bound update as the spec words it (4.2, steps 3 and 4): a
    perplexity below the target moves the lower bound, any other moves the
    upper bound, then sigma is the midpoint. *)
Definition spec_bound_update (target_perplexity : F) (TID : nat)
    (m : SearchArrays F) : option (SearchArrays F) :=
  bind (load (perplexity m) TID) (fun p =>
  bind (if p <. target_perplexity then assign_lower m TID else assign_upper m TID)
       (fun m1 => bisect m1 TID)).

(** What [upper_lower_assign] leaves in the bounds of point [TID]. *)
Definition updated_upper (target_perplexity : F) (TID : nat) (m : SearchArrays F) : list F :=
  if at_ (perplexity m) TID >. target_perplexity
  then set_nth (upper_bound m) TID (at_ (sigmas m) TID)
  else upper_bound m.

Definition updated_lower (target_perplexity : F) (TID : nat) (m : SearchArrays F) : list F :=
  if at_ (perplexity m) TID >. target_perplexity
  then lower_bound m
  else set_nth (lower_bound m) TID (at_ (sigmas m) TID).

(** The Student-t kernel matrix, entry by entry: 0 on the diagonal and
    [1 / (d + 1)] for the squared distance [d] of two embedded points (the
    source adds in this order). *)
Definition kernel_matrix (ys_ : list F) (N PROJDIM : nat) : list F :=
  tabulate (N * N) (fun k =>
    if is_diag N k then zero
    else one /. (at_ (squared_pairwise_dist ys_ N PROJDIM) k +. one)).

(** The normalised affinities Qij: the kernel over the sum of all its
    entries. *)
Definition affinity_matrix (ys_ : list F) (N PROJDIM : nat) : list F :=
  let K := kernel_matrix ys_ N PROJDIM in
  tabulate (N * N) (fun k => at_ K k /. reduce K zero).

(** The gradient coefficient matrix [C = (Pij - Qij) (.) kernel]. *)
Definition gradient_coefficient (ys_ pij_ : list F) (N PROJDIM : nat) : list F :=
  let K := kernel_matrix ys_ N PROJDIM in
  let Q := affinity_matrix ys_ N PROJDIM in
  tabulate (N * N) (fun k => (at_ pij_ k -. at_ Q k) *. at_ K k).

End SpecWords.

Module ExactSpec.
#[local] Existing Instance Exact.
Local Open Scope R_scope.

(** Sums of reals: of the entries of a list, and of [f 0], ..., [f (n-1)]. *)
Fixpoint Rsum (l : list R) : R :=
  match l with
  | [] => 0
  | x :: l' => x + Rsum l'
  end.

Definition Rsum_upto (n : nat) (f : nat -> R) : R := Rsum (map f (seq 0 n)).

(** The force matrix the source computes, entry by entry: [4 eta] times
    ([C * Y] minus [Y] times the row sums of [C], the sums of [C(i,k)] over
    [k]), the step along the negative gradient that the loop adds to [Y]. *)
Definition descent_forces (C Y : list R) (N PROJDIM : nat) (eta : R) : list R :=
  tabulate (N * PROJDIM) (fun idx =>
    let i := (idx mod N)%nat in
    let j := (idx / N)%nat in
    4 * eta * (Rsum_upto N (fun k => entry N C i k * entry N Y k j)
               - entry N Y i j * Rsum_upto N (fun k => entry N C i k))).

(** The force matrix as the spec words it (4.3, step 7):
    [4 eta (Y (.) (C 1) - C Y)]. *)
Definition spec_forces (C Y : list R) (N PROJDIM : nat) (eta : R) : list R :=
  tabulate (N * PROJDIM) (fun idx =>
    let i := (idx mod N)%nat in
    let j := (idx / N)%nat in
    4 * eta * (entry N Y i j * Rsum_upto N (fun k => entry N C i k)
               - Rsum_upto N (fun k => entry N C i k * entry N Y k j))).

(** One term of the loss as the spec words it (4.3, step 5): exactly 0
    when [p] is 0, and [p (log p - log q)] otherwise. *)
Definition kl_term (p q : R) : R :=
  if Req_dec_T p 0 then 0 else p * (ln p - ln q).

(** The index pairs off the diagonal. *)
Definition offdiag_pairs (N : nat) : list (nat * nat) :=
  filter (fun ij => negb (fst ij =? snd ij)%nat) (list_prod (seq 0 N) (seq 0 N)).

(** The sum of the terms over the off-diagonal entries only. *)
Definition kl_loss (N : nat) (P Q : list R) : R :=
  Rsum (map (fun ij => kl_term (entry N P (fst ij) (snd ij))
                               (entry N Q (fst ij) (snd ij)))
            (offdiag_pairs N)).

(** Two embedded points at 0 and 1 on a line ([N = 2], [PROJDIM = 1]) and
    the affinity 1 between them. *)
Definition two_points : GradBuffers R :=
  {| forces := [0; 0]; dist := [0; 0; 0; 0]; ys := [0; 1];
     pij := [0; 1; 1; 0]; qij := [0; 0; 0; 0] |}.

End ExactSpec.

Module Binary32Spec.
Local Open Scope scalar_scope.

(** A valid matrix: every entry is a number. *)
Definition no_nan (M : list spec_float) : Prop :=
  Forall (fun x => B32.is_nan x = false) M.

(** [M[i][j] == M[j][i]] and [M[i][i] == 0], with the [==] of C. *)
Definition symmetric (L : B32.Libm) (N : nat) (M : list spec_float) : Prop :=
  forall i j, (i < N)%nat -> (j < N)%nat ->
    SFeqb (entry (SF := Binary32 L) N M i j) (entry (SF := Binary32 L) N M j i) = true.

Definition zero_on_diagonal (L : B32.Libm) (N : nat) (M : list spec_float) : Prop :=
  forall i, (i < N)%nat ->
    SFeqb (entry (SF := Binary32 L) N M i i) (S754_zero false) = true.

#[local] Existing Instance inert32.

(** One point with sigma 1 in the bracket [0, 512], whose perplexity 16
    equals the target. *)
Definition on_target : SearchArrays spec_float :=
  {| sigmas := [lit 1 0];
     lower_bound := [lit 0 0];
     upper_bound := [lit 512 0];
     perplexity := [lit 16 0] |}.

(** Five points, as [thrust_search_perplexity] passes them for [N = 5]. *)
Definition five_points : SearchArrays spec_float :=
  {| sigmas := repeat (lit 1 0) 5;
     lower_bound := repeat (lit 0 0) 5;
     upper_bound := repeat (lit 512 0) 5;
     perplexity := repeat (lit 16 0) 5 |}.

(** Two embedded points at 0 and 1 on a line and the affinity 1 between
    them, in the [N*N] and [N*PROJDIM] buffers of [tsne]. *)
Definition two_points : GradBuffers spec_float :=
  {| forces := [zero; zero]; dist := repeat zero 4; ys := [zero; one];
     pij := [zero; one; one; zero]; qij := repeat zero 4 |}.

(** The points (1,1,1) and (-1,-1,-1), which max-norm rescaling leaves as
    they are ([N = 2], [NDIMS = 3], coordinate [d] of point [i] at
    [i + d*N]), and the bandwidth 7/32 = 0.21875 for both, a value of the
    range [0.2, 0.4] from which [tsne] draws the bandwidths. *)
Definition opposite_corners : list spec_float :=
  [lit 1 0; lit (-1) 0; lit 1 0; lit (-1) 0; lit 1 0; lit (-1) 0].

Definition narrow_sigmas : list spec_float := [lit 7 (-5); lit 7 (-5)].

(** The points (0,0) and (10,10) of the spec's end-to-end example
    ([N = 2], [NDIMS = 2]), with the bandwidths 0.3f and 8. *)
Definition far_points : list spec_float := [lit 0 0; lit 10 0; lit 0 0; lit 10 0].

Definition sigmas_03 : list spec_float := [lit 10066330 (-25); lit 10066330 (-25)].

Definition sigmas_8 : list spec_float := [lit 8 0; lit 8 0].

(** A positive binary32 number: finite, not zero, with the sign bit clear
    and a mantissa and exponent of the format. *)
Definition positive_number (x : spec_float) : Prop :=
  match x with
  | S754_finite false m e => bounded B32.prec B32.emax m e = true
  | _ => False
  end.

(** Every entry of column [i] of an N x N matrix is a zero. *)
Definition column_of_zeros (L : B32.Libm) (N : nat) (M : list spec_float) (i : nat) : Prop :=
  forall j, (j < N)%nat -> B32.is_zero (entry (SF := Binary32 L) N M i j) = true.

End Binary32Spec.

(** ** What a whole launch leaves behind *)

Section LaunchWords.
Context {F : Type} {SF : Scalar F}.
Local Open Scope scalar_scope.

(** The bounds of point [k] after its [upper_lower_assign] thread, read from
    the arrays as they were before the launch. *)
Definition moved_upper (target_perplexity : F) (m : SearchArrays F) (k : nat) : F :=
  if at_ (perplexity m) k >. target_perplexity
  then at_ (sigmas m) k else at_ (upper_bound m) k.

Definition moved_lower (target_perplexity : F) (m : SearchArrays F) (k : nat) : F :=
  if at_ (perplexity m) k >. target_perplexity
  then at_ (lower_bound m) k else at_ (sigmas m) k.

(** The arrays in which the points below [T] have been updated and the
    others are as in [m]. *)
Definition after_threads (target_perplexity : F) (T : nat) (m : SearchArrays F)
    : SearchArrays F :=
  {| sigmas := imap (fun k s =>
       if (k <? T)%nat
       then (moved_upper target_perplexity m k +. moved_lower target_perplexity m k) /. two
       else s) (sigmas m);
     lower_bound := imap (fun k l =>
       if (k <? T)%nat then moved_lower target_perplexity m k else l) (lower_bound m);
     upper_bound := imap (fun k u =>
       if (k <? T)%nat then moved_upper target_perplexity m k else u) (upper_bound m);
     perplexity := perplexity m |}.

(** The entropy sum of the [perplexity_search] thread [TID]: the terms
    [pij[i + TID*N] * log2(pij[i + TID*N])] for [i != TID], added to 0 in
    the order of [i]. *)
Definition thread_entropy (pij_ : list F) (N TID : nat) : F :=
  fold_left (fun acc i =>
               if (i =? TID)%nat then acc
               else acc +. at_ pij_ (i + TID * N) *. log2f (at_ pij_ (i + TID * N)))
            (seq 0 N) zero.
End LaunchWords.

(** ** The buffer sizes of [tsne] *)

Section LoopWords.
Context {F : Type} {SF : Scalar F}.

(** The sizes [tsne] allocates: [N*PROJDIM] entries for the embedding, the
    forces and the momentum variables, [N*N] for the matrices. *)
Definition buffers_sized (N PROJDIM : nat) (s : LoopState F) : Prop :=
  length (ys (bufs s)) = (N * PROJDIM)%nat
  /\ length (forces (bufs s)) = (N * PROJDIM)%nat
  /\ length (yt_1 s) = (N * PROJDIM)%nat
  /\ length (momentum s) = (N * PROJDIM)%nat
  /\ length (dist (bufs s)) = (N * N)%nat
  /\ length (qij (bufs s)) = (N * N)%nat
  /\ length (pij (bufs s)) = (N * N)%nat.

(** The state in which [tsne] enters its loop. *)
Definition tsne_initial_state (points : list F) (N NDIMS PROJDIM : nat)
    (rand_sigmas rand_ys : list F) : LoopState F :=
  {| bufs := {| forces := repeat zero (N * PROJDIM);
                dist := repeat zero (N * N);
                ys := rand_ys;
                pij := compute_pij (max_norm points) rand_sigmas N NDIMS;
                qij := repeat zero (N * N) |};
     yt_1 := repeat zero (N * PROJDIM);
     momentum := repeat zero (N * PROJDIM);
     loss := zero;
     executed := [] |}.
End LoopWords.

(** * Properties *)

Unset Implicit Arguments.

(** ** Buffer lemmas *)

Section BufferLemmas.
Context {F : Type} {SF : Scalar F}.
Local Open Scope scalar_scope.

Lemma nth_map_in {A B : Type} (g : A -> B) (l : list A) (k : nat) (d : B) (d' : A) :
  (k < length l)%nat -> nth k (map g l) d = g (nth k l d').
Proof.
  revert k. induction l as [|x l IH]; intros [|k] Hk; cbn in *; try lia.
  - reflexivity.
  - apply IH. lia.
Qed.

Lemma length_tabulate (n : nat) (f : nat -> F) : length (tabulate n f) = n.
Proof. unfold tabulate. now rewrite length_map, length_seq. Qed.

Lemma at_tabulate (n : nat) (f : nat -> F) (k : nat) :
  (k < n)%nat -> at_ (tabulate n f) k = f k.
Proof.
  intros Hk. unfold at_, tabulate.
  rewrite (nth_map_in f _ _ _ 0%nat) by now rewrite length_seq.
  now rewrite seq_nth.
Qed.

Lemma at_map (f : F -> F) (v : list F) (k : nat) :
  (k < length v)%nat -> at_ (map f v) k = f (at_ v k).
Proof. intros Hk. unfold at_. now apply nth_map_in. Qed.

Lemma length_imap (f : nat -> F -> F) (v : list F) : length (imap f v) = length v.
Proof.
  unfold imap. rewrite length_map, length_combine, length_seq. apply Nat.min_id.
Qed.

Lemma at_imap (f : nat -> F -> F) (v : list F) (k : nat) :
  (k < length v)%nat -> at_ (imap f v) k = f k (at_ v k).
Proof.
  intros Hk. unfold at_, imap.
  rewrite (nth_map_in _ _ _ _ (0%nat, zero))
    by (rewrite length_combine, length_seq, Nat.min_id; exact Hk).
  rewrite combine_nth by now rewrite length_seq.
  cbn [fst snd]. now rewrite seq_nth.
Qed.

Lemma store_range_full (src dst : list F) :
  length src = length dst -> store_range src dst = src.
Proof.
  intros Hl. unfold store_range.
  rewrite Hl, skipn_all. apply app_nil_r.
Qed.

Lemma length_zip_with (f : F -> F -> F) (xs ys : list F) :
  length (zip_with f xs ys) = Nat.min (length xs) (length ys).
Proof.
  revert ys. induction xs as [|x xs IH]; intros [|y ys]; cbn; try reflexivity.
  now rewrite IH.
Qed.

Lemma at_zip_with (f : F -> F -> F) (xs ys : list F) (k : nat) :
  (k < length xs)%nat -> (k < length ys)%nat ->
  at_ (zip_with f xs ys) k = f (at_ xs k) (at_ ys k).
Proof.
  unfold at_. revert ys k.
  induction xs as [|x xs IH]; intros [|y ys] [|k] Hx Hy; cbn in *; try lia.
  - reflexivity.
  - apply IH; lia.
Qed.

Lemma length_zero_diagonal (v : list F) (N : nat) :
  length (zero_diagonal v N) = length v.
Proof. apply length_imap. Qed.

Lemma length_set_nth (a : list F) (i : nat) (x : F) :
  length (set_nth a i x) = length a.
Proof.
  revert i. induction a as [|y a IH]; intros [|i]; cbn; try reflexivity.
  now rewrite IH.
Qed.

Lemma at_set_nth_same (a : list F) (i : nat) (x : F) :
  (i < length a)%nat -> at_ (set_nth a i x) i = x.
Proof.
  unfold at_. revert i. induction a as [|y a IH]; intros [|i] Hi; cbn in *; try lia.
  - reflexivity.
  - apply IH. lia.
Qed.

Lemma at_set_nth_other (a : list F) (i k : nat) (x : F) :
  k <> i -> at_ (set_nth a i x) k = at_ a k.
Proof.
  unfold at_. revert i k.
  induction a as [|y a IH]; intros [|i] [|k] Hne; cbn; try reflexivity; try lia.
  apply IH. lia.
Qed.

Lemma load_in_range (a : list F) (i : nat) :
  (i < length a)%nat -> load a i = Some (at_ a i).
Proof.
  intros Hi. unfold load, at_. now apply nth_error_nth'.
Qed.

Lemma load_out_of_range (a : list F) (i : nat) :
  (length a <= i)%nat -> load a i = None.
Proof. intros Hi. unfold load. now apply nth_error_None. Qed.

Lemma store_in_range (a : list F) (i : nat) (x : F) :
  (i < length a)%nat -> store a i x = Some (set_nth a i x).
Proof.
  intros Hi. unfold store.
  destruct (Nat.ltb_spec i (length a)); [reflexivity | lia].
Qed.
End BufferLemmas.

(** Entry [(i,j)], [i < N], sits at an index whose remainder and quotient by
    [N] are [i] and [j]. *)
Lemma index_mod (N i j : nat) : (i < N)%nat -> ((i + j * N) mod N = i)%nat.
Proof.
  intros Hi. rewrite Nat.Div0.mod_add. apply Nat.mod_small, Hi.
Qed.

Lemma index_div (N i j : nat) : (i < N)%nat -> ((i + j * N) / N = j)%nat.
Proof.
  intros Hi. rewrite Nat.div_add by lia. rewrite Nat.div_small by exact Hi. reflexivity.
Qed.

Lemma index_bound (N i j : nat) : (i < N)%nat -> (j < N)%nat -> (i + j * N < N * N)%nat.
Proof. intros Hi Hj. nia. Qed.

Lemma is_diag_index (N i j : nat) : (i < N)%nat -> is_diag N (i + j * N) = (i =? j)%nat.
Proof.
  intros Hi. unfold is_diag. now rewrite index_mod, index_div.
Qed.

(** ** The calibration kernels *)

Section KernelProperties.
Context {F : Type} {SF : Scalar F}.
Local Open Scope scalar_scope.

(** A thread whose index equals [N] passes the guard [TID > N] and then
    reads [perplexity[N]]. *)
Lemma upper_lower_assign_at_N (target_perplexity : F) (N : nat) (m : SearchArrays F) :
  length (perplexity m) = N ->
  upper_lower_assign target_perplexity N N m = None.
Proof.
  intros Hp. unfold upper_lower_assign.
  rewrite Nat.ltb_irrefl.
  rewrite load_out_of_range by lia. reflexivity.
Qed.

(** C3, amended. For a point [TID < N] of length-[N] arrays, one run of the
    [upper_lower_assign] thread faults on no access and leaves: the upper
    bound of the point at its current sigma when its perplexity is greater
    than the target, and otherwise (smaller, equal or unordered) the lower
    bound at its current sigma; the other bound, the bounds and sigmas of
    the other points and the perplexities as they were; and the point's
    sigma at (upper + lower) / 2 of the updated bounds. *)
Theorem upper_lower_assign_step (target_perplexity : F) (N TID : nat) (m : SearchArrays F) :
  (TID < N)%nat ->
  length (sigmas m) = N -> length (lower_bound m) = N ->
  length (upper_bound m) = N -> length (perplexity m) = N ->
  let ub := updated_upper target_perplexity TID m in
  let lb := updated_lower target_perplexity TID m in
  upper_lower_assign target_perplexity N TID m =
    Some {| sigmas := set_nth (sigmas m) TID ((at_ ub TID +. at_ lb TID) /. two);
            lower_bound := lb;
            upper_bound := ub;
            perplexity := perplexity m |}
  /\ (if at_ (perplexity m) TID >. target_perplexity
      then at_ ub TID = at_ (sigmas m) TID /\ lb = lower_bound m
      else at_ lb TID = at_ (sigmas m) TID /\ ub = upper_bound m)
  /\ (forall k, k <> TID ->
        at_ ub k = at_ (upper_bound m) k /\ at_ lb k = at_ (lower_bound m) k
        /\ at_ (set_nth (sigmas m) TID ((at_ ub TID +. at_ lb TID) /. two)) k
           = at_ (sigmas m) k).
Proof.
  intros Hlt Hs Hl Hu Hp ub lb. subst ub lb.
  unfold updated_upper, updated_lower, upper_lower_assign.
  destruct (Nat.ltb_spec N TID) as [Hgt|_]; [lia|].
  rewrite load_in_range by lia. cbn [bind].
  destruct (at_ (perplexity m) TID >. target_perplexity) eqn:Hcmp.
  - unfold assign_upper.
    rewrite load_in_range by lia. cbn [bind].
    rewrite store_in_range by lia. cbn [bind].
    unfold bisect. cbn [upper_bound lower_bound sigmas perplexity].
    rewrite !load_in_range by (rewrite ?length_set_nth; lia). cbn [bind].
    rewrite store_in_range by lia. cbn [bind].
    repeat split.
    + apply at_set_nth_same. lia.
    + now apply at_set_nth_other.
    + now apply at_set_nth_other.
  - unfold assign_lower.
    rewrite load_in_range by lia. cbn [bind].
    rewrite store_in_range by lia. cbn [bind].
    unfold bisect. cbn [upper_bound lower_bound sigmas perplexity].
    rewrite !load_in_range by (rewrite ?length_set_nth; lia). cbn [bind].
    rewrite store_in_range by lia. cbn [bind].
    repeat split.
    + apply at_set_nth_same. lia.
    + now apply at_set_nth_other.
    + now apply at_set_nth_other.
Qed.
End KernelProperties.

Module Calibration.
Import Binary32Spec.
Local Open Scope scalar_scope.

#[local] Existing Instance inert32.

(** C3 as stated fails when the perplexity equals the target: the spec
    moves the upper bound to sigma (and sigma to 0.5), the kernel moves the
    lower bound (and sigma to 256.5). *)
Lemma upper_lower_assign_on_target_differs :
  upper_lower_assign (lit 16 0) 1 0 on_target
    = Some {| sigmas := [S754_finite false 8404992 (-15)];
              lower_bound := [lit 1 0];
              upper_bound := [lit 512 0];
              perplexity := [lit 16 0] |}
  /\ spec_bound_update (lit 16 0) 0 on_target
    = Some {| sigmas := [lit 1 (-1)];
              lower_bound := [lit 0 0];
              upper_bound := [lit 1 0];
              perplexity := [lit 16 0] |}
  /\ upper_lower_assign (lit 16 0) 1 0 on_target
     <> spec_bound_update (lit 16 0) 0 on_target.
Proof.
  split; [|split]; try (vm_compute; reflexivity).
  vm_compute. discriminate.
Qed.

Lemma upper_lower_assign_step_witness :
  exists m',
    upper_lower_assign (lit 16 0) 1 0 on_target = Some m'
    /\ at_ (lower_bound m') 0 = lit 1 0
    /\ upper_bound m' = upper_bound on_target.
Proof.
  destruct (upper_lower_assign_step (lit 16 0) 1 0 on_target)
    as (Hrun & Hbound & _); try reflexivity; try (cbn; lia).
  eexists. split; [exact Hrun|].
  exact Hbound.
Defined.

(** The unused kernel [perplexity_search] branches the other way round: a
    perplexity below the target (here -1, from the inert libm) moves the
    upper bound. *)
Lemma perplexity_search_moves_upper_bound_below_target :
  let pij_ := [lit 0 0; lit 1 0;
               lit 1 0; lit 0 0] in
  let m := {| sigmas := repeat (lit 1 0) 2;
              lower_bound := repeat (lit 0 0) 2;
              upper_bound := repeat (lit 512 0) 2;
              perplexity := repeat (lit 0 0) 2 |} in
  option_map (fun m' => (perplexity m', upper_bound m', lower_bound m'))
             (perplexity_search pij_ (lit 16 0) 2 0 m)
  = Some ([lit (-1) 0; lit 0 0],
          [lit 1 0; lit 512 0],
          repeat (lit 0 0) 2).
Proof. vm_compute. reflexivity. Qed.

(** C9. For [N = 5] the launch has one block of 32 threads. Thread 5 is
    not stopped by the guard [TID > N] and reads [perplexity[5]] of a
    5-element array: the thread, hence the launch and the calibration
    step, faults. *)
Theorem upper_lower_assign_guard_admits_TID_N :
  (5 <? 5)%nat = false
  /\ length (perplexity five_points) = 5%nat
  /\ load (perplexity five_points) 5 = None
  /\ upper_lower_assign (lit 16 0) 5 5 five_points = None
  /\ iDivUp 5 32 = 1%nat
  /\ thrust_search_perplexity five_points
       (repeat (lit 0 0) 25) (lit 16 0) 5 = None.
Proof. vm_compute. repeat split. Qed.
End Calibration.

(** ** The NaN guard of the entropy terms *)

Module NanGuard.
Local Open Scope scalar_scope.

Lemma SFeqb_self (x : spec_float) : SFeqb x x = negb (B32.is_nan x).
Proof.
  unfold SFeqb. destruct x as [[|]|[|]| |[|] m e]; cbn; try reflexivity;
    rewrite Z.compare_refl, Pos.compare_cont_refl; reflexivity.
Qed.

(** In binary32 [val != val] holds exactly when [val] is NaN. *)
Lemma neqb_self (L : B32.Libm) (x : spec_float) :
  neqb (SF := Binary32 L) x x = B32.is_nan x.
Proof.
  unfold neqb. cbn [eqb Binary32]. rewrite SFeqb_self. apply negb_involutive.
Qed.

Lemma func_entropy_kernel_cases (L : B32.Libm) (x : spec_float) :
  func_entropy_kernel (SF := Binary32 L) x =
    if B32.is_nan (B32.mul x (B32.m_log2 L x))
    then S754_zero false
    else B32.mul x (B32.m_log2 L x).
Proof.
  unfold func_entropy_kernel. cbv zeta. rewrite neqb_self. reflexivity.
Qed.

Lemma func_entropy_kernel_not_nan (L : B32.Libm) (x : spec_float) :
  B32.is_nan (func_entropy_kernel (SF := Binary32 L) x) = false.
Proof.
  rewrite func_entropy_kernel_cases.
  destruct (B32.is_nan (B32.mul x (B32.m_log2 L x))) eqn:E; [reflexivity | exact E].
Qed.

Lemma Forall_imap {F : Type} {SF : Scalar F} (P : F -> Prop) (g : nat -> F -> F) (v : list F) :
  (forall k x, In x v -> P (g k x)) -> Forall P (imap g v).
Proof.
  intros Hg. unfold imap. apply Forall_forall. intros y Hy.
  apply in_map_iff in Hy. destruct Hy as ([k x] & <- & Hin).
  apply in_combine_r in Hin. cbn [fst snd]. now apply Hg.
Qed.

(** C7. Whatever [log2] returns, the functor [func_entropy_kernel] maps an
    argument whose product [x * log2(x)] is NaN to [+0] and any other
    argument to that product, so no entry of the buffer
    [thrust_search_perplexity] reduces to the entropies, the transformed
    [pij] with its diagonal zeroed, is NaN. *)
Theorem entropy_terms_nan_guard (L : B32.Libm) (pij_ : list spec_float) (N : nat) :
  (forall x : spec_float,
     func_entropy_kernel (SF := Binary32 L) x =
       if B32.is_nan (B32.mul x (B32.m_log2 L x))
       then S754_zero false
       else B32.mul x (B32.m_log2 L x))
  /\ Forall (fun t => B32.is_nan t = false)
            (map (func_entropy_kernel (SF := Binary32 L)) pij_)
  /\ Forall (fun t => B32.is_nan t = false)
            (entropy_terms (SF := Binary32 L) pij_ N).
Proof.
  split; [exact (func_entropy_kernel_cases L)|]. split.
  - apply Forall_forall. intros t Ht. apply in_map_iff in Ht.
    destruct Ht as (x & <- & _). apply func_entropy_kernel_not_nan.
  - unfold entropy_terms, zero_diagonal. apply (Forall_imap (SF := Binary32 L)).
    intros k t Ht. destruct (is_diag N k); [reflexivity|].
    apply in_map_iff in Ht. destruct Ht as (x & <- & _).
    apply func_entropy_kernel_not_nan.
Qed.

(** The guard at work: with a [log2] that is [-inf] at zero, the term of
    [x = 0] is [0 * -inf], a NaN, and the functor returns [+0]. *)
Example func_entropy_kernel_at_zero :
  let L := {| B32.m_exp := fun x => x; B32.m_log := fun x => x;
              B32.m_log2 := fun x => if B32.is_zero x then S754_infinity true else x;
              B32.m_pow2 := fun x => x |} in
  B32.mul (S754_zero false) (B32.m_log2 L (S754_zero false)) = S754_nan
  /\ func_entropy_kernel (SF := Binary32 L) (S754_zero false) = S754_zero false.
Proof. split; reflexivity. Qed.
End NanGuard.

(** ** The entry point [tsne] *)

Section LoopProperties.
Context {F : Type} {SF : Scalar F}.
Local Open Scope scalar_scope.

Lemma executed_gradient_update (N PROJDIM : nat) (eta : F) (i : nat) (s : LoopState F) :
  map fst (executed (gradient_update N PROJDIM eta i s)) = map fst (executed s) ++ [i].
Proof.
  unfold gradient_update.
  destruct (compute_gradients (bufs s) N PROJDIM eta) as [l b].
  cbn [executed]. rewrite map_app. reflexivity.
Qed.

(** The loop records one step per index from [i] up to [i + n], whatever
    the losses are. *)
Lemma executed_for_loop (N PROJDIM : nat) (eta : F) (n i : nat) (s : LoopState F) :
  map fst (executed (for_loop n i (gradient_update N PROJDIM eta) s))
    = map fst (executed s) ++ seq i n.
Proof.
  revert i s. induction n as [|n IH]; intros i s.
  - cbn [for_loop seq]. now rewrite app_nil_r.
  - cbn [for_loop seq]. rewrite IH, executed_gradient_update.
    rewrite <- app_assoc. reflexivity.
Qed.

(** C8. Every run of [tsne] executes the loop body for exactly the indices
    0, 1, ..., 4999, in this order: 5000 gradient-and-update steps for any
    points, sizes and random draws, whatever losses the steps return. *)
Theorem tsne_runs_5000_steps (points : list F) (N NDIMS PROJDIM : nat)
    (rand_sigmas rand_ys : list F) :
  map fst (steps (tsne points N NDIMS PROJDIM rand_sigmas rand_ys)) = seq 0 5000
  /\ length (steps (tsne points N NDIMS PROJDIM rand_sigmas rand_ys)) = 5000%nat.
Proof.
  assert (Hsteps : map fst (steps (tsne points N NDIMS PROJDIM rand_sigmas rand_ys))
                   = seq 0 5000).
  { unfold tsne. cbv zeta. cbn [steps].
    rewrite executed_for_loop. reflexivity. }
  split; [exact Hsteps|].
  rewrite <- (length_map fst), Hsteps. apply length_seq.
Qed.

Lemma points_after_tsne (points : list F) (N NDIMS PROJDIM : nat)
    (rand_sigmas rand_ys : list F) :
  points_after (tsne points N NDIMS PROJDIM rand_sigmas rand_ys) = max_norm points.
Proof. reflexivity. Qed.

(** C2, amended. When [tsne] returns, the caller's points buffer holds the
    max-norm rescaling of what it held on entry: every entry divided by the
    largest absolute value of the buffer. *)
Theorem tsne_rescales_points (points : list F) (N NDIMS PROJDIM : nat)
    (rand_sigmas rand_ys : list F) :
  points_after (tsne points N NDIMS PROJDIM rand_sigmas rand_ys) = max_norm points
  /\ max_norm points = map (fun x => x /. max_abs points) points.
Proof. split; reflexivity. Qed.
End LoopProperties.

Module EntryPoint.
Local Open Scope scalar_scope.

#[local] Existing Instance inert32.

(** C2 as stated fails: one point with the single coordinate 2.0 is 1.0
    when [tsne] returns. *)
Lemma tsne_overwrites_points :
  points_after (tsne [lit 2 0] 1 1 1 [lit 1 (-2)] [lit 1 (-1)]) = [lit 1 0]
  /\ points_after (tsne [lit 2 0] 1 1 1 [lit 1 (-2)] [lit 1 (-1)]) <> [lit 2 0].
Proof.
  rewrite points_after_tsne.
  split; [vm_compute; reflexivity | vm_compute; discriminate].
Qed.
End EntryPoint.

(** ** The gradient computation: what the buffers hold afterwards *)

Section GradientBuffers.
Context {F : Type} {SF : Scalar F}.
Local Open Scope scalar_scope.

Lemma at_ext (a b : list F) :
  length a = length b ->
  (forall k, (k < length a)%nat -> at_ a k = at_ b k) ->
  a = b.
Proof. intros Hl Hk. apply (nth_ext a b zero zero Hl). exact Hk. Qed.

Lemma length_squared_pairwise_dist (v : list F) (N D : nat) :
  length (squared_pairwise_dist v N D) = (N * N)%nat.
Proof. apply length_tabulate. Qed.

Lemma length_student_kernel (dist_ ys_ : list F) (N PROJDIM : nat) :
  length dist_ = (N * N)%nat ->
  length (student_kernel dist_ ys_ N PROJDIM) = (N * N)%nat.
Proof.
  intros Hd. unfold student_kernel. cbv zeta.
  rewrite length_zero_diagonal, length_map, store_range_full;
    now rewrite length_squared_pairwise_dist.
Qed.

(** After line 212 the [dist] buffer is the kernel matrix. *)
Lemma student_kernel_is_kernel_matrix (dist_ ys_ : list F) (N PROJDIM : nat) :
  length dist_ = (N * N)%nat ->
  student_kernel dist_ ys_ N PROJDIM = kernel_matrix ys_ N PROJDIM.
Proof.
  intros Hd. apply at_ext.
  - rewrite length_student_kernel by exact Hd.
    unfold kernel_matrix. now rewrite length_tabulate.
  - intros k Hk. rewrite length_student_kernel in Hk by exact Hd.
    unfold student_kernel, kernel_matrix. cbv zeta.
    rewrite store_range_full by now rewrite length_squared_pairwise_dist.
    unfold zero_diagonal.
    rewrite at_imap by now rewrite length_map, length_squared_pairwise_dist.
    rewrite at_tabulate by exact Hk.
    destruct (is_diag N k); [reflexivity|].
    rewrite at_map by now rewrite length_squared_pairwise_dist.
    reflexivity.
Qed.

(** After line 219 the [qij] buffer is the affinity matrix. *)
Lemma normalised_qij_is_affinity_matrix (dist_ qij_ ys_ : list F) (N PROJDIM : nat) :
  length dist_ = (N * N)%nat -> length qij_ = (N * N)%nat ->
  normalised_qij (student_kernel dist_ ys_ N PROJDIM) qij_
    = affinity_matrix ys_ N PROJDIM.
Proof.
  intros Hd Hq. rewrite student_kernel_is_kernel_matrix by exact Hd.
  unfold normalised_qij, affinity_matrix. cbv zeta.
  assert (HK : length (kernel_matrix ys_ N PROJDIM) = (N * N)%nat)
    by apply length_tabulate.
  rewrite store_range_full by now rewrite length_map, HK.
  apply at_ext.
  - now rewrite length_map, length_tabulate.
  - intros k Hk. rewrite length_map, HK in Hk.
    rewrite at_map by now rewrite HK.
    now rewrite at_tabulate.
Qed.

Lemma length_affinity_matrix (ys_ : list F) (N PROJDIM : nat) :
  length (affinity_matrix ys_ N PROJDIM) = (N * N)%nat.
Proof. apply length_tabulate. Qed.

Lemma length_kernel_matrix (ys_ : list F) (N PROJDIM : nat) :
  length (kernel_matrix ys_ N PROJDIM) = (N * N)%nat.
Proof. apply length_tabulate. Qed.

(** The buffers [compute_gradients] leaves, apart from [forces]. *)
Lemma compute_gradients_buffers (b : GradBuffers F) (N PROJDIM : nat) (eta : F) :
  length (dist b) = (N * N)%nat ->
  length (qij b) = (N * N)%nat ->
  length (pij b) = (N * N)%nat ->
  dist (snd (compute_gradients b N PROJDIM eta)) = kernel_matrix (ys b) N PROJDIM
  /\ qij (snd (compute_gradients b N PROJDIM eta))
     = gradient_coefficient (ys b) (pij b) N PROJDIM
  /\ ys (snd (compute_gradients b N PROJDIM eta)) = ys b
  /\ pij (snd (compute_gradients b N PROJDIM eta)) = pij b.
Proof.
  intros Hd Hq Hp. unfold compute_gradients. cbv zeta.
  cbn [snd dist qij ys pij].
  rewrite normalised_qij_is_affinity_matrix by assumption.
  rewrite student_kernel_is_kernel_matrix by assumption.
  repeat split.
  set (Q := affinity_matrix (ys b) N PROJDIM).
  set (K := kernel_matrix (ys b) N PROJDIM).
  assert (HQ : length Q = (N * N)%nat) by apply length_affinity_matrix.
  assert (HK : length K = (N * N)%nat) by apply length_kernel_matrix.
  assert (H1 : store_range (zip_with sub (pij b) Q) Q = zip_with sub (pij b) Q).
  { apply store_range_full. rewrite length_zip_with, Hp, HQ. apply Nat.min_id. }
  rewrite H1.
  assert (H2 : length (zip_with sub (pij b) Q) = (N * N)%nat).
  { rewrite length_zip_with, Hp, HQ. apply Nat.min_id. }
  rewrite store_range_full
    by (rewrite length_zip_with, H2, HK; apply Nat.min_id).
  apply at_ext.
  - rewrite length_zip_with, H2, HK, Nat.min_id.
    unfold gradient_coefficient. now rewrite length_tabulate.
  - intros k Hk. rewrite length_zip_with, H2, HK, Nat.min_id in Hk.
    rewrite at_zip_with by (rewrite ?H2, ?HK; exact Hk).
    rewrite at_zip_with by (rewrite ?Hp, ?HQ; exact Hk).
    unfold gradient_coefficient. cbv zeta. now rewrite at_tabulate.
Qed.

(** C10. With the [N*N]-entry buffers [tsne] allocates, the call of
    [compute_gradients] returns with the gradient coefficient matrix
    [(Pij - Qij) (.) kernel] in its [qij] buffer, in place of the
    normalised affinities [Qij] written there at line 219, and with the
    Student-t kernel values, 0 on the diagonal and [1/(d+1)] elsewhere, in
    its [dist] buffer, in place of the squared distances [d]. *)
Theorem compute_gradients_overwrites_qij_and_dist
    (b : GradBuffers F) (N PROJDIM : nat) (eta : F) :
  length (dist b) = (N * N)%nat ->
  length (qij b) = (N * N)%nat ->
  length (pij b) = (N * N)%nat ->
  let b' := snd (compute_gradients b N PROJDIM eta) in
  let d := squared_pairwise_dist (ys b) N PROJDIM in
  let K := kernel_matrix (ys b) N PROJDIM in
  let Q := affinity_matrix (ys b) N PROJDIM in
  dist b' = K
  /\ qij b' = gradient_coefficient (ys b) (pij b) N PROJDIM
  /\ forall i j, (i < N)%nat -> (j < N)%nat ->
       entry N K i j = (if (i =? j)%nat then zero else one /. (entry N d i j +. one))
       /\ entry N Q i j = entry N K i j /. reduce K zero
       /\ entry N (dist b') i j = entry N K i j
       /\ entry N (qij b') i j
          = (entry N (pij b) i j -. entry N Q i j) *. entry N K i j.
Proof.
  intros Hd Hq Hp b' d K Q.
  destruct (compute_gradients_buffers b N PROJDIM eta Hd Hq Hp) as (HK & HC & _).
  split; [exact HK|]. split; [exact HC|].
  intros i j Hi Hj. subst b'. rewrite HK, HC.
  pose proof (index_bound N i j Hi Hj) as Hb.
  unfold entry, gradient_coefficient. cbv zeta.
  rewrite at_tabulate by exact Hb. fold Q. fold K.
  repeat split.
  - unfold K, kernel_matrix. rewrite at_tabulate by exact Hb.
    now rewrite is_diag_index.
  - unfold Q, affinity_matrix. cbv zeta. now rewrite at_tabulate.
Qed.
End GradientBuffers.

(** ** The two matrix products of the force *)

Section ForceProducts.
Context {F : Type} {SF : Scalar F}.
Local Open Scope scalar_scope.

Lemma at_repeat (x : F) (n k : nat) : (k < n)%nat -> at_ (repeat x n) k = x.
Proof.
  unfold at_. revert k. induction n as [|n IH]; intros [|k] Hk; cbn; try lia.
  - reflexivity.
  - apply IH. lia.
Qed.

Lemma length_gemm (m n k : nat) (alpha beta : F) (A B C : list F) :
  length C = (m * n)%nat -> length (gemm m n k alpha A B beta C) = (m * n)%nat.
Proof.
  intros HC. unfold gemm.
  rewrite store_range_full; now rewrite length_tabulate.
Qed.

Lemma gemm_entry (m n k : nat) (alpha beta : F) (A B C : list F) (idx : nat) :
  length C = (m * n)%nat -> (idx < m * n)%nat ->
  at_ (gemm m n k alpha A B beta C) idx =
    let i := (idx mod m)%nat in
    let j := (idx / m)%nat in
    let dot := sum_upto k (fun l => at_ A (i + l * m) *. at_ B (l + j * k)) in
    if beta ==. zero then alpha *. dot
    else alpha *. dot +. beta *. at_ C (i + j * m).
Proof.
  intros HC Hidx. unfold gemm.
  rewrite store_range_full by now rewrite length_tabulate.
  now rewrite at_tabulate.
Qed.

(** Lines 251-269, with the [qij] buffer as the call leaves it. *)
Lemma compute_gradients_forces (b : GradBuffers F) (N PROJDIM : nat) (eta : F) :
  forces (snd (compute_gradients b N PROJDIM eta)) =
    let C := qij (snd (compute_gradients b N PROJDIM eta)) in
    let G := gemm N PROJDIM N one C (repeat one (PROJDIM * N)) zero (forces b) in
    gemm N PROJDIM N (four *. eta) C (ys b) (lit (-4) 0 *. eta)
         (store_range (zip_with mul G (ys b)) G).
Proof. reflexivity. Qed.
End ForceProducts.

(** ** Entries of the affinity matrices *)

Section AffinityEntries.
Context {F : Type} {SF : Scalar F}.
Local Open Scope scalar_scope.

Lemma sum_upto_ext (n : nat) (f g : nat -> F) :
  (forall k, (k < n)%nat -> f k = g k) -> sum_upto n f = sum_upto n g.
Proof.
  intros Hfg. unfold sum_upto.
  assert (Hin : forall k, In k (seq 0 n) -> f k = g k)
    by (intros k Hk; apply in_seq in Hk; apply Hfg; lia).
  clear Hfg. revert Hin. generalize zero. generalize (seq 0 n).
  induction l as [|k l IH]; intros acc Hin; cbn [fold_left]; [reflexivity|].
  rewrite (Hin k) by now left.
  apply IH. intros k' Hk'. apply Hin. now right.
Qed.

Lemma entry_squared_pairwise_dist (v : list F) (N D i j : nat) :
  (i < N)%nat -> (j < N)%nat ->
  entry N (squared_pairwise_dist v N D) i j
  = sum_upto D (fun d =>
      (entry N v i d -. entry N v j d) *. (entry N v i d -. entry N v j d)).
Proof.
  intros Hi Hj. unfold entry at 1, squared_pairwise_dist.
  rewrite at_tabulate by now apply index_bound.
  cbv zeta. now rewrite index_mod, index_div.
Qed.

Lemma entry_kernel_matrix (ys_ : list F) (N PROJDIM i j : nat) :
  (i < N)%nat -> (j < N)%nat ->
  entry N (kernel_matrix ys_ N PROJDIM) i j
  = if (i =? j)%nat then zero
    else one /. (entry N (squared_pairwise_dist ys_ N PROJDIM) i j +. one).
Proof.
  intros Hi Hj. unfold entry at 1, kernel_matrix.
  rewrite at_tabulate by now apply index_bound.
  now rewrite is_diag_index.
Qed.

Lemma entry_affinity_matrix (ys_ : list F) (N PROJDIM i j : nat) :
  (i < N)%nat -> (j < N)%nat ->
  entry N (affinity_matrix ys_ N PROJDIM) i j
  = entry N (kernel_matrix ys_ N PROJDIM) i j
    /. reduce (kernel_matrix ys_ N PROJDIM) zero.
Proof.
  intros Hi Hj. unfold entry at 1, affinity_matrix. cbv zeta.
  now rewrite at_tabulate by now apply index_bound.
Qed.

Lemma length_kernel_pij (points sigma : list F) (N NDIMS : nat) :
  length (kernel_pij points sigma N NDIMS) = (N * N)%nat.
Proof.
  unfold kernel_pij, broadcast_matrix_vector. cbv zeta.
  now rewrite length_zero_diagonal, length_map, length_imap,
    length_squared_pairwise_dist.
Qed.

Lemma kernel_pij_diagonal (points sigma : list F) (N NDIMS i : nat) :
  (i < N)%nat -> entry N (kernel_pij points sigma N NDIMS) i i = zero.
Proof.
  intros Hi. unfold entry, kernel_pij, zero_diagonal. cbv zeta.
  rewrite at_imap.
  - now rewrite is_diag_index, Nat.eqb_refl.
  - rewrite length_map. unfold broadcast_matrix_vector.
    rewrite length_imap, length_squared_pairwise_dist. now apply index_bound.
Qed.

Lemma conditional_pij_entry (points sigma : list F) (N NDIMS i j : nat) :
  (i < N)%nat -> (j < N)%nat ->
  entry N (conditional_pij points sigma N NDIMS) i j
  = entry N (kernel_pij points sigma N NDIMS) i j
    /. (one *. sum_upto N (fun j' => entry N (kernel_pij points sigma N NDIMS) i j')).
Proof.
  intros Hi Hj. pose proof (index_bound N i j Hi Hj) as Hb.
  unfold entry at 1. unfold conditional_pij, broadcast_matrix_vector. cbv zeta.
  rewrite at_imap by now rewrite length_kernel_pij.
  rewrite index_mod by exact Hi.
  unfold reduce_sum. now rewrite at_tabulate by exact Hi.
Qed.

Lemma length_compute_pij (points sigma : list F) (N NDIMS : nat) :
  length (compute_pij points sigma N NDIMS) = (N * N)%nat.
Proof. unfold compute_pij, geam_nt. cbv zeta. apply length_tabulate. Qed.

(** Line 176: entry (i,j) of the result is half of entry (i,j) plus half of
    entry (j,i) of the conditional probabilities. *)
Lemma compute_pij_entry (points sigma : list F) (N NDIMS i j : nat) :
  (i < N)%nat -> (j < N)%nat ->
  entry N (compute_pij points sigma N NDIMS) i j
  = half *. entry N (conditional_pij points sigma N NDIMS) i j
    +. half *. entry N (conditional_pij points sigma N NDIMS) j i.
Proof.
  intros Hi Hj. unfold entry at 1, compute_pij, geam_nt. cbv zeta.
  rewrite at_tabulate by now apply index_bound.
  now rewrite index_mod, index_div.
Qed.
End AffinityEntries.

(** ** The gradient computation in exact arithmetic *)

Module ExactArithmetic.
Import ExactSpec.
#[local] Existing Instance Exact.
Local Open Scope R_scope.

(** *** Sums of reals *)

Lemma Rsum_app (l1 l2 : list R) : Rsum (l1 ++ l2) = Rsum l1 + Rsum l2.
Proof. induction l1 as [|x l1 IH]; cbn; [lra | rewrite IH; lra]. Qed.

Lemma fold_left_Rplus (l : list R) (a : R) : fold_left Rplus l a = a + Rsum l.
Proof.
  revert a. induction l as [|x l IH]; intros a; cbn; [lra | rewrite IH; lra].
Qed.

Lemma fold_left_Rplus_map {A : Type} (f : A -> R) (l : list A) (a : R) :
  fold_left (fun acc k => acc + f k) l a = a + Rsum (map f l).
Proof.
  revert a. induction l as [|x l IH]; intros a; cbn; [lra | rewrite IH; lra].
Qed.

Lemma Rsum_map_ext {A : Type} (f g : A -> R) (l : list A) :
  (forall x, In x l -> f x = g x) -> Rsum (map f l) = Rsum (map g l).
Proof.
  intros Hfg. induction l as [|x l IH]; cbn; [reflexivity|].
  rewrite Hfg by now left. rewrite IH; [reflexivity|].
  intros y Hy. apply Hfg. now right.
Qed.

Lemma Rsum_upto_ext (n : nat) (f g : nat -> R) :
  (forall k, (k < n)%nat -> f k = g k) -> Rsum_upto n f = Rsum_upto n g.
Proof.
  intros Hfg. apply Rsum_map_ext. intros k Hk. apply in_seq in Hk.
  apply Hfg. lia.
Qed.

Lemma Rsum_upto_S (n : nat) (f : nat -> R) :
  Rsum_upto (S n) f = Rsum_upto n f + f n.
Proof.
  unfold Rsum_upto. rewrite seq_S, map_app, Rsum_app. cbn. lra.
Qed.

Lemma Rsum_map_plus {A : Type} (f g : A -> R) (l : list A) :
  Rsum (map (fun x => f x + g x) l) = Rsum (map f l) + Rsum (map g l).
Proof. induction l as [|x l IH]; cbn; [lra | rewrite IH; lra]. Qed.

Lemma Rsum_map_zero {A : Type} (l : list A) : Rsum (map (fun _ => 0) l) = 0.
Proof. induction l as [|x l IH]; cbn; [reflexivity | rewrite IH; lra]. Qed.

Lemma Rsum_map_scale {A : Type} (c : R) (f : A -> R) (l : list A) :
  Rsum (map (fun x => f x * c) l) = Rsum (map f l) * c.
Proof. induction l as [|x l IH]; cbn; [lra | rewrite IH; lra]. Qed.

(** The two orders of a double sum. *)
Lemma Rsum_swap {A B : Type} (f : A -> B -> R) (la : list A) (lb : list B) :
  Rsum (map (fun a => Rsum (map (fun b => f a b) lb)) la)
  = Rsum (map (fun b => Rsum (map (fun a => f a b) la)) lb).
Proof.
  induction la as [|a la IH]; cbn.
  - now rewrite Rsum_map_zero.
  - rewrite IH. now rewrite <- Rsum_map_plus.
Qed.

Lemma seq_offset (n a s : nat) :
  seq (s + a) n = map (fun i => (i + a)%nat) (seq s n).
Proof.
  revert s. induction n as [|n IH]; intros s; cbn; [reflexivity|].
  f_equal. apply (IH (S s)).
Qed.

(** A sum over the indices of an N x M buffer, column-major, is the sum
    over [j] of the sums over [i] of the entries [i + j*N]. *)
Lemma Rsum_upto_flat (N M : nat) (g : nat -> R) :
  Rsum_upto (N * M) g
  = Rsum_upto M (fun j => Rsum_upto N (fun i => g (i + j * N)%nat)).
Proof.
  induction M as [|M IH].
  - rewrite Nat.mul_0_r. reflexivity.
  - rewrite Rsum_upto_S, <- IH.
    replace (N * S M)%nat with (N * M + N)%nat by lia.
    unfold Rsum_upto. rewrite seq_app, map_app, Rsum_app. f_equal.
    cbn [Nat.add].
    replace (seq (N * M) N) with (map (fun i => (i + N * M)%nat) (seq 0 N))
      by (symmetry; apply (seq_offset N (N * M) 0)).
    rewrite map_map.
    apply Rsum_map_ext. intros i _. f_equal. lia.
Qed.

(** *** The literals and the reductions of the source, in the reals *)

Lemma zero_exact : zero = 0.
Proof. unfold zero. cbn. lra. Qed.

Lemma one_exact : one = 1.
Proof. unfold one. cbn. lra. Qed.

Lemma four_exact : four = 4.
Proof. unfold four. cbn. lra. Qed.

Lemma minus_four_exact : lit (-4) 0 = -4.
Proof. cbn. lra. Qed.

Lemma eqb_exact_refl (x : R) : eqb x x = true.
Proof. cbn. destruct (Req_dec_T x x); [reflexivity | contradiction]. Qed.

Lemma reduce_exact (v : list R) : reduce v zero = Rsum v.
Proof.
  unfold reduce. cbn [add Exact]. rewrite fold_left_Rplus, zero_exact. lra.
Qed.

Lemma sum_upto_exact (n : nat) (f : nat -> R) : sum_upto n f = Rsum_upto n f.
Proof.
  unfold sum_upto, Rsum_upto. cbn [add Exact].
  rewrite fold_left_Rplus_map, zero_exact. lra.
Qed.

(** *** The forces *)

Lemma index_decompose (N idx : nat) : (idx mod N + idx / N * N = idx)%nat.
Proof. rewrite (Nat.div_mod_eq idx N) at 3. lia. Qed.

Lemma gemm_forces_exact (C Y G0 : list R) (N PROJDIM : nat) (eta : R) :
  length Y = (N * PROJDIM)%nat -> length G0 = (N * PROJDIM)%nat ->
  let G := gemm N PROJDIM N one C (repeat one (PROJDIM * N)) zero G0 in
  gemm N PROJDIM N (four *. eta)%sc C Y (lit (-4) 0 *. eta)%sc
       (store_range (zip_with mul G Y) G)
  = descent_forces C Y N PROJDIM eta.
Proof.
  intros HY HG0 G.
  assert (HG : length G = (N * PROJDIM)%nat) by now apply length_gemm.
  assert (HGY : length (store_range (zip_with mul G Y) G) = (N * PROJDIM)%nat).
  { rewrite store_range_full; rewrite length_zip_with, HG, HY; now rewrite Nat.min_id. }
  apply at_ext.
  - rewrite length_gemm by exact HGY. unfold descent_forces.
    now rewrite length_tabulate.
  - intros idx Hidx. rewrite length_gemm in Hidx by exact HGY.
    rewrite gemm_entry by assumption. cbv zeta.
    unfold descent_forces. rewrite at_tabulate by exact Hidx. cbv zeta.
    set (i := (idx mod N)%nat). set (j := (idx / N)%nat).
    assert (HN : (0 < N)%nat) by (destruct N; [cbn in Hidx; lia | lia]).
    assert (Hi : (i < N)%nat) by (apply Nat.mod_upper_bound; lia).
    assert (Hij : (i + j * N = idx)%nat) by apply index_decompose.
    assert (Hj : (j < PROJDIM)%nat) by (apply Nat.Div0.div_lt_upper_bound; lia).
    rewrite Hij.
    rewrite store_range_full
      by (rewrite length_zip_with, HG, HY; now rewrite Nat.min_id).
    rewrite at_zip_with by (rewrite ?HG, ?HY; exact Hidx).
    unfold G at 1. rewrite gemm_entry by assumption. cbv zeta.
    fold i. fold j.
    rewrite eqb_exact_refl.
    rewrite !sum_upto_exact.
    cbn [mul add sub Exact].
    rewrite four_exact, minus_four_exact, one_exact.
    assert (Hrows : Rsum_upto N (fun l => at_ C (i + l * N) * at_ (repeat 1 (PROJDIM * N)) (l + j * N))
                    = Rsum_upto N (fun k => entry N C i k)).
    { apply Rsum_upto_ext. intros l Hl.
      rewrite at_repeat by nia. unfold entry. lra. }
    rewrite Hrows.
    assert (HYij : entry N Y i j = at_ Y idx) by (unfold entry; now rewrite Hij).
    rewrite HYij.
    change (Rsum_upto N (fun l => at_ C (i + l * N) * at_ Y (l + j * N)))
      with (Rsum_upto N (fun k => entry N C i k * entry N Y k j)).
    cbn [eqb Exact].
    destruct (Req_dec_T (-4 * eta) zero) as [Heq|Hne]; [|lra].
    rewrite zero_exact in Heq.
    assert (Heta : eta = 0) by lra.
    rewrite Heta. lra.
Qed.

Lemma forces_are_descent_forces (b : GradBuffers R) (N PROJDIM : nat) (eta : R) :
  length (dist b) = (N * N)%nat ->
  length (qij b) = (N * N)%nat ->
  length (pij b) = (N * N)%nat ->
  length (ys b) = (N * PROJDIM)%nat ->
  length (forces b) = (N * PROJDIM)%nat ->
  forces (snd (compute_gradients b N PROJDIM eta))
  = descent_forces (gradient_coefficient (ys b) (pij b) N PROJDIM) (ys b) N PROJDIM eta.
Proof.
  intros Hd Hq Hp Hy Hf.
  rewrite compute_gradients_forces. cbv zeta.
  destruct (compute_gradients_buffers b N PROJDIM eta Hd Hq Hp) as (_ & HC & _).
  rewrite HC. now apply gemm_forces_exact.
Qed.

(** C1, amended. In exact arithmetic and with the buffer sizes of [tsne],
    the force matrix [compute_gradients] leaves is
    [4 eta (C Y - Y (.) (C 1))] for the gradient coefficient matrix
    [C = (Pij - Qij) (.) kernel]: entry (i,j) is [4 eta] times the sum of
    [C(i,k) Y(k,j)] over [k], minus [Y(i,j)] times the sum of [C(i,k)]
    over [k]. This is the negative of the spec's formula. *)
Theorem compute_gradients_forces_exact (b : GradBuffers R) (N PROJDIM : nat) (eta : R) :
  length (dist b) = (N * N)%nat ->
  length (qij b) = (N * N)%nat ->
  length (pij b) = (N * N)%nat ->
  length (ys b) = (N * PROJDIM)%nat ->
  length (forces b) = (N * PROJDIM)%nat ->
  let C := gradient_coefficient (ys b) (pij b) N PROJDIM in
  let Y := ys b in
  let forces' := forces (snd (compute_gradients b N PROJDIM eta)) in
  forces' = descent_forces C Y N PROJDIM eta
  /\ forall i j, (i < N)%nat -> (j < PROJDIM)%nat ->
       entry N forces' i j
       = 4 * eta * (Rsum_upto N (fun k => entry N C i k * entry N Y k j)
                    - entry N Y i j * Rsum_upto N (fun k => entry N C i k))
       /\ entry N forces' i j = - entry N (spec_forces C Y N PROJDIM eta) i j.
Proof.
  intros Hd Hq Hp Hy Hf C Y forces'.
  assert (Hforces : forces' = descent_forces C Y N PROJDIM eta)
    by now apply forces_are_descent_forces.
  split; [exact Hforces|].
  intros i j Hi Hj. rewrite Hforces.
  assert (Hb : (i + j * N < N * PROJDIM)%nat) by nia.
  assert (Hdescent : entry N (descent_forces C Y N PROJDIM eta) i j
            = 4 * eta * (Rsum_upto N (fun k => entry N C i k * entry N Y k j)
                         - entry N Y i j * Rsum_upto N (fun k => entry N C i k))).
  { unfold entry at 1, descent_forces. rewrite at_tabulate by exact Hb.
    cbv zeta. now rewrite index_mod, index_div by exact Hi. }
  assert (Hspec : entry N (spec_forces C Y N PROJDIM eta) i j
            = 4 * eta * (entry N Y i j * Rsum_upto N (fun k => entry N C i k)
                         - Rsum_upto N (fun k => entry N C i k * entry N Y k j))).
  { unfold entry at 1, spec_forces. rewrite at_tabulate by exact Hb.
    cbv zeta. now rewrite index_mod, index_div by exact Hi. }
  rewrite Hdescent, Hspec. split; [reflexivity | lra].
Qed.

Lemma gradient_coefficient_two_points :
  gradient_coefficient (ys two_points) (pij two_points) 2 1 = [0; / 4; / 4; 0].
Proof.
  unfold gradient_coefficient, affinity_matrix, kernel_matrix, squared_pairwise_dist.
  cbv zeta. unfold tabulate, reduce, sum_upto, entry, at_.
  cbn -[Rplus Rmult Rminus Rdiv Rinv IZR].
  repeat (f_equal; try (field; lra)).
Qed.

(** C1 as stated fails: for the two points the source's forces are
    [(1, -1)], the spec's formula gives [(-1, 1)]. *)
Lemma forces_two_points_opposite_to_spec :
  forces (snd (compute_gradients two_points 2 1 1)) = [1; -1]
  /\ spec_forces (gradient_coefficient (ys two_points) (pij two_points) 2 1)
                 (ys two_points) 2 1 1 = [-1; 1]
  /\ forces (snd (compute_gradients two_points 2 1 1))
     <> spec_forces (gradient_coefficient (ys two_points) (pij two_points) 2 1)
                    (ys two_points) 2 1 1.
Proof.
  assert (H1 : forces (snd (compute_gradients two_points 2 1 1)) = [1; -1]).
  { rewrite forces_are_descent_forces by reflexivity.
    rewrite gradient_coefficient_two_points.
    unfold descent_forces, tabulate, Rsum_upto, entry, at_.
    cbn -[Rplus Rmult Rminus Rdiv Rinv IZR].
    repeat (f_equal; try lra). }
  assert (H2 : spec_forces (gradient_coefficient (ys two_points) (pij two_points) 2 1)
                           (ys two_points) 2 1 1 = [-1; 1]).
  { rewrite gradient_coefficient_two_points.
    unfold spec_forces, tabulate, Rsum_upto, entry, at_.
    cbn -[Rplus Rmult Rminus Rdiv Rinv IZR].
    repeat (f_equal; try lra). }
  split; [exact H1|]. split; [exact H2|].
  rewrite H1, H2. intros Heq. injection Heq as Heq _. lra.
Qed.

Lemma compute_gradients_forces_exact_witness :
  forces (snd (compute_gradients two_points 2 1 1))
  = descent_forces (gradient_coefficient (ys two_points) (pij two_points) 2 1)
                   (ys two_points) 2 1 1.
Proof.
  exact (proj1 (compute_gradients_forces_exact two_points 2 1 1
                  eq_refl eq_refl eq_refl eq_refl eq_refl)).
Defined.

(** *** The loss *)

Lemma func_kl_exact (p q : R) : func_kl p q = kl_term p q.
Proof.
  unfold func_kl, kl_term. cbn [eqb mul sub logf Exact].
  rewrite zero_exact. destruct (Req_dec_T p 0); reflexivity.
Qed.

Lemma Rsum_filter {A : Type} (keep : A -> bool) (h : A -> R) (l : list A) :
  Rsum (map h (filter keep l)) = Rsum (map (fun x => if keep x then h x else 0) l).
Proof.
  induction l as [|x l IH]; cbn; [reflexivity|].
  destruct (keep x); cbn; rewrite IH; lra.
Qed.

Lemma Rsum_list_prod {A B : Type} (h : A * B -> R) (la : list A) (lb : list B) :
  Rsum (map h (list_prod la lb))
  = Rsum (map (fun a => Rsum (map (fun b => h (a, b)) lb)) la).
Proof.
  induction la as [|a la IH]; cbn; [reflexivity|].
  rewrite map_app, Rsum_app, IH, map_map. reflexivity.
Qed.

(** The sum over the off-diagonal pairs is the sum over the whole
    column-major buffer of the terms with zeros on the diagonal. *)
Lemma Rsum_offdiag_flat (N : nat) (t : nat -> nat -> R) :
  Rsum (map (fun ij => t (fst ij) (snd ij)) (offdiag_pairs N))
  = Rsum_upto (N * N) (fun k =>
      if is_diag N k then 0 else t (k mod N)%nat (k / N)%nat).
Proof.
  unfold offdiag_pairs.
  rewrite Rsum_filter, Rsum_list_prod. cbn [fst snd].
  rewrite (Rsum_swap (fun a b => if negb (a =? b)%nat then t a b else 0)).
  rewrite Rsum_upto_flat. unfold Rsum_upto.
  apply Rsum_map_ext. intros j _.
  apply Rsum_map_ext. intros i Hi. apply in_seq in Hi.
  rewrite is_diag_index, index_mod, index_div by lia.
  destruct (i =? j)%nat; reflexivity.
Qed.

Lemma loss_buffer_exact (P Q : list R) (N : nat) :
  length P = (N * N)%nat -> length Q = (N * N)%nat ->
  zero_diagonal (store_range (zip_with func_kl P Q) (repeat zero (N * N))) N
  = tabulate (N * N) (fun k =>
      if is_diag N k then 0
      else kl_term (entry N P (k mod N) (k / N)) (entry N Q (k mod N) (k / N))).
Proof.
  intros HP HQ.
  assert (Hz : length (zip_with func_kl P Q) = (N * N)%nat)
    by (rewrite length_zip_with, HP, HQ; apply Nat.min_id).
  rewrite store_range_full by now rewrite repeat_length.
  apply at_ext.
  - now rewrite length_zero_diagonal, length_tabulate.
  - intros k Hk. rewrite length_zero_diagonal, Hz in Hk.
    unfold zero_diagonal. rewrite at_imap by now rewrite Hz.
    rewrite at_tabulate by exact Hk.
    destruct (is_diag N k); [apply zero_exact|].
    rewrite at_zip_with by (rewrite ?HP, ?HQ; exact Hk).
    rewrite func_kl_exact. unfold entry.
    now rewrite index_decompose.
Qed.

Lemma loss_is_kl_loss (b : GradBuffers R) (N PROJDIM : nat) (eta : R) :
  length (dist b) = (N * N)%nat ->
  length (qij b) = (N * N)%nat ->
  length (pij b) = (N * N)%nat ->
  fst (compute_gradients b N PROJDIM eta)
  = kl_loss N (pij b) (affinity_matrix (ys b) N PROJDIM).
Proof.
  intros Hd Hq Hp.
  unfold compute_gradients. cbv zeta. cbn [fst].
  rewrite normalised_qij_is_affinity_matrix by assumption.
  rewrite loss_buffer_exact
    by (try exact Hp; apply length_affinity_matrix).
  rewrite reduce_exact. unfold kl_loss.
  rewrite (Rsum_offdiag_flat N
             (fun i j => kl_term (entry N (pij b) i j)
                                 (entry N (affinity_matrix (ys b) N PROJDIM) i j))).
  reflexivity.
Qed.

(** The loss of the two points: [2 ln 2]. *)
Example loss_two_points : fst (compute_gradients two_points 2 1 1) = 2 * ln 2.
Proof.
  rewrite loss_is_kl_loss by reflexivity.
  unfold kl_loss, offdiag_pairs, affinity_matrix, kernel_matrix,
    squared_pairwise_dist, kl_term.
  cbv zeta. unfold tabulate, reduce, sum_upto, entry, at_.
  cbn -[Rplus Rmult Rminus Rdiv Rinv IZR ln Req_dec_T].
  destruct (Req_dec_T 1 0) as [H10|_]; [lra|].
  repeat match goal with
         | |- context [ln (?x / ?y)] =>
             replace (x / y) with (/ 2) by (field; lra)
         end.
  rewrite ln_1, ln_Rinv by lra. lra.
Qed.

(** *** The conditional probabilities *)

Lemma Rsum_upto_nonneg (n : nat) (f : nat -> R) :
  (forall k, (k < n)%nat -> 0 <= f k) -> 0 <= Rsum_upto n f.
Proof.
  induction n as [|n IH]; intros Hf.
  - unfold Rsum_upto. cbn. lra.
  - rewrite Rsum_upto_S.
    assert (0 <= Rsum_upto n f) by (apply IH; intros k Hk; apply Hf; lia).
    assert (0 <= f n) by (apply Hf; lia). lra.
Qed.

Lemma Rsum_upto_pos (n : nat) (f : nat -> R) (k0 : nat) :
  (forall k, (k < n)%nat -> 0 <= f k) -> (k0 < n)%nat -> 0 < f k0 ->
  0 < Rsum_upto n f.
Proof.
  induction n as [|n IH]; intros Hf Hk0 Hpos; [lia|].
  rewrite Rsum_upto_S.
  assert (Hn : 0 <= Rsum_upto n f)
    by (apply Rsum_upto_nonneg; intros k Hk; apply Hf; lia).
  assert (Hfn : 0 <= f n) by (apply Hf; lia).
  destruct (Nat.eq_dec k0 n) as [->|Hne]; [lra|].
  assert (0 < Rsum_upto n f); [|lra].
  apply IH; [intros k Hk; apply Hf; lia | lia | exact Hpos].
Qed.

Lemma Rsum_upto_scale (n : nat) (f : nat -> R) (c : R) :
  Rsum_upto n (fun k => f k * c) = Rsum_upto n f * c.
Proof. apply (Rsum_map_scale c f). Qed.

(** The Gaussian kernel of lines 128-155, entry by entry: 0 on the
    diagonal, and off it the exponential of the squared distance divided
    by [-2 sigma_i^2]. *)
Lemma entry_kernel_pij (points sigma : list R) (N NDIMS i j : nat) :
  (i < N)%nat -> (j < N)%nat ->
  entry N (kernel_pij points sigma N NDIMS) i j
  = if (i =? j)%nat then 0
    else exp (entry N (squared_pairwise_dist points N NDIMS) i j
              / (-2 * (at_ sigma i * at_ sigma i))).
Proof.
  intros Hi Hj. pose proof (index_bound N i j Hi Hj) as Hb.
  unfold entry, kernel_pij, zero_diagonal, broadcast_matrix_vector. cbv zeta.
  rewrite at_imap
    by now rewrite length_map, length_imap, length_squared_pairwise_dist.
  rewrite is_diag_index by exact Hi.
  destruct (i =? j)%nat; [apply zero_exact|].
  rewrite at_map by now rewrite length_imap, length_squared_pairwise_dist.
  rewrite at_imap by now rewrite length_squared_pairwise_dist.
  rewrite index_mod by exact Hi.
  unfold func_exp, square. cbn [expf div mul Exact].
  destruct (Nat.lt_ge_cases i (length sigma)) as [Hin|Hout].
  - rewrite at_map by exact Hin. cbn [mul Exact].
    replace (lit (-2) 0) with (-2) by (cbn; lra). reflexivity.
  - assert (Hsq : at_ (map (fun x => x * x) sigma) i = zero)
      by (unfold at_; apply nth_overflow; now rewrite length_map).
    assert (Hsg : at_ sigma i = zero)
      by (unfold at_; now apply nth_overflow).
    rewrite Hsq, Hsg, zero_exact.
    replace (lit (-2) 0) with (-2) by (cbn; lra).
    do 2 f_equal. lra.
Qed.

Lemma kernel_pij_nonneg (points sigma : list R) (N NDIMS i j : nat) :
  (i < N)%nat -> (j < N)%nat ->
  0 <= entry N (kernel_pij points sigma N NDIMS) i j.
Proof.
  intros Hi Hj. rewrite entry_kernel_pij by assumption.
  destruct (i =? j)%nat; [lra|]. left. apply exp_pos.
Qed.

(** With a second point, the sum of a column of the kernel is positive. *)
Lemma kernel_pij_column_pos (points sigma : list R) (N NDIMS i : nat) :
  (2 <= N)%nat -> (i < N)%nat ->
  0 < Rsum_upto N (fun j => entry N (kernel_pij points sigma N NDIMS) i j).
Proof.
  intros HN Hi.
  set (j0 := match i with O => 1%nat | _ => 0%nat end).
  assert (Hj0 : (j0 < N)%nat) by (destruct i; cbn; lia).
  assert (Hne : (i =? j0)%nat = false) by (destruct i; reflexivity).
  apply (Rsum_upto_pos N _ j0).
  - intros k Hk. now apply kernel_pij_nonneg.
  - exact Hj0.
  - rewrite entry_kernel_pij, Hne by assumption. apply exp_pos.
Qed.

(** The normalisation of lines 161-167, entry by entry: every entry of
    column [i] is divided by the sum of column [i]. *)
Lemma entry_conditional_pij (points sigma : list R) (N NDIMS i j : nat) :
  (i < N)%nat -> (j < N)%nat ->
  entry N (conditional_pij points sigma N NDIMS) i j
  = entry N (kernel_pij points sigma N NDIMS) i j
    / Rsum_upto N (fun j' => entry N (kernel_pij points sigma N NDIMS) i j').
Proof.
  intros Hi Hj. rewrite conditional_pij_entry by assumption.
  rewrite sum_upto_exact. cbn [div mul Exact].
  rewrite one_exact, Rmult_1_l. reflexivity.
Qed.


(** The bound on [N] is needed: with a single point the column is the
    zeroed diagonal entry over its own sum, 0 over 0, which the reals of the
    Standard Library make 0 and binary32 makes NaN. *)
Lemma conditional_pij_one_point_exact (p s : R) :
  Rsum_upto 1 (fun j => entry 1 (conditional_pij [p] [s] 1 1) 0 j) = 0.
Proof.
  unfold Rsum_upto, entry, at_, conditional_pij, kernel_pij, zero_diagonal,
    broadcast_matrix_vector, reduce_sum, tabulate, sum_upto, imap.
  cbn -[Rplus Rmult Rminus Rdiv Rinv IZR exp].
  unfold Rdiv. lra.
Qed.
End ExactArithmetic.

(** ** Symmetry and zero diagonal of Pij and Qij in binary32 *)

Module Binary32Matrices.
Import Binary32Spec.
Local Open Scope scalar_scope.

(** *** Facts of IEEE arithmetic *)

Lemma add_comm (x y : spec_float) : B32.add x y = B32.add y x.
Proof.
  unfold B32.add.
  destruct x as [[|]|[|]| |sx mx ex], y as [[|]|[|]| |sy my ey];
    try reflexivity.
  unfold SFadd. rewrite (Z.min_comm ey ex).
  rewrite (Z.add_comm (cond_Zopp sy _)). reflexivity.
Qed.

Lemma binary_round_aux_opp (s : bool) (m e : Z) (l : location) :
  binary_round_aux B32.prec B32.emax (negb s) m e l
  = SFopp (binary_round_aux B32.prec B32.emax s m e l).
Proof.
  unfold binary_round_aux.
  destruct (shr_fexp B32.prec B32.emax m e l) as [mrs' e'].
  destruct (shr_fexp B32.prec B32.emax _ e' loc_Exact) as [mrs'' e''].
  destruct (shr_m mrs''); try reflexivity.
  destruct (Z.leb e'' (B32.emax - B32.prec)); reflexivity.
Qed.

Lemma binary_round_opp (s : bool) (m : positive) (e : Z) :
  binary_round B32.prec B32.emax (negb s) m e
  = SFopp (binary_round B32.prec B32.emax s m e).
Proof.
  unfold binary_round.
  destruct (shl_align m e _) as [mz ez]. apply binary_round_aux_opp.
Qed.

(** Rounding is symmetric: the rounded opposite is the opposite of the
    rounded number (a zero result is [+0] on both sides). *)
Lemma binary_normalize_opp (m e : Z) :
  binary_normalize B32.prec B32.emax (- m) e false
  = match m with
    | Z0 => S754_zero false
    | _ => SFopp (binary_normalize B32.prec B32.emax m e false)
    end.
Proof.
  destruct m as [|p|p]; cbn [binary_normalize Z.opp].
  - reflexivity.
  - apply (binary_round_opp false).
  - change true with (negb false). rewrite (binary_round_opp false).
    now destruct (binary_round _ _ false p e) as [[|]|[|]| |[|] m' e'].
Qed.

Lemma mul_opp_opp (x y : spec_float) :
  B32.mul (SFopp x) (SFopp y) = B32.mul x y.
Proof.
  unfold B32.mul.
  destruct x as [sx|sx| |sx mx ex], y as [sy|sy| |sy my ey]; cbn;
    try reflexivity; now destruct sx, sy.
Qed.

(** [b - a] is the opposite of [a - b], or both are [+0]. *)
Lemma sub_swap (a b : spec_float) :
  B32.sub b a = SFopp (B32.sub a b)
  \/ (B32.sub a b = S754_zero false /\ B32.sub b a = S754_zero false).
Proof.
  unfold B32.sub.
  destruct a as [[|]|[|]| |sa ma ea], b as [[|]|[|]| |sb mb eb];
    cbn [SFsub SFopp negb]; try (left; reflexivity); try (right; split; reflexivity);
    try (left; destruct sa; reflexivity); try (left; destruct sb; reflexivity).
  rewrite (Z.min_comm eb ea).
  set (za := cond_Zopp sa _). set (zb := cond_Zopp sb _).
  replace (zb - za)%Z with (- (za - zb))%Z by lia.
  rewrite binary_normalize_opp.
  destruct (za - zb)%Z eqn:E; [right; split; reflexivity | left | left]; reflexivity.
Qed.

(** The squared difference does not depend on the order of the points. *)
Lemma squared_difference_sym (a b : spec_float) :
  B32.mul (B32.sub a b) (B32.sub a b) = B32.mul (B32.sub b a) (B32.sub b a).
Proof.
  destruct (sub_swap a b) as [Hopp | [Hab Hba]].
  - rewrite Hopp. now rewrite mul_opp_opp.
  - now rewrite Hab, Hba.
Qed.

(** [0 / y] is a zero or NaN. *)
Lemma div_zero (s : bool) (y : spec_float) :
  B32.is_nan (B32.div (S754_zero s) y) = false ->
  B32.is_zero (B32.div (S754_zero s) y) = true.
Proof. destruct y as [sy|sy| |sy my ey]; cbn; intros Hn; congruence. Qed.

Lemma SFeqb_zero (x : spec_float) :
  B32.is_zero x = true -> SFeqb x (S754_zero false) = true.
Proof. destruct x; cbn; intros Hz; congruence. Qed.

Lemma SFeqb_refl (x : spec_float) : B32.is_nan x = false -> SFeqb x x = true.
Proof. intros Hn. rewrite NanGuard.SFeqb_self, Hn. reflexivity. Qed.

(** *** The matrices *)

Section Matrices.
Variable L : B32.Libm.
#[local] Hint Extern 0 (Scalar spec_float) => exact (Binary32 L) : typeclass_instances.

Lemma no_nan_entry (N : nat) (M : list spec_float) (i j : nat) :
  no_nan M -> length M = (N * N)%nat -> (i < N)%nat -> (j < N)%nat ->
  B32.is_nan (entry N M i j) = false.
Proof.
  intros Hv Hlen Hi Hj. unfold no_nan in Hv.
  rewrite Forall_forall in Hv. apply Hv.
  unfold entry, at_. apply nth_In. rewrite Hlen. now apply index_bound.
Qed.

Lemma squared_pairwise_dist_sym (v : list spec_float) (N D i j : nat) :
  (i < N)%nat -> (j < N)%nat ->
  entry N (squared_pairwise_dist v N D) i j
  = entry N (squared_pairwise_dist v N D) j i.
Proof.
  intros Hi Hj. rewrite !entry_squared_pairwise_dist by assumption.
  apply sum_upto_ext. intros d _. apply squared_difference_sym.
Qed.

Lemma kernel_matrix_sym (ys_ : list spec_float) (N PROJDIM i j : nat) :
  (i < N)%nat -> (j < N)%nat ->
  entry N (kernel_matrix ys_ N PROJDIM) i j
  = entry N (kernel_matrix ys_ N PROJDIM) j i.
Proof.
  intros Hi Hj. rewrite !entry_kernel_matrix by assumption.
  rewrite (Nat.eqb_sym j i).
  now rewrite (squared_pairwise_dist_sym ys_ N PROJDIM i j).
Qed.

Lemma affinity_matrix_sym (ys_ : list spec_float) (N PROJDIM i j : nat) :
  (i < N)%nat -> (j < N)%nat ->
  entry N (affinity_matrix ys_ N PROJDIM) i j
  = entry N (affinity_matrix ys_ N PROJDIM) j i.
Proof.
  intros Hi Hj. rewrite !entry_affinity_matrix by assumption.
  now rewrite (kernel_matrix_sym ys_ N PROJDIM i j).
Qed.

Lemma compute_pij_sym (points sigma : list spec_float) (N NDIMS i j : nat) :
  (i < N)%nat -> (j < N)%nat ->
  entry N (compute_pij points sigma N NDIMS) i j
  = entry N (compute_pij points sigma N NDIMS) j i.
Proof.
  intros Hi Hj. rewrite !compute_pij_entry by assumption.
  apply add_comm.
Qed.

(** Half of [0 / y] plus half of [0 / y] is a zero unless it is NaN. *)
Lemma symmetrised_zero (y : spec_float) :
  let c := B32.div (S754_zero false) y in
  B32.is_nan (B32.add (B32.mul half c) (B32.mul half c)) = false ->
  SFeqb (B32.add (B32.mul half c) (B32.mul half c)) (S754_zero false) = true.
Proof.
  destruct y as [[|]|[|]| |[|] my ey]; vm_compute; congruence.
Qed.

Lemma compute_pij_diagonal (points sigma : list spec_float) (N NDIMS i : nat) :
  (i < N)%nat ->
  B32.is_nan (entry N (compute_pij points sigma N NDIMS) i i) = false ->
  SFeqb (entry N (compute_pij points sigma N NDIMS) i i) (S754_zero false) = true.
Proof.
  intros Hi. rewrite compute_pij_entry by exact Hi.
  rewrite conditional_pij_entry, kernel_pij_diagonal by exact Hi.
  apply symmetrised_zero.
Qed.

Lemma affinity_matrix_diagonal (ys_ : list spec_float) (N PROJDIM i : nat) :
  (i < N)%nat ->
  B32.is_nan (entry N (affinity_matrix ys_ N PROJDIM) i i) = false ->
  SFeqb (entry N (affinity_matrix ys_ N PROJDIM) i i) (S754_zero false) = true.
Proof.
  intros Hi. rewrite entry_affinity_matrix, entry_kernel_matrix by exact Hi.
  rewrite Nat.eqb_refl. intros Hn.
  apply SFeqb_zero. now apply (div_zero false).
Qed.

(** C4, amended. Let [Pij] be the matrix [compute_pij] returns and [Qij] the one
    [compute_gradients] writes at line 219 into an [N*N]-entry buffer.
    When these are valid matrices (no entry is NaN), both are symmetric,
    [M[i][j] == M[j][i]], and both have [M[i][i] == 0] on the whole
    diagonal; the entries [M[i][j]] and [M[j][i]] are even the same
    binary32 number. *)
Theorem pij_qij_symmetric_zero_diagonal
    (points sigma dist_ qij_ ys_ : list spec_float) (N NDIMS PROJDIM : nat) :
  length dist_ = (N * N)%nat ->
  length qij_ = (N * N)%nat ->
  let Pij := compute_pij points sigma N NDIMS in
  let Qij := normalised_qij (student_kernel dist_ ys_ N PROJDIM) qij_ in
  no_nan Pij -> no_nan Qij ->
  (symmetric L N Pij /\ zero_on_diagonal L N Pij)
  /\ (symmetric L N Qij /\ zero_on_diagonal L N Qij)
  /\ (forall i j, (i < N)%nat -> (j < N)%nat ->
        entry N Pij i j = entry N Pij j i /\ entry N Qij i j = entry N Qij j i).
Proof.
  intros Hd Hq Pij Qij HP HQ.
  assert (HQij : Qij = affinity_matrix ys_ N PROJDIM)
    by now apply normalised_qij_is_affinity_matrix.
  assert (HlenP : length Pij = (N * N)%nat) by apply length_compute_pij.
  assert (HlenQ : length Qij = (N * N)%nat)
    by (rewrite HQij; apply length_affinity_matrix).
  repeat split.
  - intros i j Hi Hj. unfold Pij. rewrite (compute_pij_sym _ _ _ _ i j) by assumption.
    apply SFeqb_refl. now apply no_nan_entry.
  - intros i Hi. apply compute_pij_diagonal; [exact Hi|].
    now apply no_nan_entry.
  - intros i j Hi Hj. rewrite HQij.
    rewrite (affinity_matrix_sym _ _ _ i j) by assumption.
    apply SFeqb_refl. rewrite <- HQij. now apply no_nan_entry.
  - intros i Hi. rewrite HQij. apply affinity_matrix_diagonal; [exact Hi|].
    rewrite <- HQij. now apply no_nan_entry.
  - now apply compute_pij_sym.
  - rewrite HQij. now apply affinity_matrix_sym.
Qed.
End Matrices.
End Binary32Matrices.

(** ** Runs in binary32 *)

Module Binary32Runs.
#[local] Existing Instance inert32.
Local Open Scope scalar_scope.
Import Binary32Spec Binary32Matrices.

Lemma compute_gradients_overwrites_qij_and_dist_witness :
  dist (snd (compute_gradients two_points 2 1 one))
    = kernel_matrix (ys two_points) 2 1
  /\ qij (snd (compute_gradients two_points 2 1 one))
    = gradient_coefficient (ys two_points) (pij two_points) 2 1.
Proof.
  destruct (compute_gradients_overwrites_qij_and_dist two_points 2 1 one
              eq_refl eq_refl eq_refl) as (HK & HC & _).
  split; [exact HK | exact HC].
Defined.

(** For the two points the call leaves 0.25 off the diagonal of [qij],
    where the normalised affinities are 0.5, and the kernel value 0.5 off
    the diagonal of [dist], where the squared distance is 1. *)
Example buffers_two_points :
  qij (snd (compute_gradients two_points 2 1 one))
    = [zero; lit 1 (-2); lit 1 (-2); zero]
  /\ affinity_matrix (ys two_points) 2 1 = [zero; half; half; zero]
  /\ dist (snd (compute_gradients two_points 2 1 one)) = [zero; half; half; zero]
  /\ squared_pairwise_dist (ys two_points) 2 1 = [zero; one; one; zero].
Proof. vm_compute. repeat split. Qed.

(** The forces of the two points in binary32, where every operation of
    this run is exact: [(1, -1)], as in exact arithmetic. *)
Example forces_two_points :
  forces (snd (compute_gradients two_points 2 1 one)) = [one; lit (-1) 0].
Proof. vm_compute. reflexivity. Qed.

(** With a single point the only kernel entry is on the diagonal, the sum
    of its column is 0 and the normalisation divides 0 by 0, whatever the
    libm, the point and the bandwidth are. *)
Lemma conditional_pij_one_point (L : B32.Libm) (p s : spec_float) :
  conditional_pij (SF := Binary32 L) [p] [s] 1 1 = [S754_nan]
  /\ compute_pij (SF := Binary32 L) [p] [s] 1 1 = [S754_nan].
Proof. split; reflexivity. Qed.

(** For the point set of the single point 2.0 with bandwidth 0.25 the
    column of the conditional probabilities is NaN, and so is its sum. *)
Lemma conditional_pij_one_point_is_nan :
  conditional_pij [lit 2 0] [lit 1 (-2)] 1 1 = [S754_nan]
  /\ sum_upto 1 (fun j => entry 1 (conditional_pij [lit 2 0] [lit 1 (-2)] 1 1) 0 j)
     = S754_nan
  /\ SFltb (S754_zero false) (lit 1 (-2)) = true.
Proof. vm_compute. repeat split. Qed.

(** Two points at 0 and 1 with bandwidth 1. *)
Lemma pij_qij_symmetric_zero_diagonal_witness :
  let Pij := compute_pij [zero; one] [one; one] 2 1 in
  let Qij := normalised_qij (student_kernel (repeat zero 4) [zero; one] 2 1)
                            (repeat zero 4) in
  (symmetric B32.inert 2 Pij /\ zero_on_diagonal B32.inert 2 Pij)
  /\ (symmetric B32.inert 2 Qij /\ zero_on_diagonal B32.inert 2 Qij).
Proof.
  intros Pij Qij.
  assert (HP : no_nan Pij) by (vm_compute; repeat constructor).
  assert (HQ : no_nan Qij) by (vm_compute; repeat constructor).
  destruct (pij_qij_symmetric_zero_diagonal B32.inert
              [zero; one] [one; one] (repeat zero 4) (repeat zero 4) [zero; one]
              2 1 1 eq_refl eq_refl HP HQ) as (HPs & HQs & _).
  split; [exact HPs | exact HQs].
Defined.

(** With two points the column of the conditional probabilities sums to 1
    in binary32 as well. *)
Example conditional_pij_two_points :
  conditional_pij [zero; one] [one; one] 2 1 = [S754_zero true; one; one; S754_zero true]
  /\ sum_upto 2 (fun j => entry 2 (conditional_pij [zero; one] [one; one] 2 1) 0 j) = one.
Proof. vm_compute. split; reflexivity. Qed.

Example pij_qij_two_points :
  compute_pij [zero; one] [one; one] 2 1 = [S754_zero true; one; one; S754_zero true]
  /\ normalised_qij (student_kernel (repeat zero 4) [zero; one] 2 1) (repeat zero 4)
     = [zero; half; half; zero].
Proof. vm_compute. split; reflexivity. Qed.
End Binary32Runs.

(** ** Whole launches of the calibration kernels *)

Section LaunchProperties.
Context {F : Type} {SF : Scalar F}.
Local Open Scope scalar_scope.

(** The result of one [upper_lower_assign] thread below [N]. *)
Lemma upper_lower_assign_result (target_perplexity : F) (N TID : nat) (m : SearchArrays F) :
  (TID < N)%nat ->
  length (sigmas m) = N -> length (lower_bound m) = N ->
  length (upper_bound m) = N -> length (perplexity m) = N ->
  upper_lower_assign target_perplexity N TID m =
    Some {| sigmas := set_nth (sigmas m) TID
                        ((moved_upper target_perplexity m TID
                          +. moved_lower target_perplexity m TID) /. two);
            lower_bound :=
              (if at_ (perplexity m) TID >. target_perplexity then lower_bound m
               else set_nth (lower_bound m) TID (at_ (sigmas m) TID));
            upper_bound :=
              (if at_ (perplexity m) TID >. target_perplexity
               then set_nth (upper_bound m) TID (at_ (sigmas m) TID)
               else upper_bound m);
            perplexity := perplexity m |}.
Proof.
  intros Hlt Hs Hl Hu Hp.
  unfold moved_upper, moved_lower, upper_lower_assign.
  destruct (Nat.ltb_spec N TID) as [Hgt|_]; [lia|].
  rewrite load_in_range by lia. cbn [bind].
  destruct (at_ (perplexity m) TID >. target_perplexity) eqn:Hcmp.
  - unfold assign_upper.
    rewrite load_in_range by lia. cbn [bind].
    rewrite store_in_range by lia. cbn [bind].
    unfold bisect. cbn [upper_bound lower_bound sigmas perplexity].
    rewrite !load_in_range by (rewrite ?length_set_nth; lia). cbn [bind].
    rewrite store_in_range by lia. cbn [bind].
    now rewrite at_set_nth_same by lia.
  - unfold assign_lower.
    rewrite load_in_range by lia. cbn [bind].
    rewrite store_in_range by lia. cbn [bind].
    unfold bisect. cbn [upper_bound lower_bound sigmas perplexity].
    rewrite !load_in_range by (rewrite ?length_set_nth; lia). cbn [bind].
    rewrite store_in_range by lia. cbn [bind].
    now rewrite at_set_nth_same by lia.
Qed.

Lemma imap_id_below_0 (g : nat -> F) (v : list F) :
  imap (fun k x => if (k <? 0)%nat then g k else x) v = v.
Proof.
  apply at_ext; [apply length_imap|].
  intros k Hk. rewrite length_imap in Hk. now rewrite at_imap.
Qed.

(** Writing entry [T] of a buffer updated below [T] gives the buffer updated
    below [T + 1]. *)
Lemma set_nth_imap_below (g : nat -> F) (v : list F) (T : nat) :
  (T < length v)%nat ->
  set_nth (imap (fun k x => if (k <? T)%nat then g k else x) v) T (g T)
  = imap (fun k x => if (k <? S T)%nat then g k else x) v.
Proof.
  intros HT. apply at_ext.
  - now rewrite length_set_nth, !length_imap.
  - intros k Hk. rewrite length_set_nth, length_imap in Hk.
    rewrite (at_imap _ v k) by exact Hk.
    destruct (Nat.eq_dec k T) as [->|Hne].
    + rewrite at_set_nth_same by now rewrite length_imap.
      destruct (Nat.ltb_spec T (S T)); [reflexivity | lia].
    + rewrite at_set_nth_other by exact Hne.
      rewrite at_imap by exact Hk.
      destruct (Nat.ltb_spec k T), (Nat.ltb_spec k (S T)); try reflexivity; lia.
Qed.

Lemma at_imap_at_bound (g : nat -> F) (v : list F) (T : nat) :
  at_ (imap (fun k x => if (k <? T)%nat then g k else x) v) T = at_ v T.
Proof.
  destruct (Nat.lt_ge_cases T (length v)) as [Hin|Hout].
  - rewrite at_imap by exact Hin. now rewrite Nat.ltb_irrefl.
  - unfold at_. rewrite !nth_overflow; rewrite ?length_imap; auto.
Qed.

(** The threads [0 .. T-1], in this order. *)
Lemma threads_below_N (target_perplexity : F) (N T : nat) (m : SearchArrays F) :
  (T <= N)%nat ->
  length (sigmas m) = N -> length (lower_bound m) = N ->
  length (upper_bound m) = N -> length (perplexity m) = N ->
  fold_left (fun acc TID => bind acc (upper_lower_assign target_perplexity N TID))
            (seq 0 T) (Some m)
  = Some (after_threads target_perplexity T m).
Proof.
  intros HT Hs Hl Hu Hp. induction T as [|T IH].
  - cbn [seq fold_left]. unfold after_threads.
    rewrite !imap_id_below_0. now destruct m.
  - rewrite seq_S, fold_left_app, IH by lia. cbn [fold_left bind Nat.add].
    set (mT := after_threads target_perplexity T m).
    assert (HpT : perplexity mT = perplexity m) by reflexivity.
    assert (HsT : at_ (sigmas mT) T = at_ (sigmas m) T)
      by apply at_imap_at_bound.
    assert (HlT : at_ (lower_bound mT) T = at_ (lower_bound m) T)
      by apply at_imap_at_bound.
    assert (HuT : at_ (upper_bound mT) T = at_ (upper_bound m) T)
      by apply at_imap_at_bound.
    assert (Hmu : moved_upper target_perplexity mT T = moved_upper target_perplexity m T)
      by (unfold moved_upper; now rewrite HpT, HsT, HuT).
    assert (Hml : moved_lower target_perplexity mT T = moved_lower target_perplexity m T)
      by (unfold moved_lower; now rewrite HpT, HsT, HlT).
    rewrite upper_lower_assign_result;
      try (unfold mT; cbn [after_threads sigmas lower_bound upper_bound perplexity];
           rewrite ?length_imap; assumption); try lia.
    rewrite Hmu, Hml, HpT, HsT.
    unfold mT, after_threads.
    cbn [sigmas lower_bound upper_bound perplexity].
    f_equal. f_equal.
    + apply (set_nth_imap_below
               (fun k => (moved_upper target_perplexity m k
                          +. moved_lower target_perplexity m k) /. two)).
      lia.
    + destruct (at_ (perplexity m) T >. target_perplexity) eqn:Hcmp.
      * apply at_ext; [now rewrite !length_imap|].
        intros k Hk. rewrite length_imap in Hk. rewrite !at_imap by exact Hk.
        destruct (Nat.ltb_spec k T), (Nat.ltb_spec k (S T)); try reflexivity; try lia.
        assert (k = T) by lia. subst k. unfold moved_lower. now rewrite Hcmp.
      * rewrite <- (set_nth_imap_below (moved_lower target_perplexity m)) by lia.
        f_equal. unfold moved_lower. now rewrite Hcmp.
    + destruct (at_ (perplexity m) T >. target_perplexity) eqn:Hcmp.
      * rewrite <- (set_nth_imap_below (moved_upper target_perplexity m)) by lia.
        f_equal. unfold moved_upper. now rewrite Hcmp.
      * apply at_ext; [now rewrite !length_imap|].
        intros k Hk. rewrite length_imap in Hk. rewrite !at_imap by exact Hk.
        destruct (Nat.ltb_spec k T), (Nat.ltb_spec k (S T)); try reflexivity; try lia.
        assert (k = T) by lia. subst k. unfold moved_upper. now rewrite Hcmp.
Qed.

Lemma threads_after_fault (thread : nat -> SearchArrays F -> option (SearchArrays F))
    (l : list nat) :
  fold_left (fun acc TID => bind acc (thread TID)) l None = None.
Proof. induction l as [|t l IH]; [reflexivity | exact IH]. Qed.

Lemma iDivUp_exact (N : nat) : (N mod 32 = 0)%nat -> (iDivUp N 32 * 32 = N)%nat.
Proof.
  intros Hm. unfold iDivUp. rewrite Hm. cbn [Nat.eqb].
  pose proof (Nat.div_mod_eq N 32). lia.
Qed.

Lemma iDivUp_over (N : nat) : (N mod 32 <> 0)%nat -> (N < iDivUp N 32 * 32)%nat.
Proof.
  intros Hm. unfold iDivUp.
  destruct (Nat.eqb_spec (N mod 32) 0) as [H0|_]; [contradiction|].
  pose proof (Nat.div_mod_eq N 32).
  pose proof (Nat.mod_upper_bound N 32). lia.
Qed.

Lemma length_new_perplexity (m : SearchArrays F) (pij_ : list F) (N : nat) :
  length (perplexity m) = N ->
  length (store_range
            (map func_pow2 (reduce_alpha (entropy_terms pij_ N) N N (lit (-1) 0) 1))
            (perplexity m)) = N.
Proof.
  intros Hp.
  assert (Hlen : length (map func_pow2
                   (reduce_alpha (entropy_terms pij_ N) N N (lit (-1) 0) 1)) = N).
  { unfold reduce_alpha, reduce_sum. now rewrite !length_map, length_tabulate. }
  rewrite store_range_full; [exact Hlen | now rewrite Hlen].
Qed.

(** A launch with no more threads than points updates the points below the
    thread count and leaves every other entry alone. *)
Theorem launch_within_points (target_perplexity : F) (N NBLOCKS BLOCKSIZE : nat)
    (m : SearchArrays F) :
  (NBLOCKS * BLOCKSIZE <= N)%nat ->
  length (sigmas m) = N -> length (lower_bound m) = N ->
  length (upper_bound m) = N -> length (perplexity m) = N ->
  let T := (NBLOCKS * BLOCKSIZE)%nat in
  exists m',
    launch NBLOCKS BLOCKSIZE (upper_lower_assign target_perplexity N) m = Some m'
    /\ perplexity m' = perplexity m
    /\ (forall k, (k < T)%nat ->
          at_ (upper_bound m') k = moved_upper target_perplexity m k
          /\ at_ (lower_bound m') k = moved_lower target_perplexity m k
          /\ at_ (sigmas m') k
             = (moved_upper target_perplexity m k +. moved_lower target_perplexity m k) /. two)
    /\ (forall k, (T <= k)%nat ->
          at_ (upper_bound m') k = at_ (upper_bound m) k
          /\ at_ (lower_bound m') k = at_ (lower_bound m) k
          /\ at_ (sigmas m') k = at_ (sigmas m) k).
Proof.
  intros HT Hs Hl Hu Hp T.
  exists (after_threads target_perplexity T m).
  split; [now apply threads_below_N|]. split; [reflexivity|].
  unfold after_threads. cbn [sigmas lower_bound upper_bound perplexity].
  split.
  - intros k Hk. rewrite !at_imap by lia.
    destruct (Nat.ltb_spec k T); [now repeat split | lia].
  - intros k Hk.
    destruct (Nat.lt_ge_cases k N) as [Hin|Hout].
    + rewrite !at_imap by lia.
      destruct (Nat.ltb_spec k T); [lia | now repeat split].
    + unfold at_. rewrite !nth_overflow; rewrite ?length_imap; try lia.
      now repeat split.
Qed.

(** A launch with more threads than points faults: the thread [N] is let
    through by the guard [TID > N]. *)
Lemma launch_beyond_points_faults (target_perplexity : F) (N NBLOCKS BLOCKSIZE : nat)
    (m : SearchArrays F) :
  (N < NBLOCKS * BLOCKSIZE)%nat ->
  length (sigmas m) = N -> length (lower_bound m) = N ->
  length (upper_bound m) = N -> length (perplexity m) = N ->
  launch NBLOCKS BLOCKSIZE (upper_lower_assign target_perplexity N) m = None.
Proof.
  intros HT Hs Hl Hu Hp. unfold launch.
  replace (NBLOCKS * BLOCKSIZE)%nat with (N + S (NBLOCKS * BLOCKSIZE - N - 1))%nat by lia.
  rewrite seq_app, fold_left_app, threads_below_N by (try assumption; lia).
  cbn [seq fold_left bind Nat.add].
  rewrite upper_lower_assign_at_N by exact Hp.
  apply threads_after_fault.
Qed.

(** [thrust_search_perplexity] launches 32-thread blocks. On an [N*N]
    matrix [pij] and arrays of [N] entries it completes when [N] is a
    multiple of 32, with every point updated from the perplexities it has
    just written, and faults for every other [N]. *)
Theorem thrust_search_perplexity_multiple_of_32 (m : SearchArrays F) (pij_ : list F)
    (target_perplexity : F) (N : nat) :
  length pij_ = (N * N)%nat ->
  length (sigmas m) = N -> length (lower_bound m) = N ->
  length (upper_bound m) = N -> length (perplexity m) = N ->
  let m1 := {| sigmas := sigmas m; lower_bound := lower_bound m;
               upper_bound := upper_bound m;
               perplexity :=
                 store_range
                   (map func_pow2
                        (reduce_alpha (entropy_terms pij_ N) N N (lit (-1) 0) 1))
                   (perplexity m) |} in
  ((N mod 32 = 0)%nat ->
     thrust_search_perplexity m pij_ target_perplexity N
     = Some (after_threads target_perplexity N m1))
  /\ ((N mod 32 <> 0)%nat ->
        thrust_search_perplexity m pij_ target_perplexity N = None).
Proof.
  intros _ Hs Hl Hu Hp m1.
  assert (Hp1 : length (perplexity m1) = N) by now apply length_new_perplexity.
  split; intros Hmod; unfold thrust_search_perplexity; cbv zeta; fold m1.
  - unfold launch. rewrite iDivUp_exact by exact Hmod.
    now apply threads_below_N.
  - apply launch_beyond_points_faults; try assumption.
    now apply iDivUp_over.
Qed.

(** The entropy loop of [perplexity_search] reads inside [pij] for every
    thread below [N]. *)
Lemma entropy_loop_in_range (pij_ : list F) (N TID : nat) (idxs : list nat) (acc : F) :
  (forall i, In i idxs -> (i + TID * N < length pij_)%nat) ->
  entropy_loop pij_ N TID idxs acc
  = Some (fold_left (fun a i =>
                       if (i =? TID)%nat then a
                       else a +. at_ pij_ (i + TID * N) *. log2f (at_ pij_ (i + TID * N)))
                    idxs acc).
Proof.
  revert acc. induction idxs as [|i idxs IH]; intros acc Hin; [reflexivity|].
  cbn [entropy_loop fold_left].
  destruct (i =? TID)%nat.
  - apply IH. intros i' Hi'. apply Hin. now right.
  - rewrite load_in_range by (apply Hin; now left). cbn [bind].
    apply IH. intros i' Hi'. apply Hin. now right.
Qed.

Lemma perplexity_search_result (pij_ : list F) (target_perplexity : F) (N TID : nat)
    (m : SearchArrays F) :
  (TID < N)%nat -> length pij_ = (N * N)%nat ->
  length (sigmas m) = N -> length (lower_bound m) = N ->
  length (upper_bound m) = N -> length (perplexity m) = N ->
  let p := pow2f (lit (-1) 0 *. thread_entropy pij_ N TID) in
  let s := at_ (sigmas m) TID in
  let ub := if p <. target_perplexity then s else at_ (upper_bound m) TID in
  let lb := if p <. target_perplexity then at_ (lower_bound m) TID else s in
  perplexity_search pij_ target_perplexity N TID m =
    Some {| sigmas := set_nth (sigmas m) TID ((ub +. lb) /. two);
            lower_bound := (if p <. target_perplexity then lower_bound m
                            else set_nth (lower_bound m) TID s);
            upper_bound := (if p <. target_perplexity
                            then set_nth (upper_bound m) TID s
                            else upper_bound m);
            perplexity := set_nth (perplexity m) TID p |}.
Proof.
  intros Hlt Hpij Hs Hl Hu Hp p s ub lb. subst ub lb.
  unfold perplexity_search.
  destruct (Nat.ltb_spec N TID) as [Hgt|_]; [lia|].
  rewrite entropy_loop_in_range
    by (intros i Hi; apply in_seq in Hi; rewrite Hpij; nia).
  cbn [bind]. fold (thread_entropy pij_ N TID). fold p.
  rewrite store_in_range by lia. cbn [bind].
  rewrite load_in_range by (rewrite length_set_nth; lia). cbn [bind].
  rewrite at_set_nth_same by lia.
  destruct (p <. target_perplexity) eqn:Hcmp.
  - unfold assign_upper. cbn [sigmas upper_bound lower_bound perplexity].
    rewrite load_in_range by lia. cbn [bind].
    rewrite store_in_range by lia. cbn [bind].
    unfold bisect. cbn [upper_bound lower_bound sigmas perplexity].
    rewrite !load_in_range by (rewrite ?length_set_nth; lia). cbn [bind].
    rewrite store_in_range by lia. cbn [bind].
    now rewrite at_set_nth_same by lia.
  - unfold assign_lower. cbn [sigmas upper_bound lower_bound perplexity].
    rewrite load_in_range by lia. cbn [bind].
    rewrite store_in_range by lia. cbn [bind].
    unfold bisect. cbn [upper_bound lower_bound sigmas perplexity].
    rewrite !load_in_range by (rewrite ?length_set_nth; lia). cbn [bind].
    rewrite store_in_range by lia. cbn [bind].
    now rewrite at_set_nth_same by lia.
Qed.

(** One [perplexity_search] thread below [N], on length-[N] arrays and an
    [N*N] matrix, faults on no access. It stores 2 to the power of minus the
    entropy of the entries [pij[i + TID*N]], [i != TID], as the perplexity of
    the point, moves the upper bound to the current sigma when this
    perplexity is below the target and the lower bound otherwise, and sets
    sigma to the midpoint; the entries of the other points stay. *)
Theorem perplexity_search_step (pij_ : list F) (target_perplexity : F) (N TID : nat)
    (m : SearchArrays F) :
  (TID < N)%nat -> length pij_ = (N * N)%nat ->
  length (sigmas m) = N -> length (lower_bound m) = N ->
  length (upper_bound m) = N -> length (perplexity m) = N ->
  let p := pow2f (lit (-1) 0 *. thread_entropy pij_ N TID) in
  let s := at_ (sigmas m) TID in
  let ub := if p <. target_perplexity then s else at_ (upper_bound m) TID in
  let lb := if p <. target_perplexity then at_ (lower_bound m) TID else s in
  exists m',
    perplexity_search pij_ target_perplexity N TID m = Some m'
    /\ at_ (perplexity m') TID = p
    /\ at_ (upper_bound m') TID = ub
    /\ at_ (lower_bound m') TID = lb
    /\ at_ (sigmas m') TID = (ub +. lb) /. two
    /\ (forall k, k <> TID ->
          at_ (perplexity m') k = at_ (perplexity m) k
          /\ at_ (upper_bound m') k = at_ (upper_bound m) k
          /\ at_ (lower_bound m') k = at_ (lower_bound m) k
          /\ at_ (sigmas m') k = at_ (sigmas m) k).
Proof.
  intros Hlt Hpij Hs Hl Hu Hp p s ub lb.
  eexists. split; [now apply perplexity_search_result|].
  cbn [upper_bound lower_bound sigmas perplexity].
  subst ub lb. fold p. fold s.
  destruct (p <. target_perplexity) eqn:Hcmp;
    rewrite ?at_set_nth_same by lia;
    repeat split; try reflexivity; now apply at_set_nth_other.
Qed.

(** The thread [TID = N] of [perplexity_search] passes the guard [TID > N]
    as well: it reads [pij[N*N]], or for [N = 0] writes [perplexity[0]], past
    the end. *)
Theorem perplexity_search_thread_N_faults (pij_ : list F) (target_perplexity : F)
    (N : nat) (m : SearchArrays F) :
  length pij_ = (N * N)%nat -> length (perplexity m) = N ->
  perplexity_search pij_ target_perplexity N N m = None.
Proof.
  intros Hpij Hp. unfold perplexity_search. rewrite Nat.ltb_irrefl.
  destruct N as [|N].
  - cbn [seq entropy_loop bind]. unfold store. now rewrite Hp.
  - cbn [seq entropy_loop]. cbn [Nat.eqb].
    rewrite load_out_of_range by (rewrite Hpij; lia). reflexivity.
Qed.
End LaunchProperties.

(** ** The two kernels against each other, in binary32 *)

Module KernelDirections.
Import Binary32Spec.
Local Open Scope scalar_scope.

(** [<] of binary32 is asymmetric. *)
Lemma SFltb_asym (x y : spec_float) : SFltb x y = true -> SFltb y x = false.
Proof.
  unfold SFltb.
  destruct x as [[|]|[|]| |[|] mx ex], y as [[|]|[|]| |[|] my ey];
    cbn; intros Hlt; try discriminate; try reflexivity.
  - rewrite (Z.compare_antisym ex ey).
    destruct (ex ?= ey)%Z; cbn in *; try discriminate; try reflexivity.
    assert (Ha : Pos.compare_cont Eq my mx = CompOpp (Pos.compare_cont Eq mx my))
      by (symmetry; apply (Pos.compare_cont_antisym mx my Eq)).
    rewrite Ha. now destruct (Pos.compare_cont Eq mx my).
  - rewrite (Z.compare_antisym ex ey).
    destruct (ex ?= ey)%Z; cbn in *; try discriminate; try reflexivity.
    assert (Ha : Pos.compare_cont Eq my mx = CompOpp (Pos.compare_cont Eq mx my))
      by (symmetry; apply (Pos.compare_cont_antisym mx my Eq)).
    rewrite Ha. now destruct (Pos.compare_cont Eq mx my).
Qed.

(** For a point whose perplexity, as [perplexity_search] computes and stores
    it, is below the target, [perplexity_search] moves the upper bound to the
    current sigma and keeps the lower bound, while [upper_lower_assign], run
    on the same arrays with this perplexity, moves the lower bound and keeps
    the upper one: the two kernels bisect in opposite directions. *)
Theorem kernels_bisect_in_opposite_directions (L : B32.Libm)
    (pij_ : list spec_float) (target_perplexity : spec_float) (N TID : nat)
    (m : SearchArrays spec_float) :
  (TID < N)%nat -> length pij_ = (N * N)%nat ->
  length (sigmas m) = N -> length (lower_bound m) = N ->
  length (upper_bound m) = N -> length (perplexity m) = N ->
  let p := B32.m_pow2 L (B32.mul (B32.of_lit (-1) 0)
                                 (thread_entropy (SF := Binary32 L) pij_ N TID)) in
  SFltb p target_perplexity = true ->
  let m_p := {| sigmas := sigmas m; lower_bound := lower_bound m;
                upper_bound := upper_bound m;
                perplexity := set_nth (perplexity m) TID p |} in
  exists m1 m2,
    perplexity_search (SF := Binary32 L) pij_ target_perplexity N TID m = Some m1
    /\ upper_lower_assign (SF := Binary32 L) target_perplexity N TID m_p = Some m2
    /\ at_ (SF := Binary32 L) (upper_bound m1) TID = at_ (SF := Binary32 L) (sigmas m) TID
    /\ lower_bound m1 = lower_bound m
    /\ at_ (SF := Binary32 L) (lower_bound m2) TID = at_ (SF := Binary32 L) (sigmas m) TID
    /\ upper_bound m2 = upper_bound m.
Proof.
  intros Hlt Hpij Hs Hl Hu Hp p Hbelow m_p.
  pose proof (perplexity_search_result (SF := Binary32 L)
                pij_ target_perplexity N TID m Hlt Hpij Hs Hl Hu Hp) as H1.
  cbv zeta in H1. cbn [pow2f mul lit ltb Binary32] in H1. fold p in H1.
  rewrite Hbelow in H1.
  assert (Hpp : at_ (SF := Binary32 L) (perplexity m_p) TID = p)
    by (unfold m_p; cbn [perplexity]; apply at_set_nth_same; lia).
  pose proof (upper_lower_assign_result (SF := Binary32 L)
                target_perplexity N TID m_p Hlt Hs Hl Hu) as H2.
  unfold m_p at 1 in H2. cbn [perplexity] in H2.
  rewrite length_set_nth in H2. specialize (H2 Hp).
  rewrite Hpp in H2. unfold gtb in H2. cbn [ltb Binary32] in H2.
  rewrite (SFltb_asym _ _ Hbelow) in H2.
  eexists. eexists.
  split; [exact H1|]. split; [exact H2|].
  cbn [upper_bound lower_bound sigmas perplexity].
  repeat split.
  - apply at_set_nth_same. lia.
  - unfold m_p. cbn [sigmas lower_bound]. apply at_set_nth_same. lia.
Qed.

#[local] Existing Instance inert32.

Lemma kernels_bisect_in_opposite_directions_witness :
  exists m1 m2,
    perplexity_search [zero; one; one; zero] (lit 16 0) 2 0
      {| sigmas := [one; one]; lower_bound := [zero; zero];
         upper_bound := [lit 512 0; lit 512 0]; perplexity := [zero; zero] |} = Some m1
    /\ upper_lower_assign (lit 16 0) 2 0
         {| sigmas := [one; one]; lower_bound := [zero; zero];
            upper_bound := [lit 512 0; lit 512 0];
            perplexity := [lit (-1) 0; zero] |} = Some m2
    /\ upper_bound m1 = [one; lit 512 0] /\ lower_bound m1 = [zero; zero]
    /\ lower_bound m2 = [one; zero] /\ upper_bound m2 = [lit 512 0; lit 512 0].
Proof.
  destruct (kernels_bisect_in_opposite_directions B32.inert
              [zero; one; one; zero] (lit 16 0) 2 0
              {| sigmas := [one; one]; lower_bound := [zero; zero];
                 upper_bound := [lit 512 0; lit 512 0]; perplexity := [zero; zero] |})
    as (m1 & m2 & H1 & H2 & _); try reflexivity; try (cbn; lia).
  exists m1, m2. split; [exact H1|]. split; [exact H2|].
  vm_compute in H1, H2. injection H1 as <-. injection H2 as <-.
  repeat split.
Defined.

Lemma perplexity_search_step_witness :
  exists m',
    perplexity_search [zero; one; one; zero] (lit 16 0) 2 0
      {| sigmas := [one; one]; lower_bound := [zero; zero];
         upper_bound := [lit 512 0; lit 512 0]; perplexity := [zero; zero] |} = Some m'
    /\ at_ (perplexity m') 0 = lit (-1) 0.
Proof.
  destruct (perplexity_search_step [zero; one; one; zero] (lit 16 0) 2 0
              {| sigmas := [one; one]; lower_bound := [zero; zero];
                 upper_bound := [lit 512 0; lit 512 0]; perplexity := [zero; zero] |})
    as (m' & H1 & H2 & _); try reflexivity; try (cbn; lia).
  exists m'. split; [exact H1 | exact H2].
Defined.

Lemma perplexity_search_thread_N_faults_witness :
  perplexity_search [zero; one; one; zero] (lit 16 0) 2 2
    {| sigmas := [one; one]; lower_bound := [zero; zero];
       upper_bound := [lit 512 0; lit 512 0]; perplexity := [zero; zero] |} = None.
Proof.
  exact (perplexity_search_thread_N_faults [zero; one; one; zero] (lit 16 0) 2
           {| sigmas := [one; one]; lower_bound := [zero; zero];
              upper_bound := [lit 512 0; lit 512 0]; perplexity := [zero; zero] |}
           eq_refl eq_refl).
Defined.

Lemma launch_within_points_witness :
  exists m',
    launch 1 1 (upper_lower_assign (lit 16 0) 5) five_points = Some m'
    /\ at_ (lower_bound m') 0 = lit 1 0
    /\ at_ (sigmas m') 0 = S754_finite false 8404992 (-15)
    /\ at_ (sigmas m') 1 = lit 1 0.
Proof.
  destruct (launch_within_points (lit 16 0) 5 1 1 five_points)
    as (m' & Hrun & _ & Hbelow & Habove); try reflexivity; try (cbn; lia).
  exists m'. split; [exact Hrun|].
  destruct (Hbelow 0%nat) as (_ & Hl & Hs); [cbn; lia|].
  destruct (Habove 1%nat) as (_ & _ & Hs1); [cbn; lia|].
  split; [exact Hl|]. split; [exact Hs | exact Hs1].
Defined.

Lemma thrust_search_perplexity_multiple_of_32_witness :
  thrust_search_perplexity five_points (repeat zero 25) (lit 16 0) 5 = None
  /\ exists m',
       thrust_search_perplexity
         {| sigmas := repeat one 32; lower_bound := repeat zero 32;
            upper_bound := repeat (lit 512 0) 32; perplexity := repeat zero 32 |}
         (repeat zero 1024) (lit 16 0) 32 = Some m'.
Proof.
  split.
  - refine (proj2 (thrust_search_perplexity_multiple_of_32 five_points
                     (repeat zero 25) (lit 16 0) 5
                     eq_refl eq_refl eq_refl eq_refl eq_refl) _).
    cbn. discriminate.
  - eexists.
    exact (proj1 (thrust_search_perplexity_multiple_of_32
                    {| sigmas := repeat one 32; lower_bound := repeat zero 32;
                       upper_bound := repeat (lit 512 0) 32;
                       perplexity := repeat zero 32 |}
                    (repeat zero 1024) (lit 16 0) 32
                    eq_refl eq_refl eq_refl eq_refl eq_refl) eq_refl).
Defined.
End KernelDirections.

(** ** More of the algorithm in exact arithmetic *)

Module ExactFacts.
Import ExactSpec ExactArithmetic.
#[local] Existing Instance Exact.
Local Open Scope R_scope.

Lemma two_exact : two = 2.
Proof. unfold two. cbn. lra. Qed.

Lemma half_exact : half = / 2.
Proof. unfold half. cbn. change (Pos.to_nat 1) with 1%nat. rewrite pow_1. lra. Qed.

(** *** The bisection bracket *)

(** A bracket [lower <= sigma <= upper] of a point stays ordered under its
    [upper_lower_assign] thread: the new bracket lies in the old one and
    holds the new sigma, its midpoint; when the old sigma was the midpoint of
    the old bracket, the width is halved. *)
Theorem upper_lower_assign_keeps_bracket (target_perplexity : R) (N TID : nat)
    (m : SearchArrays R) :
  (TID < N)%nat ->
  length (sigmas m) = N -> length (lower_bound m) = N ->
  length (upper_bound m) = N -> length (perplexity m) = N ->
  at_ (lower_bound m) TID <= at_ (sigmas m) TID ->
  at_ (sigmas m) TID <= at_ (upper_bound m) TID ->
  exists m',
    upper_lower_assign target_perplexity N TID m = Some m'
    /\ at_ (lower_bound m) TID <= at_ (lower_bound m') TID
    /\ at_ (lower_bound m') TID <= at_ (sigmas m') TID
    /\ at_ (sigmas m') TID <= at_ (upper_bound m') TID
    /\ at_ (upper_bound m') TID <= at_ (upper_bound m) TID
    /\ at_ (sigmas m') TID
       = (at_ (upper_bound m') TID + at_ (lower_bound m') TID) / 2
    /\ (at_ (sigmas m) TID = (at_ (upper_bound m) TID + at_ (lower_bound m) TID) / 2 ->
        at_ (upper_bound m') TID - at_ (lower_bound m') TID
        = (at_ (upper_bound m) TID - at_ (lower_bound m) TID) / 2).
Proof.
  intros Hlt Hs Hl Hu Hp Hlo Hhi.
  eexists. split; [now apply upper_lower_assign_result|].
  cbn [upper_bound lower_bound sigmas perplexity].
  unfold moved_upper, moved_lower.
  destruct (at_ (perplexity m) TID >. target_perplexity)%sc;
    rewrite !at_set_nth_same by lia;
    cbn [add div Exact]; rewrite two_exact;
    repeat split; try lra; intros Hmid; lra.
Qed.

Lemma upper_lower_assign_keeps_bracket_witness :
  exists m',
    upper_lower_assign 16 1 0
      {| sigmas := [1]; lower_bound := [0]; upper_bound := [512];
         perplexity := [16] |} = Some m'
    /\ at_ (lower_bound m') 0 <= at_ (sigmas m') 0
    /\ at_ (sigmas m') 0 <= at_ (upper_bound m') 0.
Proof.
  destruct (upper_lower_assign_keeps_bracket 16 1 0
              {| sigmas := [1]; lower_bound := [0]; upper_bound := [512];
                 perplexity := [16] |})
    as (m' & Hrun & _ & H1 & H2 & _);
    try reflexivity; try (cbn; lia); try (unfold at_; cbn; lra).
  exists m'. split; [exact Hrun|]. split; [exact H1 | exact H2].
Defined.

(** *** The Student-t kernel and the affinities Qij *)

Lemma func_inc_inv_exact (d : R) : func_inc_inv d = 1 / (d + 1).
Proof. unfold func_inc_inv. cbn [div add Exact]. now rewrite one_exact. Qed.

(** The kernel of a distance [d >= 0] lies in (0, 1]. *)
Lemma func_inc_inv_bounds (d : R) : 0 <= d -> 0 < func_inc_inv d <= 1.
Proof.
  intros Hd. rewrite func_inc_inv_exact.
  assert (Hpos : 0 < d + 1) by lra.
  split.
  - apply Rdiv_lt_0_compat; lra.
  - apply (Rmult_le_reg_r (d + 1)); [exact Hpos|].
    unfold Rdiv. rewrite Rmult_assoc, Rinv_l by lra. lra.
Qed.

Lemma Rsum_tabulate (n : nat) (f : nat -> R) : Rsum (tabulate n f) = Rsum_upto n f.
Proof. reflexivity. Qed.

Lemma Rsum_nonneg (l : list R) : Forall (fun x => 0 <= x) l -> 0 <= Rsum l.
Proof.
  induction 1 as [|x l Hx _ IH]; cbn; lra.
Qed.

Lemma normalised_qij_exact (dist_ qij_ : list R) :
  length qij_ = length dist_ ->
  normalised_qij dist_ qij_ = map (fun d => d * / Rsum dist_) dist_.
Proof.
  intros Hlen. unfold normalised_qij. cbv zeta.
  rewrite store_range_full by now rewrite length_map.
  now rewrite reduce_exact.
Qed.

Lemma normalised_qij_sum (dist_ qij_ : list R) :
  length qij_ = length dist_ -> Rsum dist_ <> 0 ->
  Rsum (normalised_qij dist_ qij_) = 1.
Proof.
  intros Hlen Hsum. rewrite normalised_qij_exact by exact Hlen.
  rewrite (Rsum_map_scale (/ Rsum dist_) (fun d => d)), map_id.
  now apply Rinv_r.
Qed.

(** Lines 218-219, for any contents of the [dist] buffer whose sum is not 0:
    every entry written to [qij] is the [dist] entry over the sum, and the
    entries written sum to 1. *)
Theorem normalised_qij_sums_to_one (dist_ qij_ : list R) :
  length qij_ = length dist_ ->
  Rsum dist_ <> 0 ->
  (forall k, (k < length dist_)%nat ->
     at_ (normalised_qij dist_ qij_) k = at_ dist_ k / Rsum dist_)
  /\ Rsum (normalised_qij dist_ qij_) = 1.
Proof.
  intros Hlen Hsum. split; [|now apply normalised_qij_sum].
  intros k Hk. rewrite normalised_qij_exact by exact Hlen.
  now rewrite at_map.
Qed.

Lemma normalised_qij_sums_to_one_witness :
  Rsum (normalised_qij [0; 1; 3; 0] [0; 0; 0; 0]) = 1.
Proof.
  refine (proj2 (normalised_qij_sums_to_one [0; 1; 3; 0] [0; 0; 0; 0] eq_refl _)).
  cbn. lra.
Defined.

Lemma list_as_tabulate (l : list R) : l = tabulate (length l) (fun k => at_ l k).
Proof.
  apply at_ext; [now rewrite length_tabulate|].
  intros k Hk. now rewrite at_tabulate.
Qed.

Lemma Rsum_as_upto (n : nat) (l : list R) :
  length l = n -> Rsum l = Rsum_upto n (fun k => at_ l k).
Proof.
  intros Hlen. rewrite (list_as_tabulate l) at 1.
  now rewrite Rsum_tabulate, Hlen.
Qed.

(** The sum of an [N*N] buffer, column by column. *)
Lemma Rsum_matrix (N : nat) (M : list R) :
  length M = (N * N)%nat ->
  Rsum M = Rsum_upto N (fun j => Rsum_upto N (fun i => entry N M i j)).
Proof.
  intros Hlen. rewrite (list_as_tabulate M) at 1.
  rewrite Rsum_tabulate, Hlen. apply Rsum_upto_flat.
Qed.

Lemma Rsum_upto_const (n : nat) (c : R) : Rsum_upto n (fun _ => c) = INR n * c.
Proof.
  induction n as [|n IH].
  - unfold Rsum_upto. cbn. lra.
  - rewrite Rsum_upto_S, IH, S_INR. lra.
Qed.

Lemma squared_pairwise_dist_nonneg (v : list R) (N D i j : nat) :
  (i < N)%nat -> (j < N)%nat -> 0 <= entry N (squared_pairwise_dist v N D) i j.
Proof.
  intros Hi Hj. rewrite entry_squared_pairwise_dist by assumption.
  rewrite sum_upto_exact. apply Rsum_upto_nonneg. intros d _.
  cbn [mul sub Exact]. apply Rle_0_sqr.
Qed.

Lemma squared_pairwise_dist_sym_exact (v : list R) (N D i j : nat) :
  (i < N)%nat -> (j < N)%nat ->
  entry N (squared_pairwise_dist v N D) i j = entry N (squared_pairwise_dist v N D) j i.
Proof.
  intros Hi Hj. rewrite !entry_squared_pairwise_dist by assumption.
  apply sum_upto_ext. intros d _. cbn [mul sub Exact]. ring.
Qed.

Lemma kernel_matrix_entry_exact (ys_ : list R) (N PROJDIM i j : nat) :
  (i < N)%nat -> (j < N)%nat ->
  entry N (kernel_matrix ys_ N PROJDIM) i j
  = if (i =? j)%nat then 0
    else 1 / (entry N (squared_pairwise_dist ys_ N PROJDIM) i j + 1).
Proof.
  intros Hi Hj. rewrite entry_kernel_matrix by assumption.
  destruct (i =? j)%nat; [apply zero_exact|].
  cbn [div add Exact]. now rewrite one_exact.
Qed.

Lemma kernel_matrix_nonneg (ys_ : list R) (N PROJDIM i j : nat) :
  (i < N)%nat -> (j < N)%nat -> 0 <= entry N (kernel_matrix ys_ N PROJDIM) i j.
Proof.
  intros Hi Hj. rewrite kernel_matrix_entry_exact by assumption.
  destruct (i =? j)%nat; [lra|].
  pose proof (squared_pairwise_dist_nonneg ys_ N PROJDIM i j Hi Hj) as Hd.
  pose proof (func_inc_inv_bounds _ Hd) as Hb.
  rewrite func_inc_inv_exact in Hb. lra.
Qed.

Lemma kernel_matrix_offdiag_pos (ys_ : list R) (N PROJDIM i j : nat) :
  (i < N)%nat -> (j < N)%nat -> i <> j ->
  0 < entry N (kernel_matrix ys_ N PROJDIM) i j.
Proof.
  intros Hi Hj Hne. rewrite kernel_matrix_entry_exact by assumption.
  destruct (Nat.eqb_spec i j) as [Heq|_]; [contradiction|].
  pose proof (squared_pairwise_dist_nonneg ys_ N PROJDIM i j Hi Hj) as Hd.
  pose proof (func_inc_inv_bounds _ Hd) as Hb.
  rewrite func_inc_inv_exact in Hb. lra.
Qed.

(** With a second point, the sum [Z] of the kernel is positive. *)
Lemma kernel_matrix_sum_pos (ys_ : list R) (N PROJDIM : nat) :
  (2 <= N)%nat -> 0 < Rsum (kernel_matrix ys_ N PROJDIM).
Proof.
  intros HN. rewrite (Rsum_matrix N) by apply length_kernel_matrix.
  apply (Rsum_upto_pos N _ 0%nat); [| lia |].
  - intros j Hj. apply Rsum_upto_nonneg. intros i Hi.
    now apply kernel_matrix_nonneg.
  - apply (Rsum_upto_pos N _ 1%nat); [| lia |].
    + intros i Hi. apply kernel_matrix_nonneg; lia.
    + apply kernel_matrix_offdiag_pos; lia.
Qed.

(** For at least two embedded points and the [N*N] buffers of [tsne], the
    matrix Qij that [compute_gradients] holds after line 219 is a
    probability distribution over the pairs of distinct points: its entries
    sum to 1, the diagonal is 0, every other entry is positive, and the
    matrix is symmetric. *)
Theorem qij_is_a_distribution (dist_ qij_ ys_ : list R) (N PROJDIM : nat) :
  (2 <= N)%nat ->
  length dist_ = (N * N)%nat -> length qij_ = (N * N)%nat ->
  let Qij := normalised_qij (student_kernel dist_ ys_ N PROJDIM) qij_ in
  Rsum Qij = 1
  /\ forall i j, (i < N)%nat -> (j < N)%nat ->
       entry N Qij i i = 0
       /\ (i <> j -> 0 < entry N Qij i j)
       /\ entry N Qij i j = entry N Qij j i.
Proof.
  intros HN Hd Hq Qij.
  pose proof (kernel_matrix_sum_pos ys_ N PROJDIM HN) as HZ.
  split.
  - unfold Qij. rewrite student_kernel_is_kernel_matrix by exact Hd.
    apply normalised_qij_sum; [| lra].
    now rewrite length_kernel_matrix.
  - intros i j Hi Hj. unfold Qij.
    rewrite normalised_qij_is_affinity_matrix by assumption.
    rewrite !entry_affinity_matrix by assumption.
    rewrite reduce_exact. cbn [div Exact].
    split; [|split].
    + rewrite kernel_matrix_entry_exact, Nat.eqb_refl by assumption.
      unfold Rdiv. lra.
    + intros Hne. apply Rdiv_lt_0_compat; [|exact HZ].
      now apply kernel_matrix_offdiag_pos.
    + rewrite !kernel_matrix_entry_exact by assumption.
      rewrite (Nat.eqb_sym j i).
      now rewrite (squared_pairwise_dist_sym_exact ys_ N PROJDIM i j).
Qed.

Lemma qij_is_a_distribution_witness :
  Rsum (normalised_qij (student_kernel [0; 0; 0; 0] [0; 1] 2 1) [0; 0; 0; 0]) = 1.
Proof.
  refine (proj1 (qij_is_a_distribution [0; 0; 0; 0] [0; 0; 0; 0] [0; 1] 2 1
                   _ eq_refl eq_refl)).
  lia.
Defined.

(** *** The affinities Pij *)

Lemma conditional_pij_column_sum (points sigma : list R) (N NDIMS i : nat) :
  (2 <= N)%nat -> (i < N)%nat ->
  Rsum_upto N (fun j => entry N (conditional_pij points sigma N NDIMS) i j) = 1.
Proof.
  intros HN Hi.
  pose proof (kernel_pij_column_pos points sigma N NDIMS i HN Hi) as Hpos.
  rewrite (Rsum_upto_ext N _
             (fun j => entry N (kernel_pij points sigma N NDIMS) i j
                       * / Rsum_upto N (fun j' =>
                             entry N (kernel_pij points sigma N NDIMS) i j')))
    by (intros j Hj; now rewrite entry_conditional_pij).
  rewrite Rsum_upto_scale. apply Rinv_r. lra.
Qed.


Lemma conditional_pij_diagonal (points sigma : list R) (N NDIMS i : nat) :
  (i < N)%nat -> entry N (conditional_pij points sigma N NDIMS) i i = 0.
Proof.
  intros Hi. rewrite entry_conditional_pij, entry_kernel_pij by exact Hi.
  rewrite Nat.eqb_refl. unfold Rdiv. lra.
Qed.

Lemma compute_pij_entry_exact (points sigma : list R) (N NDIMS i j : nat) :
  (i < N)%nat -> (j < N)%nat ->
  entry N (compute_pij points sigma N NDIMS) i j
  = / 2 * entry N (conditional_pij points sigma N NDIMS) i j
    + / 2 * entry N (conditional_pij points sigma N NDIMS) j i.
Proof.
  intros Hi Hj. rewrite compute_pij_entry by assumption.
  cbn [add mul Exact]. now rewrite half_exact.
Qed.

Lemma Rsum_upto_linear (n : nat) (a b : R) (f g : nat -> R) :
  Rsum_upto n (fun k => a * f k + b * g k) = a * Rsum_upto n f + b * Rsum_upto n g.
Proof.
  induction n as [|n IH].
  - unfold Rsum_upto. cbn. lra.
  - rewrite !Rsum_upto_S, IH. lra.
Qed.

Lemma Rsum_upto_swap (n m : nat) (f : nat -> nat -> R) :
  Rsum_upto n (fun a => Rsum_upto m (fun b => f a b))
  = Rsum_upto m (fun b => Rsum_upto n (fun a => f a b)).
Proof. unfold Rsum_upto. apply Rsum_swap. Qed.

Lemma compute_pij_sum (points sigma : list R) (N NDIMS : nat) :
  (2 <= N)%nat -> Rsum (compute_pij points sigma N NDIMS) = INR N.
Proof.
  intros HN. rewrite (Rsum_matrix N) by apply length_compute_pij.
  set (c := fun i j => entry N (conditional_pij points sigma N NDIMS) i j).
  assert (Hcol : forall i, (i < N)%nat -> Rsum_upto N (fun j => c i j) = 1)
    by (intros i Hi; now apply conditional_pij_column_sum).
  assert (Hall : Rsum_upto N (fun j => Rsum_upto N (fun i => c i j)) = INR N).
  { rewrite Rsum_upto_swap.
    rewrite (Rsum_upto_ext N _ (fun _ => 1)) by exact Hcol.
    rewrite Rsum_upto_const. lra. }
  rewrite (Rsum_upto_ext N _
             (fun j => / 2 * Rsum_upto N (fun i => c i j) + / 2 * 1)).
  - rewrite (Rsum_upto_linear N (/ 2) (/ 2)
               (fun j => Rsum_upto N (fun i => c i j)) (fun _ => 1)).
    rewrite Hall, Rsum_upto_const. lra.
  - intros j Hj.
    rewrite (Rsum_upto_ext N _ (fun i => / 2 * c i j + / 2 * c j i))
      by (intros i Hi; now rewrite compute_pij_entry_exact).
    rewrite (Rsum_upto_linear N (/ 2) (/ 2) (fun i => c i j) (fun i => c j i)).
    now rewrite (Hcol j Hj).
Qed.



(** *** The loss from below *)

Lemma ln_le_minus_1 (x : R) : 0 < x -> ln x <= x - 1.
Proof.
  intros Hx. pose proof (exp_ineq1_le (ln x)) as H.
  rewrite exp_ln in H by exact Hx. lra.
Qed.

Lemma kl_term_lower (p q : R) : 0 <= p -> 0 < q -> p - q <= kl_term p q.
Proof.
  intros Hp Hq. unfold kl_term.
  destruct (Req_dec_T p 0) as [->|Hne]; [lra|].
  assert (Hpos : 0 < p) by lra.
  assert (H : ln (q * / p) <= q * / p - 1)
    by (apply ln_le_minus_1; apply Rmult_lt_0_compat;
        [exact Hq | now apply Rinv_0_lt_compat]).
  rewrite ln_mult, ln_Rinv in H by (try apply Rinv_0_lt_compat; assumption).
  assert (Hq' : p * (q * / p) = q) by (field; lra).
  nra.
Qed.

Lemma Rsum_map_le {A : Type} (f g : A -> R) (l : list A) :
  (forall x, In x l -> f x <= g x) -> Rsum (map f l) <= Rsum (map g l).
Proof.
  intros Hfg. induction l as [|x l IH]; cbn; [lra|].
  assert (f x <= g x) by (apply Hfg; now left).
  assert (Rsum (map f l) <= Rsum (map g l))
    by (apply IH; intros y Hy; apply Hfg; now right).
  lra.
Qed.

Lemma Rsum_map_minus {A : Type} (f g : A -> R) (l : list A) :
  Rsum (map (fun x => f x - g x) l) = Rsum (map f l) - Rsum (map g l).
Proof. induction l as [|x l IH]; cbn; [lra | rewrite IH; lra]. Qed.

Lemma in_offdiag_pairs (N : nat) (ij : nat * nat) :
  In ij (offdiag_pairs N) ->
  (fst ij < N)%nat /\ (snd ij < N)%nat /\ fst ij <> snd ij.
Proof.
  unfold offdiag_pairs. intros Hin. apply filter_In in Hin.
  destruct Hin as [Hin Hne]. destruct ij as [i j]. cbn [fst snd] in Hin, Hne |- * .
  apply in_prod_iff in Hin. destruct Hin as [Hi Hj].
  apply in_seq in Hi. apply in_seq in Hj.
  destruct (Nat.eqb_spec i j); [discriminate | lia].
Qed.

(** The off-diagonal entries of a matrix with a zero diagonal carry its
    whole sum. *)
Lemma Rsum_offdiag_zero_diagonal (N : nat) (M : list R) :
  length M = (N * N)%nat ->
  (forall i, (i < N)%nat -> entry N M i i = 0) ->
  Rsum (map (fun ij => entry N M (fst ij) (snd ij)) (offdiag_pairs N)) = Rsum M.
Proof.
  intros Hlen Hdiag.
  rewrite (Rsum_offdiag_flat N (fun i j => entry N M i j)).
  rewrite (Rsum_as_upto (N * N) M Hlen).
  apply Rsum_upto_ext. intros k Hk.
  assert (HN : (0 < N)%nat) by (destruct N; [cbn in Hk; lia | lia]).
  assert (Hm : (k mod N < N)%nat) by (apply Nat.mod_upper_bound; lia).
  assert (Hk' : entry N M (k mod N) (k / N) = at_ M k)
    by (unfold entry; now rewrite index_decompose).
  unfold is_diag. destruct (Nat.eqb_spec (k mod N) (k / N)) as [Heq|_].
  - rewrite <- Hk', <- Heq. symmetry. now apply Hdiag.
  - exact Hk'.
Qed.

Lemma affinity_matrix_sum (ys_ : list R) (N PROJDIM : nat) :
  (2 <= N)%nat -> Rsum (affinity_matrix ys_ N PROJDIM) = 1.
Proof.
  intros HN.
  rewrite <- (normalised_qij_is_affinity_matrix
                (repeat 0 (N * N)) (repeat 0 (N * N)) ys_ N PROJDIM)
    by apply repeat_length.
  rewrite student_kernel_is_kernel_matrix by apply repeat_length.
  apply normalised_qij_sum.
  - now rewrite repeat_length, length_kernel_matrix.
  - pose proof (kernel_matrix_sum_pos ys_ N PROJDIM HN). lra.
Qed.

Lemma affinity_matrix_entry_exact (ys_ : list R) (N PROJDIM i j : nat) :
  (i < N)%nat -> (j < N)%nat ->
  entry N (affinity_matrix ys_ N PROJDIM) i j
  = entry N (kernel_matrix ys_ N PROJDIM) i j / Rsum (kernel_matrix ys_ N PROJDIM).
Proof.
  intros Hi Hj. rewrite entry_affinity_matrix by assumption.
  now rewrite reduce_exact.
Qed.

Lemma loss_lower_bound (b : GradBuffers R) (N PROJDIM : nat) (eta : R) :
  (2 <= N)%nat ->
  length (dist b) = (N * N)%nat ->
  length (qij b) = (N * N)%nat ->
  length (pij b) = (N * N)%nat ->
  (forall i j, (i < N)%nat -> (j < N)%nat -> 0 <= entry N (pij b) i j) ->
  Rsum (map (fun ij => entry N (pij b) (fst ij) (snd ij)) (offdiag_pairs N)) - 1
  <= fst (compute_gradients b N PROJDIM eta).
Proof.
  intros HN Hd Hq Hp Hpos.
  rewrite loss_is_kl_loss by assumption. unfold kl_loss.
  set (Q := affinity_matrix (ys b) N PROJDIM).
  pose proof (kernel_matrix_sum_pos (ys b) N PROJDIM HN) as HZ.
  assert (HQ1 : Rsum (map (fun ij => entry N Q (fst ij) (snd ij)) (offdiag_pairs N)) = 1).
  { rewrite Rsum_offdiag_zero_diagonal.
    - now apply affinity_matrix_sum.
    - apply length_affinity_matrix.
    - intros i Hi. unfold Q.
      rewrite affinity_matrix_entry_exact, kernel_matrix_entry_exact by exact Hi.
      rewrite Nat.eqb_refl. unfold Rdiv. lra. }
  rewrite <- HQ1, <- Rsum_map_minus.
  apply Rsum_map_le. intros ij Hin.
  apply in_offdiag_pairs in Hin. destruct Hin as (Hi & Hj & Hne).
  apply kl_term_lower; [now apply Hpos|].
  unfold Q. rewrite affinity_matrix_entry_exact by assumption.
  apply Rdiv_lt_0_compat; [|exact HZ].
  now apply kernel_matrix_offdiag_pos.
Qed.

(** For at least two points and an affinity matrix without negative
    entries, the loss [compute_gradients] returns is at least the sum of the
    off-diagonal entries of [pij] minus 1 (the sum of Qij): it is
    non-negative when that sum is 1, and at least [N - 1] for the matrix
    [compute_pij] returns, whose sum is [N]. *)
Theorem compute_gradients_loss_lower_bound (b : GradBuffers R) (N PROJDIM : nat) (eta : R) :
  (2 <= N)%nat ->
  length (dist b) = (N * N)%nat ->
  length (qij b) = (N * N)%nat ->
  length (pij b) = (N * N)%nat ->
  (forall i j, (i < N)%nat -> (j < N)%nat -> 0 <= entry N (pij b) i j) ->
  Rsum (map (fun ij => entry N (pij b) (fst ij) (snd ij)) (offdiag_pairs N)) - 1
    <= fst (compute_gradients b N PROJDIM eta)
  /\ (forall points sigma NDIMS,
        (forall i, (i < N)%nat -> 0 < at_ sigma i) ->
        pij b = compute_pij points sigma N NDIMS ->
        INR N - 1 <= fst (compute_gradients b N PROJDIM eta)).
Proof.
  intros HN Hd Hq Hp Hpos.
  pose proof (loss_lower_bound b N PROJDIM eta HN Hd Hq Hp Hpos) as Hlow.
  split; [exact Hlow|].
  intros points sigma NDIMS _ Hpij.
  rewrite Rsum_offdiag_zero_diagonal in Hlow; [| exact Hp |].
  - rewrite Hpij, compute_pij_sum in Hlow by exact HN. exact Hlow.
  - intros i Hi. rewrite Hpij, compute_pij_entry_exact by exact Hi.
    rewrite conditional_pij_diagonal by exact Hi. lra.
Qed.

Lemma compute_gradients_loss_lower_bound_witness :
  Rsum (map (fun ij => entry 2 (pij two_points) (fst ij) (snd ij)) (offdiag_pairs 2)) - 1
  <= fst (compute_gradients two_points 2 1 1).
Proof.
  refine (proj1 (compute_gradients_loss_lower_bound two_points 2 1 1
                   _ eq_refl eq_refl eq_refl _)).
  - lia.
  - intros [|[|i]] [|[|j]] Hi Hj; unfold entry, at_; cbn; try lra; lia.
Defined.

(** *** The forces balance *)

Lemma gradient_coefficient_entry (ys_ pij_ : list R) (N PROJDIM i j : nat) :
  (i < N)%nat -> (j < N)%nat ->
  entry N (gradient_coefficient ys_ pij_ N PROJDIM) i j
  = (entry N pij_ i j - entry N (affinity_matrix ys_ N PROJDIM) i j)
    * entry N (kernel_matrix ys_ N PROJDIM) i j.
Proof.
  intros Hi Hj. unfold entry at 1, gradient_coefficient. cbv zeta.
  now rewrite at_tabulate by now apply index_bound.
Qed.

Lemma gradient_coefficient_sym (ys_ pij_ : list R) (N PROJDIM i j : nat) :
  (i < N)%nat -> (j < N)%nat ->
  entry N pij_ i j = entry N pij_ j i ->
  entry N (gradient_coefficient ys_ pij_ N PROJDIM) i j
  = entry N (gradient_coefficient ys_ pij_ N PROJDIM) j i.
Proof.
  intros Hi Hj Hp. rewrite !gradient_coefficient_entry by assumption.
  rewrite !affinity_matrix_entry_exact, !kernel_matrix_entry_exact by assumption.
  rewrite (Nat.eqb_sym j i), Hp.
  now rewrite (squared_pairwise_dist_sym_exact ys_ N PROJDIM i j).
Qed.

Lemma descent_forces_entry (C Y : list R) (N PROJDIM : nat) (eta : R) (i j : nat) :
  (i < N)%nat -> (j < PROJDIM)%nat ->
  entry N (descent_forces C Y N PROJDIM eta) i j
  = 4 * eta * (Rsum_upto N (fun k => entry N C i k * entry N Y k j)
               - entry N Y i j * Rsum_upto N (fun k => entry N C i k)).
Proof.
  intros Hi Hj. assert (Hb : (i + j * N < N * PROJDIM)%nat) by nia.
  unfold entry at 1, descent_forces. rewrite at_tabulate by exact Hb.
  cbv zeta. now rewrite index_mod, index_div by exact Hi.
Qed.

(** For a symmetric affinity matrix [pij], the forces [compute_gradients]
    leaves sum to zero over the points, in every output dimension: the update
    does not push the centre of the embedding. *)
Theorem forces_sum_to_zero (b : GradBuffers R) (N PROJDIM : nat) (eta : R) :
  length (dist b) = (N * N)%nat ->
  length (qij b) = (N * N)%nat ->
  length (pij b) = (N * N)%nat ->
  length (ys b) = (N * PROJDIM)%nat ->
  length (forces b) = (N * PROJDIM)%nat ->
  (forall i j, (i < N)%nat -> (j < N)%nat ->
     entry N (pij b) i j = entry N (pij b) j i) ->
  forall j, (j < PROJDIM)%nat ->
    Rsum_upto N (fun i =>
      entry N (forces (snd (compute_gradients b N PROJDIM eta))) i j) = 0.
Proof.
  intros Hd Hq Hp Hy Hf Hsym j Hj.
  rewrite forces_are_descent_forces by assumption.
  set (C := gradient_coefficient (ys b) (pij b) N PROJDIM).
  set (Y := ys b).
  rewrite (Rsum_upto_ext N _
             (fun i => (4 * eta) * Rsum_upto N (fun k => entry N C i k * entry N Y k j)
                       + (- (4 * eta)) * Rsum_upto N (fun k => entry N C k i * entry N Y i j))).
  - rewrite (Rsum_upto_linear N (4 * eta) (- (4 * eta))).
    rewrite (Rsum_upto_swap N N (fun i k => entry N C k i * entry N Y i j)).
    lra.
  - intros i Hi. rewrite descent_forces_entry by assumption.
    rewrite (Rsum_upto_ext N (fun k => entry N C k i * entry N Y i j)
               (fun k => entry N C i k * entry N Y i j))
      by (intros k Hk; unfold C;
          now rewrite (gradient_coefficient_sym _ _ _ _ k i) by (try apply Hsym; assumption)).
    rewrite (Rsum_upto_scale N (fun k => entry N C i k) (entry N Y i j)). lra.
Qed.

Lemma forces_sum_to_zero_witness :
  Rsum_upto 2 (fun i => entry 2 (forces (snd (compute_gradients two_points 2 1 1))) i 0) = 0.
Proof.
  refine (forces_sum_to_zero two_points 2 1 1
            eq_refl eq_refl eq_refl eq_refl eq_refl _ 0%nat _).
  - intros [|[|i]] [|[|j]] Hi Hj; unfold entry, at_; cbn; try reflexivity; lia.
  - lia.
Defined.
End ExactFacts.

(** ** The loop of [tsne]: what every iteration keeps *)

Section LoopInvariants.
Context {F : Type} {SF : Scalar F}.
Local Open Scope scalar_scope.

Lemma length_store_zip (f : F -> F -> F) (xs ys_ : list F) (n : nat) :
  length xs = n -> length ys_ = n ->
  store_range (zip_with f xs ys_) xs = zip_with f xs ys_
  /\ length (zip_with f xs ys_) = n.
Proof.
  intros Hx Hy.
  assert (Hz : length (zip_with f xs ys_) = n)
    by (rewrite length_zip_with, Hx, Hy; apply Nat.min_id).
  split; [|exact Hz]. apply store_range_full. now rewrite Hz, Hx.
Qed.

Lemma length_gradient_coefficient (ys_ pij_ : list F) (N PROJDIM : nat) :
  length (gradient_coefficient ys_ pij_ N PROJDIM) = (N * N)%nat.
Proof. apply length_tabulate. Qed.

(** The sizes of the buffers [compute_gradients] leaves. *)
Lemma compute_gradients_sizes (b : GradBuffers F) (N PROJDIM : nat) (eta : F) :
  length (dist b) = (N * N)%nat ->
  length (qij b) = (N * N)%nat ->
  length (pij b) = (N * N)%nat ->
  length (ys b) = (N * PROJDIM)%nat ->
  length (forces b) = (N * PROJDIM)%nat ->
  let b' := snd (compute_gradients b N PROJDIM eta) in
  length (dist b') = (N * N)%nat
  /\ length (qij b') = (N * N)%nat
  /\ length (forces b') = (N * PROJDIM)%nat
  /\ ys b' = ys b /\ pij b' = pij b.
Proof.
  intros Hd Hq Hp Hy Hf b'.
  destruct (compute_gradients_buffers b N PROJDIM eta Hd Hq Hp)
    as (HK & HC & Hys & Hpij).
  subst b'. rewrite HK, HC.
  split; [apply length_kernel_matrix|].
  split; [apply length_gradient_coefficient|].
  split; [|split; assumption].
  rewrite compute_gradients_forces. cbv zeta.
  apply length_gemm.
  set (G := gemm N PROJDIM N one _ _ zero (forces b)).
  assert (HG : length G = (N * PROJDIM)%nat) by now apply length_gemm.
  destruct (length_store_zip mul G (ys b) (N * PROJDIM) HG Hy) as [-> Hz].
  exact Hz.
Qed.

Lemma gradient_update_unfold (N PROJDIM : nat) (eta : F) (i : nat) (s : LoopState F) :
  gradient_update N PROJDIM eta i s =
    let r := compute_gradients (bufs s) N PROJDIM eta in
    let b := snd r in
    let momentum_ := store_range (zip_with sub (ys b) (yt_1 s)) (momentum s) in
    let momentum_ := store_range (map (fun x => x *. momentum_weight) momentum_) momentum_ in
    let ys_ := store_range (zip_with add (ys b) (forces b)) (ys b) in
    let ys_ := store_range (zip_with add ys_ momentum_) ys_ in
    {| bufs := {| forces := forces b; dist := dist b; ys := ys_;
                  pij := pij b; qij := qij b |};
       yt_1 := store_range (ys b) (yt_1 s);
       momentum := momentum_;
       loss := fst r;
       executed := executed s ++ [(i, fst r)] |}.
Proof.
  unfold gradient_update.
  now destruct (compute_gradients (bufs s) N PROJDIM eta) as [l b].
Qed.

(** One loop body keeps the sizes and [pij]. *)
Lemma gradient_update_sized (N PROJDIM : nat) (eta : F) (i : nat) (s : LoopState F) :
  buffers_sized N PROJDIM s ->
  buffers_sized N PROJDIM (gradient_update N PROJDIM eta i s)
  /\ pij (bufs (gradient_update N PROJDIM eta i s)) = pij (bufs s).
Proof.
  intros (Hy & Hf & Ht & Hm & Hd & Hq & Hp).
  destruct (compute_gradients_sizes (bufs s) N PROJDIM eta Hd Hq Hp Hy Hf)
    as (Hd' & Hq' & Hf' & Hys & Hpij).
  rewrite gradient_update_unfold. cbv zeta.
  unfold buffers_sized. cbn [bufs ys forces yt_1 momentum dist qij pij].
  rewrite Hys, Hpij.
  assert (Hmom1 : length (store_range (zip_with sub (ys (bufs s)) (yt_1 s)) (momentum s))
                  = (N * PROJDIM)%nat).
  { rewrite store_range_full; rewrite length_zip_with, Hy, Ht, Nat.min_id; auto. }
  assert (Hmom : length (store_range
                   (map (fun x => x *. momentum_weight)
                        (store_range (zip_with sub (ys (bufs s)) (yt_1 s)) (momentum s)))
                   (store_range (zip_with sub (ys (bufs s)) (yt_1 s)) (momentum s)))
                 = (N * PROJDIM)%nat).
  { rewrite store_range_full; now rewrite length_map. }
  assert (Hys1 : length (store_range
                   (zip_with add (ys (bufs s))
                      (forces (snd (compute_gradients (bufs s) N PROJDIM eta))))
                   (ys (bufs s))) = (N * PROJDIM)%nat).
  { rewrite store_range_full; rewrite length_zip_with, Hy, Hf', Nat.min_id; auto. }
  repeat split; try assumption.
  - rewrite store_range_full; rewrite length_zip_with, Hys1, Hmom, Nat.min_id; auto.
  - rewrite store_range_full; [exact Hy | now rewrite Hy, Ht].
Qed.

Lemma for_loop_sized (N PROJDIM : nat) (eta : F) (n i : nat) (s : LoopState F) :
  buffers_sized N PROJDIM s ->
  buffers_sized N PROJDIM (for_loop n i (gradient_update N PROJDIM eta) s)
  /\ pij (bufs (for_loop n i (gradient_update N PROJDIM eta) s)) = pij (bufs s).
Proof.
  revert i s. induction n as [|n IH]; intros i s Hs; [now split|].
  cbn [for_loop].
  destruct (gradient_update_sized N PROJDIM eta i s Hs) as [Hs' Hp'].
  destruct (IH (S i) _ Hs') as [Hs'' Hp''].
  split; [exact Hs''|]. now rewrite Hp'', Hp'.
Qed.

Lemma tsne_initial_state_sized (points : list F) (N NDIMS PROJDIM : nat)
    (rand_sigmas rand_ys : list F) :
  length rand_ys = (N * PROJDIM)%nat ->
  buffers_sized N PROJDIM (tsne_initial_state points N NDIMS PROJDIM rand_sigmas rand_ys).
Proof.
  intros Hy. unfold buffers_sized, tsne_initial_state.
  cbn [bufs ys forces yt_1 momentum dist qij pij].
  rewrite !repeat_length, length_compute_pij. now repeat split.
Qed.

Lemma tsne_as_loop (points : list F) (N NDIMS PROJDIM : nat)
    (rand_sigmas rand_ys : list F) :
  tsne points N NDIMS PROJDIM rand_sigmas rand_ys =
    let s := for_loop 5000 0 (gradient_update N PROJDIM one)
               (tsne_initial_state points N NDIMS PROJDIM rand_sigmas rand_ys) in
    {| embedding := ys (bufs s); points_after := max_norm points;
       steps := executed s |}.
Proof. reflexivity. Qed.

(** The loop of [tsne] keeps the buffer sizes it starts from and never
    writes to [pij]: after any number of iterations every buffer has the size
    it was allocated with, and [pij] is the matrix the loop was entered
    with. Every call of [compute_gradients] in the loop is thus made on
    buffers of these sizes. *)
Theorem tsne_loop_keeps_sizes_and_pij (N PROJDIM : nat) (eta : F) (n i : nat)
    (s : LoopState F) :
  buffers_sized N PROJDIM s ->
  buffers_sized N PROJDIM (for_loop n i (gradient_update N PROJDIM eta) s)
  /\ pij (bufs (for_loop n i (gradient_update N PROJDIM eta) s)) = pij (bufs s).
Proof. apply for_loop_sized. Qed.

(** When [Random::random_vector] delivers [N * PROJDIM] values, [tsne]
    returns an embedding of [N * PROJDIM] values. *)
Theorem tsne_embedding_size (points : list F) (N NDIMS PROJDIM : nat)
    (rand_sigmas rand_ys : list F) :
  length rand_ys = (N * PROJDIM)%nat ->
  length (embedding (tsne points N NDIMS PROJDIM rand_sigmas rand_ys))
  = (N * PROJDIM)%nat.
Proof.
  intros Hy. rewrite tsne_as_loop. cbv zeta. cbn [embedding].
  destruct (for_loop_sized N PROJDIM one 5000 0 _
              (tsne_initial_state_sized points N NDIMS PROJDIM rand_sigmas rand_ys Hy))
    as [(Hys & _) _].
  exact Hys.
Qed.

(** One loop body on buffers of the sizes of [tsne], entry by entry: the
    momentum is [momentum_weight] times the last displacement, [yt_1] takes
    the embedding as it was before the update, and the embedding moves by the
    forces of this iteration plus the momentum. *)
Theorem gradient_update_entries (N PROJDIM : nat) (eta : F) (i : nat) (s : LoopState F) :
  buffers_sized N PROJDIM s ->
  let s' := gradient_update N PROJDIM eta i s in
  let f := forces (snd (compute_gradients (bufs s) N PROJDIM eta)) in
  forces (bufs s') = f
  /\ yt_1 s' = ys (bufs s)
  /\ forall k, (k < N * PROJDIM)%nat ->
       at_ (momentum s') k
         = (at_ (ys (bufs s)) k -. at_ (yt_1 s) k) *. momentum_weight
       /\ at_ (ys (bufs s')) k
          = (at_ (ys (bufs s)) k +. at_ f k) +. at_ (momentum s') k.
Proof.
  intros (Hy & Hf & Ht & Hm & Hd & Hq & Hp) s' f.
  destruct (compute_gradients_sizes (bufs s) N PROJDIM eta Hd Hq Hp Hy Hf)
    as (Hd' & Hq' & Hf' & Hys & Hpij).
  subst s'. rewrite gradient_update_unfold. cbv zeta.
  cbn [bufs ys forces yt_1 momentum]. rewrite Hys. fold f.
  assert (Hmom1 : store_range (zip_with sub (ys (bufs s)) (yt_1 s)) (momentum s)
                  = zip_with sub (ys (bufs s)) (yt_1 s)).
  { apply store_range_full. now rewrite length_zip_with, Hy, Ht, Nat.min_id. }
  rewrite Hmom1.
  assert (Hz1 : length (zip_with sub (ys (bufs s)) (yt_1 s)) = (N * PROJDIM)%nat)
    by now rewrite length_zip_with, Hy, Ht, Nat.min_id.
  assert (Hmom2 : store_range (map (fun x => x *. momentum_weight)
                                  (zip_with sub (ys (bufs s)) (yt_1 s)))
                              (zip_with sub (ys (bufs s)) (yt_1 s))
                  = map (fun x => x *. momentum_weight)
                        (zip_with sub (ys (bufs s)) (yt_1 s))).
  { apply store_range_full. now rewrite length_map. }
  rewrite Hmom2.
  assert (Hys1 : store_range (zip_with add (ys (bufs s)) f) (ys (bufs s))
                 = zip_with add (ys (bufs s)) f).
  { apply store_range_full. unfold f. now rewrite length_zip_with, Hy, Hf', Nat.min_id. }
  rewrite Hys1.
  assert (Hz2 : length (zip_with add (ys (bufs s)) f) = (N * PROJDIM)%nat)
    by (unfold f; now rewrite length_zip_with, Hy, Hf', Nat.min_id).
  split; [reflexivity|]. split.
  - apply store_range_full. now rewrite Hy, Ht.
  - intros k Hk. split.
    + rewrite at_map by now rewrite Hz1.
      now rewrite at_zip_with by (rewrite ?Hy, ?Ht; exact Hk).
    + rewrite store_range_full
        by now rewrite length_zip_with, Hz2, length_map, Hz1, Nat.min_id.
      rewrite at_zip_with by (rewrite ?Hz2, ?length_map, ?Hz1; exact Hk).
      now rewrite at_zip_with by (unfold f; rewrite ?Hy, ?Hf'; exact Hk).
Qed.

(** A property of the loss of every [compute_gradients] call on sized
    buffers with a given [pij] is a property of every recorded step. *)
Lemma for_loop_losses (N PROJDIM : nat) (eta : F) (P0 : list F) (good : F -> Prop) :
  (forall b, length (dist b) = (N * N)%nat -> length (qij b) = (N * N)%nat ->
             length (pij b) = (N * N)%nat -> pij b = P0 ->
             good (fst (compute_gradients b N PROJDIM eta))) ->
  forall n i s,
    buffers_sized N PROJDIM s -> pij (bufs s) = P0 ->
    Forall (fun st => good (snd st)) (executed s) ->
    Forall (fun st => good (snd st))
           (executed (for_loop n i (gradient_update N PROJDIM eta) s)).
Proof.
  intros Hgood. induction n as [|n IH]; intros i s Hs HP Hex; [exact Hex|].
  cbn [for_loop].
  destruct (gradient_update_sized N PROJDIM eta i s Hs) as [Hs' Hp'].
  apply IH; [exact Hs' | now rewrite Hp' |].
  rewrite gradient_update_unfold. cbv zeta. cbn [executed].
  apply Forall_app. split; [exact Hex|].
  constructor; [|constructor]. cbn [snd].
  destruct Hs as (_ & _ & _ & _ & Hd & Hq & Hp).
  now apply Hgood.
Qed.
End LoopInvariants.

(** ** The scratch buffers of [compute_gradients] *)

Section ScratchBuffers.
Context {F : Type} {SF : Scalar F}.
Local Open Scope scalar_scope.

(** With [beta = 0] the product does not depend on what the output buffer
    held. *)
Lemma gemm_beta_zero (m n k : nat) (alpha : F) (A B C C' : list F) :
  (zero ==. zero) = true ->
  length C = (m * n)%nat -> length C' = (m * n)%nat ->
  gemm m n k alpha A B zero C = gemm m n k alpha A B zero C'.
Proof.
  intros Hz HC HC'. unfold gemm.
  rewrite !store_range_full by now rewrite length_tabulate.
  now rewrite Hz.
Qed.

Lemma compute_gradients_scratch (b1 b2 : GradBuffers F) (N PROJDIM : nat) (eta : F) :
  (zero ==. zero) = true ->
  length (dist b1) = (N * N)%nat -> length (qij b1) = (N * N)%nat ->
  length (forces b1) = (N * PROJDIM)%nat ->
  length (dist b2) = (N * N)%nat -> length (qij b2) = (N * N)%nat ->
  length (forces b2) = (N * PROJDIM)%nat ->
  ys b1 = ys b2 -> pij b1 = pij b2 ->
  compute_gradients b1 N PROJDIM eta = compute_gradients b2 N PROJDIM eta.
Proof.
  intros Hz Hd1 Hq1 Hf1 Hd2 Hq2 Hf2 Hys Hpij.
  unfold compute_gradients. cbv zeta.
  rewrite !normalised_qij_is_affinity_matrix by assumption.
  rewrite !student_kernel_is_kernel_matrix by assumption.
  rewrite Hys, Hpij.
  now rewrite (gemm_beta_zero N PROJDIM N one _ _ (forces b1) (forces b2)).
Qed.
End ScratchBuffers.

Module Binary32Scratch.
Import Binary32Spec.
Local Open Scope scalar_scope.

(** In binary32, the loss and the four buffers [compute_gradients] leaves
    depend on the embedding, on [pij] and on [eta] only: what [forces],
    [dist] and [qij] held before the call, the results of the previous
    iteration, has no influence. *)
Theorem compute_gradients_ignores_scratch (L : B32.Libm)
    (b1 b2 : GradBuffers spec_float) (N PROJDIM : nat) (eta : spec_float) :
  length (dist b1) = (N * N)%nat -> length (qij b1) = (N * N)%nat ->
  length (forces b1) = (N * PROJDIM)%nat ->
  length (dist b2) = (N * N)%nat -> length (qij b2) = (N * N)%nat ->
  length (forces b2) = (N * PROJDIM)%nat ->
  ys b1 = ys b2 -> pij b1 = pij b2 ->
  compute_gradients (SF := Binary32 L) b1 N PROJDIM eta
  = compute_gradients (SF := Binary32 L) b2 N PROJDIM eta.
Proof.
  intros. now apply (compute_gradients_scratch (SF := Binary32 L)).
Qed.

#[local] Existing Instance inert32.

Lemma compute_gradients_ignores_scratch_witness :
  compute_gradients two_points 2 1 one
  = compute_gradients
      {| forces := [lit 3 0; lit 5 0]; dist := repeat (lit 7 0) 4;
         ys := [zero; one]; pij := [zero; one; one; zero];
         qij := repeat (lit 9 0) 4 |} 2 1 one.
Proof.
  exact (compute_gradients_ignores_scratch B32.inert two_points
           {| forces := [lit 3 0; lit 5 0]; dist := repeat (lit 7 0) 4;
              ys := [zero; one]; pij := [zero; one; one; zero];
              qij := repeat (lit 9 0) 4 |} 2 1 one
           eq_refl eq_refl eq_refl eq_refl eq_refl eq_refl eq_refl eq_refl).
Defined.

Lemma tsne_loop_keeps_sizes_and_pij_witness :
  buffers_sized 2 1
    (for_loop 3 0 (gradient_update 2 1 one)
       (tsne_initial_state [zero; one] 2 1 1 [one; one] [zero; one])).
Proof.
  refine (proj1 (tsne_loop_keeps_sizes_and_pij 2 1 one 3 0
                   (tsne_initial_state [zero; one] 2 1 1 [one; one] [zero; one]) _)).
  unfold buffers_sized. repeat split.
Defined.

Lemma tsne_embedding_size_witness :
  length (embedding (tsne [zero; one] 2 1 1 [one; one] [zero; one])) = 2%nat.
Proof.
  exact (tsne_embedding_size [zero; one] 2 1 1 [one; one] [zero; one] eq_refl).
Defined.

Lemma gradient_update_entries_witness :
  yt_1 (gradient_update 2 1 one 0
          (tsne_initial_state [zero; one] 2 1 1 [one; one] [zero; one]))
  = [zero; one].
Proof.
  refine (proj1 (proj2 (gradient_update_entries 2 1 one 0
                   (tsne_initial_state [zero; one] 2 1 1 [one; one] [zero; one]) _))).
  unfold buffers_sized. repeat split.
Defined.
End Binary32Scratch.

(** ** The loss buffer, entry by entry *)

Section LossBuffer.
Context {F : Type} {SF : Scalar F}.
Local Open Scope scalar_scope.

(** Lines 232-234: the buffer [loss_] after the transform and
    [zero_diagonal]. *)
Lemma loss_buffer_entries (P Q : list F) (N : nat) :
  length P = (N * N)%nat -> length Q = (N * N)%nat ->
  zero_diagonal (store_range (zip_with func_kl P Q) (repeat zero (N * N))) N
  = tabulate (N * N) (fun k =>
      if is_diag N k then zero else func_kl (at_ P k) (at_ Q k)).
Proof.
  intros HP HQ.
  assert (Hz : length (zip_with func_kl P Q) = (N * N)%nat)
    by (rewrite length_zip_with, HP, HQ; apply Nat.min_id).
  rewrite store_range_full by now rewrite repeat_length.
  apply at_ext.
  - now rewrite length_zero_diagonal, length_tabulate.
  - intros k Hk. rewrite length_zero_diagonal, Hz in Hk.
    unfold zero_diagonal. rewrite at_imap by now rewrite Hz.
    rewrite at_tabulate by exact Hk.
    destruct (is_diag N k); [reflexivity|].
    now rewrite at_zip_with by (rewrite ?HP, ?HQ; exact Hk).
Qed.

(** The loss [compute_gradients] returns is the sum, in index order, of
    this buffer. *)
Lemma compute_gradients_loss (b : GradBuffers F) (N PROJDIM : nat) (eta : F) :
  length (dist b) = (N * N)%nat ->
  length (qij b) = (N * N)%nat ->
  length (pij b) = (N * N)%nat ->
  fst (compute_gradients b N PROJDIM eta)
  = reduce (tabulate (N * N) (fun k =>
              if is_diag N k then zero
              else func_kl (at_ (pij b) k)
                           (at_ (affinity_matrix (ys b) N PROJDIM) k)))
           zero.
Proof.
  intros Hd Hq Hp. unfold compute_gradients. cbv zeta. cbn [fst].
  rewrite normalised_qij_is_affinity_matrix by assumption.
  now rewrite loss_buffer_entries by (try exact Hp; apply length_affinity_matrix).
Qed.
End LossBuffer.

(** ** Underflow and NaN in binary32 *)

Module Binary32Underflow.
Import Binary32Spec.
Local Open Scope scalar_scope.

(** The fixed-point [expf]: at 1 it is 0x402DF854, the binary32 number
    nearest to e; at -1.5625 it is 0.2096...; at -103 it is the smallest
    binary32 number, 2^-149, and at -104 it is 0; at 12 / (-2 * (7/32)^2),
    about -125.4, it is 0. *)
Example exp_fixed_values :
  B32.exp_fixed (B32.of_lit 1 0) = S754_finite false 11401300 (-22)
  /\ B32.exp_fixed (B32.of_lit (-25) (-4)) = S754_finite false 14066782 (-26)
  /\ B32.exp_fixed (B32.of_lit (-103) 0) = S754_finite false 1 (-149)
  /\ B32.exp_fixed (B32.of_lit (-104) 0) = S754_zero false
  /\ B32.exp_fixed
       (B32.div (B32.of_lit 12 0)
          (B32.mul (B32.of_lit (-2) 0)
             (B32.mul (B32.of_lit 7 (-5)) (B32.of_lit 7 (-5)))))
     = S754_zero false.
Proof. vm_compute. repeat split. Qed.

Lemma add_nan_l (x : spec_float) : B32.add S754_nan x = S754_nan.
Proof. reflexivity. Qed.

Lemma add_nan_r (x : spec_float) : B32.add x S754_nan = S754_nan.
Proof. destruct x as [[|]|[|]| |[|] m e]; reflexivity. Qed.

Lemma mul_nan_l (x : spec_float) : B32.mul S754_nan x = S754_nan.
Proof. reflexivity. Qed.

Lemma mul_nan_r (x : spec_float) : B32.mul x S754_nan = S754_nan.
Proof. destruct x as [[|]|[|]| |[|] m e]; reflexivity. Qed.

Lemma add_zeros (a b : spec_float) :
  B32.is_zero a = true -> B32.is_zero b = true -> B32.is_zero (B32.add a b) = true.
Proof.
  destruct a as [[|]|[|]| |[|] m e]; try discriminate;
    destruct b as [[|]|[|]| |[|] m' e']; try discriminate; reflexivity.
Qed.

Lemma div_zeros (a b : spec_float) :
  B32.is_zero a = true -> B32.is_zero b = true -> B32.div a b = S754_nan.
Proof.
  destruct a as [[|]|[|]| |[|] m e]; try discriminate;
    destruct b as [[|]|[|]| |[|] m' e']; try discriminate; reflexivity.
Qed.

Lemma mul_one_zero (z : spec_float) :
  B32.is_zero z = true -> B32.is_zero (B32.mul (B32.of_lit 1 0) z) = true.
Proof. destruct z as [[|]|[|]| |[|] m e]; try discriminate; reflexivity. Qed.

Lemma fold_add_zeros (f : nat -> spec_float) (l : list nat) (acc : spec_float) :
  (forall j, In j l -> B32.is_zero (f j) = true) ->
  B32.is_zero acc = true ->
  B32.is_zero (fold_left (fun a k => B32.add a (f k)) l acc) = true.
Proof.
  revert acc. induction l as [|k l IH]; intros acc Hf Ha; cbn [fold_left]; [exact Ha|].
  apply IH.
  - intros j Hj. apply Hf. now right.
  - apply add_zeros; [exact Ha | apply Hf; now left].
Qed.

Lemma fold_add_nan (l : list spec_float) : fold_left B32.add l S754_nan = S754_nan.
Proof. induction l as [|x l IH]; cbn [fold_left]; [reflexivity | exact IH]. Qed.

Lemma fold_add_in_nan (l : list spec_float) (acc : spec_float) :
  In S754_nan l -> fold_left B32.add l acc = S754_nan.
Proof.
  revert acc. induction l as [|x l IH]; intros acc Hin; [contradiction|].
  cbn [fold_left]. destruct Hin as [-> | Hin].
  - rewrite add_nan_r. apply fold_add_nan.
  - now apply IH.
Qed.

(** [x / x] is 1 for every positive finite [x]. *)
Lemma div_self (m : positive) (e : Z) :
  B32.div (S754_finite false m e) (S754_finite false m e) = B32.of_lit 1 0.
Proof.
  unfold B32.div, SFdiv, SFdiv_core_binary.
  replace (Zdigits2 (Z.pos m) + e - (Zdigits2 (Z.pos m) + e))%Z with 0%Z by lia.
  replace (e - e)%Z with 0%Z by lia.
  change (Z.min (fexp B32.prec B32.emax 0) 0) with (-24)%Z.
  change (0 - -24)%Z with 24%Z. cbv beta iota zeta.
  assert (Hdiv : Z.div_eucl (Z.shiftl (Z.pos m) 24) (Z.pos m) = (16777216, 0)%Z).
  { rewrite Z.shiftl_mul_pow2 by lia.
    pose proof (Z.div_eucl_eq (Z.pos m * 2 ^ 24) (Z.pos m)) as Heq.
    pose proof (Z.mod_pos_bound (Z.pos m * 2 ^ 24) (Z.pos m)) as Hb.
    unfold Z.modulo in Hb.
    destruct (Z.div_eucl (Z.pos m * 2 ^ 24) (Z.pos m)) as [q r].
    specialize (Heq ltac:(lia)). specialize (Hb ltac:(lia)).
    assert (q = 2 ^ 24)%Z by nia. assert (r = 0)%Z by nia. subst. reflexivity. }
  rewrite Hdiv.
  unfold new_location. destruct (Z.even (Z.pos m)); reflexivity.
Qed.

Lemma digits2_pos_shift (m : positive) :
  Z.pos (digits2_pos (8388608 * m)) = (Z.pos (digits2_pos m) + 23)%Z.
Proof. cbn [Pos.mul digits2_pos]. lia. Qed.

(** [1 * x] is [x] for every positive number of the format. *)
Lemma mul_one_l (x : spec_float) :
  positive_number x -> B32.mul (B32.of_lit 1 0) x = x.
Proof.
  destruct x as [s|s| |[|] m e]; try contradiction.
  unfold positive_number, bounded, canonical_mantissa.
  intros Hb. apply andb_prop in Hb. destruct Hb as [Hc He].
  apply Z.eqb_eq in Hc.
  change (B32.of_lit 1 0) with (S754_finite false 8388608 (-23)).
  unfold B32.mul, SFmul. cbn [xorb].
  unfold binary_round_aux.
  assert (Hs : shr_fexp B32.prec B32.emax (Z.pos (8388608 * m)) (-23 + e) loc_Exact
               = ({| shr_m := Z.pos m; shr_r := false; shr_s := false |}, e)).
  { unfold shr_fexp. unfold Zdigits2. rewrite digits2_pos_shift.
    replace (Z.pos (digits2_pos m) + 23 + (-23 + e))%Z
      with (Z.pos (digits2_pos m) + e)%Z by lia.
    rewrite Hc. replace (e - (-23 + e))%Z with 23%Z by lia.
    unfold shr. replace (-23 + e + 23)%Z with e by lia.
    cbn [Pos.mul shr_record_of_loc iter_pos shr_1 orb]. reflexivity. }
  rewrite Hs. cbn [shr_m loc_of_shr_record round_nearest_even].
  assert (Hs2 : shr_fexp B32.prec B32.emax (Z.pos m) e loc_Exact
                = ({| shr_m := Z.pos m; shr_r := false; shr_s := false |}, e)).
  { unfold shr_fexp, Zdigits2. rewrite Hc. now rewrite Z.sub_diag. }
  rewrite Hs2. cbn [shr_m].
  now rewrite He.
Qed.

(** The sums and quotients of a 2 x 2 kernel with the positive number [x]
    off the diagonal. *)
Lemma column_sum_first (x : spec_float) :
  positive_number x ->
  B32.mul (B32.of_lit 1 0)
          (B32.add (B32.add (B32.of_lit 0 0) (B32.of_lit 0 0)) x) = x.
Proof.
  intros Hx. rewrite <- (mul_one_l x Hx) at 2.
  destruct x as [s|s| |[|] m e]; try contradiction. reflexivity.
Qed.

Lemma column_sum_second (x : spec_float) :
  positive_number x ->
  B32.mul (B32.of_lit 1 0)
          (B32.add (B32.add (B32.of_lit 0 0) x) (B32.of_lit 0 0)) = x.
Proof.
  intros Hx. rewrite <- (mul_one_l x Hx) at 2.
  destruct x as [s|s| |[|] m e]; try contradiction. reflexivity.
Qed.

Lemma div_zero_positive (x : spec_float) :
  positive_number x -> B32.div (B32.of_lit 0 0) x = S754_zero false.
Proof. destruct x as [s|s| |[|] m e]; try contradiction. reflexivity. Qed.

Lemma div_positive_self (x : spec_float) :
  positive_number x -> B32.div x x = B32.of_lit 1 0.
Proof. destruct x as [s|s| |[|] m e]; try contradiction. intros _. apply div_self. Qed.

Lemma list_of_four (l : list spec_float) :
  length l = 4%nat -> l = [nth 0 l (B32.of_lit 0 0); nth 1 l (B32.of_lit 0 0);
                           nth 2 l (B32.of_lit 0 0); nth 3 l (B32.of_lit 0 0)].
Proof.
  destruct l as [|a [|b [|c [|d [|x l]]]]]; try discriminate. reflexivity.
Qed.

Section Columns.
Variable L : B32.Libm.
#[local] Hint Extern 0 (Scalar spec_float) => exact (Binary32 L) : typeclass_instances.

Lemma func_kl_nan (q : spec_float) : func_kl S754_nan q = S754_nan.
Proof. reflexivity. Qed.

(** A column of zeros of the kernel is divided by its sum, a zero: every
    conditional probability of the column is 0/0. *)
Lemma conditional_pij_column_nan (points sigma : list spec_float) (N NDIMS i : nat) :
  (i < N)%nat ->
  column_of_zeros L N (kernel_pij points sigma N NDIMS) i ->
  forall j, (j < N)%nat ->
    entry N (conditional_pij points sigma N NDIMS) i j = S754_nan.
Proof.
  intros Hi Hcol j Hj. rewrite conditional_pij_entry by assumption.
  apply div_zeros; [now apply Hcol|].
  apply mul_one_zero. unfold sum_upto.
  apply (fold_add_zeros (fun j' => entry N (kernel_pij points sigma N NDIMS) i j'));
    [|reflexivity].
  intros j' Hj'. apply in_seq in Hj'. apply Hcol. lia.
Qed.

(** The symmetrisation spreads it over row and column [i] of the result. *)
Lemma compute_pij_row_column_nan (points sigma : list spec_float) (N NDIMS i : nat) :
  (i < N)%nat ->
  column_of_zeros L N (kernel_pij points sigma N NDIMS) i ->
  forall j, (j < N)%nat ->
    entry N (compute_pij points sigma N NDIMS) i j = S754_nan
    /\ entry N (compute_pij points sigma N NDIMS) j i = S754_nan.
Proof.
  intros Hi Hcol j Hj.
  pose proof (conditional_pij_column_nan points sigma N NDIMS i Hi Hcol j Hj) as Hn.
  rewrite !compute_pij_entry by assumption. rewrite Hn. split.
  - change (B32.add (B32.mul half S754_nan)
                    (B32.mul half (entry N (conditional_pij points sigma N NDIMS) j i))
            = S754_nan).
    now rewrite mul_nan_r.
  - change (B32.add (B32.mul half (entry N (conditional_pij points sigma N NDIMS) j i))
                    (B32.mul half S754_nan)
            = S754_nan).
    now rewrite mul_nan_r, add_nan_r.
Qed.

(** A NaN off the diagonal of [pij] makes the loss NaN. *)
Lemma loss_nan (b : GradBuffers spec_float) (N PROJDIM : nat) (eta : spec_float) (i j : nat) :
  length (dist b) = (N * N)%nat ->
  length (qij b) = (N * N)%nat ->
  length (pij b) = (N * N)%nat ->
  (i < N)%nat -> (j < N)%nat -> i <> j ->
  entry N (pij b) i j = S754_nan ->
  fst (compute_gradients b N PROJDIM eta) = S754_nan.
Proof.
  intros Hd Hq Hp Hi Hj Hne Hnan.
  rewrite compute_gradients_loss by assumption.
  unfold reduce. apply fold_add_in_nan.
  unfold tabulate. apply in_map_iff. exists (i + j * N)%nat. split.
  - rewrite is_diag_index by exact Hi.
    destruct (Nat.eqb_spec i j) as [Heq|_]; [contradiction|].
    unfold entry in Hnan. rewrite Hnan. reflexivity.
  - apply in_seq. pose proof (index_bound N i j Hi Hj). lia.
Qed.
End Columns.

(** Two points, in binary32 and for any libm. When the two off-diagonal
    entries of the Gaussian kernel are positive numbers, [compute_pij]
    returns exactly 0 on the diagonal and 1 off it, whatever the points, their
    dimension and the bandwidths are; when both entries are zeros, as for
    exponentials that underflow, it returns NaN in all four places. *)
Theorem compute_pij_two_points_binary32 (L : B32.Libm)
    (points sigma : list spec_float) (NDIMS : nat) :
  let K := kernel_pij (SF := Binary32 L) points sigma 2 NDIMS in
  (positive_number (entry (SF := Binary32 L) 2 K 0 1) ->
   positive_number (entry (SF := Binary32 L) 2 K 1 0) ->
   compute_pij (SF := Binary32 L) points sigma 2 NDIMS
   = [S754_zero false; B32.of_lit 1 0; B32.of_lit 1 0; S754_zero false])
  /\ (B32.is_zero (entry (SF := Binary32 L) 2 K 0 1) = true ->
      B32.is_zero (entry (SF := Binary32 L) 2 K 1 0) = true ->
      compute_pij (SF := Binary32 L) points sigma 2 NDIMS
      = [S754_nan; S754_nan; S754_nan; S754_nan]).
Proof.
  intros K.
  pose proof (list_of_four _ (length_compute_pij (SF := Binary32 L) points sigma 2 NDIMS))
    as Hfour.
  assert (H0 : (0 < 2)%nat) by lia. assert (H1 : (1 < 2)%nat) by lia.
  pose proof (kernel_pij_diagonal (SF := Binary32 L) points sigma 2 NDIMS 0 H0) as HK00.
  pose proof (kernel_pij_diagonal (SF := Binary32 L) points sigma 2 NDIMS 1 H1) as HK11.
  split.
  - intros Hp01 Hp10.
    assert (Hc : forall i j, (i < 2)%nat -> (j < 2)%nat ->
              entry (SF := Binary32 L) 2
                (conditional_pij (SF := Binary32 L) points sigma 2 NDIMS) i j
              = if (i =? j)%nat then S754_zero false else B32.of_lit 1 0).
    { intros i j Hi Hj. rewrite conditional_pij_entry by assumption.
      unfold sum_upto. cbn [seq fold_left]. fold K.
      destruct i as [|[|i]]; [| |lia]; destruct j as [|[|j]]; try lia;
        cbn [Nat.eqb]; rewrite ?HK00, ?HK11.
      - change (B32.div (B32.of_lit 0 0)
                  (B32.mul (B32.of_lit 1 0)
                     (B32.add (B32.add (B32.of_lit 0 0) (B32.of_lit 0 0))
                              (entry (SF := Binary32 L) 2 K 0 1)))
                = S754_zero false).
        rewrite column_sum_first by exact Hp01. now apply div_zero_positive.
      - change (B32.div (entry (SF := Binary32 L) 2 K 0 1)
                  (B32.mul (B32.of_lit 1 0)
                     (B32.add (B32.add (B32.of_lit 0 0) (B32.of_lit 0 0))
                              (entry (SF := Binary32 L) 2 K 0 1)))
                = B32.of_lit 1 0).
        rewrite column_sum_first by exact Hp01. now apply div_positive_self.
      - change (B32.div (entry (SF := Binary32 L) 2 K 1 0)
                  (B32.mul (B32.of_lit 1 0)
                     (B32.add (B32.add (B32.of_lit 0 0)
                                       (entry (SF := Binary32 L) 2 K 1 0))
                              (B32.of_lit 0 0)))
                = B32.of_lit 1 0).
        rewrite column_sum_second by exact Hp10. now apply div_positive_self.
      - change (B32.div (B32.of_lit 0 0)
                  (B32.mul (B32.of_lit 1 0)
                     (B32.add (B32.add (B32.of_lit 0 0)
                                       (entry (SF := Binary32 L) 2 K 1 0))
                              (B32.of_lit 0 0)))
                = S754_zero false).
        rewrite column_sum_second by exact Hp10. now apply div_zero_positive. }
    rewrite Hfour.
    change (nth 0 (compute_pij (SF := Binary32 L) points sigma 2 NDIMS) (B32.of_lit 0 0))
      with (entry (SF := Binary32 L) 2 (compute_pij (SF := Binary32 L) points sigma 2 NDIMS) 0 0).
    change (nth 1 (compute_pij (SF := Binary32 L) points sigma 2 NDIMS) (B32.of_lit 0 0))
      with (entry (SF := Binary32 L) 2 (compute_pij (SF := Binary32 L) points sigma 2 NDIMS) 1 0).
    change (nth 2 (compute_pij (SF := Binary32 L) points sigma 2 NDIMS) (B32.of_lit 0 0))
      with (entry (SF := Binary32 L) 2 (compute_pij (SF := Binary32 L) points sigma 2 NDIMS) 0 1).
    change (nth 3 (compute_pij (SF := Binary32 L) points sigma 2 NDIMS) (B32.of_lit 0 0))
      with (entry (SF := Binary32 L) 2 (compute_pij (SF := Binary32 L) points sigma 2 NDIMS) 1 1).
    rewrite !compute_pij_entry by assumption.
    rewrite !Hc by assumption. cbn [Nat.eqb]. reflexivity.
  - intros Hz01 Hz10.
    assert (Hcol0 : column_of_zeros L 2 K 0).
    { intros [|[|j]] Hj; [unfold K; now rewrite HK00 | exact Hz01 | lia]. }
    assert (Hcol1 : column_of_zeros L 2 K 1).
    { intros [|[|j]] Hj; [exact Hz10 | unfold K; now rewrite HK11 | lia]. }
    rewrite Hfour.
    change (nth 0 (compute_pij (SF := Binary32 L) points sigma 2 NDIMS) (B32.of_lit 0 0))
      with (entry (SF := Binary32 L) 2 (compute_pij (SF := Binary32 L) points sigma 2 NDIMS) 0 0).
    change (nth 1 (compute_pij (SF := Binary32 L) points sigma 2 NDIMS) (B32.of_lit 0 0))
      with (entry (SF := Binary32 L) 2 (compute_pij (SF := Binary32 L) points sigma 2 NDIMS) 1 0).
    change (nth 2 (compute_pij (SF := Binary32 L) points sigma 2 NDIMS) (B32.of_lit 0 0))
      with (entry (SF := Binary32 L) 2 (compute_pij (SF := Binary32 L) points sigma 2 NDIMS) 0 1).
    change (nth 3 (compute_pij (SF := Binary32 L) points sigma 2 NDIMS) (B32.of_lit 0 0))
      with (entry (SF := Binary32 L) 2 (compute_pij (SF := Binary32 L) points sigma 2 NDIMS) 1 1).
    destruct (compute_pij_row_column_nan L points sigma 2 NDIMS 0 H0 Hcol0 0 H0) as [-> _].
    destruct (compute_pij_row_column_nan L points sigma 2 NDIMS 0 H0 Hcol0 1 H1) as [-> ->].
    destruct (compute_pij_row_column_nan L points sigma 2 NDIMS 1 H1 Hcol1 1 H1) as [-> _].
    reflexivity.
Qed.

(** The spec's two points (0,0) and (10,10): with the bandwidth 8 the result
    is exactly [0 1; 1 0], with the bandwidth 0.3f both exponentials
    underflow and it is NaN throughout. *)
Lemma compute_pij_two_points_binary32_witness :
  compute_pij (SF := Binary32 B32.fixed) far_points sigmas_8 2 2
  = [S754_zero false; B32.of_lit 1 0; B32.of_lit 1 0; S754_zero false]
  /\ compute_pij (SF := Binary32 B32.fixed) far_points sigmas_03 2 2
     = [S754_nan; S754_nan; S754_nan; S754_nan].
Proof.
  split.
  - refine (proj1 (compute_pij_two_points_binary32 B32.fixed far_points sigmas_8 2) _ _);
      vm_compute; reflexivity.
  - refine (proj2 (compute_pij_two_points_binary32 B32.fixed far_points sigmas_03 2) _ _);
      vm_compute; reflexivity.
Defined.

(** In binary32 and for any libm: when the Gaussian kernel of some point,
    computed from the rescaled points and the initial bandwidths, is a
    column of zeros (every exponential of the column has underflowed), the
    loss of every one of the iterations of [tsne] is NaN. *)
Theorem tsne_underflow_gives_nan_losses (L : B32.Libm)
    (points : list spec_float) (N NDIMS PROJDIM : nat)
    (rand_sigmas rand_ys : list spec_float) (i : nat) :
  (2 <= N)%nat -> (i < N)%nat ->
  length rand_ys = (N * PROJDIM)%nat ->
  column_of_zeros L N
    (kernel_pij (SF := Binary32 L) (max_norm (SF := Binary32 L) points) rand_sigmas N NDIMS) i ->
  Forall (fun st => snd st = S754_nan)
         (steps (tsne (SF := Binary32 L) points N NDIMS PROJDIM rand_sigmas rand_ys)).
Proof.
  intros HN Hi Hy Hcol. rewrite tsne_as_loop. cbv zeta. cbn [steps].
  set (j := if (i =? 0)%nat then 1%nat else 0%nat).
  assert (Hj : (j < N)%nat) by (subst j; destruct (i =? 0)%nat; lia).
  assert (Hne : i <> j) by (subst j; destruct (Nat.eqb_spec i 0); lia).
  apply (for_loop_losses (SF := Binary32 L) N PROJDIM one
           (compute_pij (SF := Binary32 L) (max_norm (SF := Binary32 L) points)
                        rand_sigmas N NDIMS)
           (fun l => l = S754_nan)).
  - intros b Hd Hq Hp Hpij.
    apply (loss_nan L b N PROJDIM one i j Hd Hq Hp Hi Hj Hne).
    rewrite Hpij.
    exact (proj1 (compute_pij_row_column_nan L _ rand_sigmas N NDIMS i Hi Hcol j Hj)).
  - now apply tsne_initial_state_sized.
  - reflexivity.
  - constructor.
Qed.

(** The points (1,1,1) and (-1,-1,-1) with the bandwidth 7/32: the squared
    distance 12 over [-2 * (7/32)^2] is about -125.4, and both exponentials
    are 0. *)
Lemma tsne_underflow_gives_nan_losses_witness :
  Forall (fun st => snd st = S754_nan)
         (steps (tsne (SF := Binary32 B32.fixed) opposite_corners 2 3 1 narrow_sigmas
                      [B32.of_lit 0 0; B32.of_lit 1 0])).
Proof.
  refine (tsne_underflow_gives_nan_losses B32.fixed opposite_corners 2 3 1 narrow_sigmas
            [B32.of_lit 0 0; B32.of_lit 1 0] 0 _ _ eq_refl _).
  - lia.
  - lia.
  - intros [|[|j]] Hj; [vm_compute; reflexivity | vm_compute; reflexivity | lia].
Defined.

(** C4 as stated fails. For the spec's points (0,0) and (10,10) with the
    bandwidth 0.3f, and for the rescaled points (1,1,1) and (-1,-1,-1) with
    the bandwidth 7/32, every exponential underflows and [compute_pij]
    returns NaN in all four places: the diagonal is not 0 and
    [M[0][1] == M[1][0]] is false. *)
Lemma compute_pij_underflow_not_symmetric :
  let Pij := compute_pij (SF := Binary32 B32.fixed) far_points sigmas_03 2 2 in
  Pij = [S754_nan; S754_nan; S754_nan; S754_nan]
  /\ SFeqb (entry (SF := Binary32 B32.fixed) 2 Pij 0 0) (S754_zero false) = false
  /\ SFeqb (entry (SF := Binary32 B32.fixed) 2 Pij 0 1)
           (entry (SF := Binary32 B32.fixed) 2 Pij 1 0) = false
  /\ compute_pij (SF := Binary32 B32.fixed)
       (max_norm (SF := Binary32 B32.fixed) opposite_corners) narrow_sigmas 2 3
     = [S754_nan; S754_nan; S754_nan; S754_nan].
Proof. vm_compute. repeat split. Qed.

End Binary32Underflow.

(** ** The loss and its guard *)

Module LossGuard.
Import ExactSpec ExactArithmetic.
Local Open Scope scalar_scope.

(** Without the guard the term of an entry [pij == 0] would be
    [0 * (log 0 - log q)], which is NaN for every libm with
    [log 0 = -infinity], whatever [log q] is. *)
Lemma unguarded_term_is_nan (L : B32.Libm) (q : spec_float) :
  B32.m_log L (S754_zero false) = S754_infinity true ->
  B32.mul (S754_zero false)
          (B32.sub (B32.m_log L (S754_zero false)) (B32.m_log L q)) = S754_nan.
Proof.
  intros ->. destruct (B32.m_log L q) as [[|]|[|]| |[|] m e]; reflexivity.
Qed.

(** C6. With the buffer sizes of [tsne]: in exact arithmetic the loss
    [compute_gradients] returns is the sum, over the off-diagonal entries
    only, of [pij (log pij - log qij)] with [qij] the normalised affinities,
    where the term of an entry with [pij == 0] is 0. In binary32, for any
    libm, the loss is the sum in index order of the [N*N] terms, +0 on the
    diagonal and [func_kl] elsewhere; the term of an entry with [pij == 0]
    (+0 or -0) is exactly +0 whatever [qij] holds, a zero or NaN included,
    and the term of any other entry is the product
    [pij * (log pij - log qij)]. *)
Theorem compute_gradients_loss_guarded :
  (forall (b : GradBuffers R) (N PROJDIM : nat) (eta : R),
     length (dist b) = (N * N)%nat ->
     length (qij b) = (N * N)%nat ->
     length (pij b) = (N * N)%nat ->
     fst (compute_gradients (SF := Exact) b N PROJDIM eta)
     = kl_loss N (pij b) (affinity_matrix (SF := Exact) (ys b) N PROJDIM))
  /\ (forall (L : B32.Libm) (b : GradBuffers spec_float) (N PROJDIM : nat)
             (eta : spec_float),
        length (dist b) = (N * N)%nat ->
        length (qij b) = (N * N)%nat ->
        length (pij b) = (N * N)%nat ->
        fst (compute_gradients (SF := Binary32 L) b N PROJDIM eta)
        = fold_left B32.add
            (map (fun k =>
                    if is_diag N k then S754_zero false
                    else func_kl (SF := Binary32 L)
                           (nth k (pij b) (S754_zero false))
                           (nth k (affinity_matrix (SF := Binary32 L) (ys b) N PROJDIM)
                                (S754_zero false)))
                 (seq 0 (N * N)))
            (S754_zero false))
  /\ (forall (L : B32.Libm) (p q : spec_float),
        SFeqb p (S754_zero false) = true ->
        func_kl (SF := Binary32 L) p q = S754_zero false)
  /\ (forall (L : B32.Libm) (p q : spec_float),
        SFeqb p (S754_zero false) = false ->
        func_kl (SF := Binary32 L) p q
        = B32.mul p (B32.sub (B32.m_log L p) (B32.m_log L q))).
Proof.
  split; [|split; [|split]].
  - intros b N PROJDIM eta Hd Hq Hp. now apply loss_is_kl_loss.
  - intros L b N PROJDIM eta Hd Hq Hp.
    now rewrite (compute_gradients_loss (SF := Binary32 L)) by assumption.
  - intros L p q Hz. unfold func_kl.
    change (eqb (Scalar := Binary32 L) p zero) with (SFeqb p (S754_zero false)).
    now rewrite Hz.
  - intros L p q Hz. unfold func_kl.
    change (eqb (Scalar := Binary32 L) p zero) with (SFeqb p (S754_zero false)).
    now rewrite Hz.
Qed.

(** The loss of the two points at 0 and 1 in exact arithmetic, and the term
    of the entry [pij = -0] against [qij = NaN] in binary32. *)
Lemma compute_gradients_loss_guarded_witness :
  fst (compute_gradients (SF := Exact) ExactSpec.two_points 2 1 1%R)
  = kl_loss 2 (pij ExactSpec.two_points)
            (affinity_matrix (SF := Exact) (ys ExactSpec.two_points) 2 1)
  /\ func_kl (SF := Binary32 B32.inert) (S754_zero true) S754_nan = S754_zero false.
Proof.
  destruct compute_gradients_loss_guarded as (Hexact & _ & Hzero & _).
  split.
  - exact (Hexact ExactSpec.two_points 2%nat 1%nat 1%R eq_refl eq_refl eq_refl).
  - exact (Hzero B32.inert (S754_zero true) S754_nan eq_refl).
Defined.
End LossGuard.

(** ** The columns of the conditional probabilities *)

Module ColumnSums.
Import ExactSpec ExactArithmetic Binary32Spec Binary32Underflow.


End ColumnSums.
